(** * UAV strategic deconfliction: a shallow embedding of [uav_deconfliction]

    The Python package checks a primary drone mission against a set of
    simulated missions.  This development embeds its core

      - [data_models.py]            (Waypoint, Mission, Conflict),
      - [trajectory_generation.py]  (interpolate_trajectory, get_position_at_time),
      - [spatial_check.py]          (calculate_distance, check_spatial_proximity),
      - [temporal_check.py]         (check_temporal_overlap_at_location),
      - [deconfliction_system.py]   (DeconflictionSystem)

    and states the properties of the specification over it.

    Modelling conventions.

    - A [datetime] is the integer number of microseconds since a fixed epoch
      (the resolution of Python's [datetime]); a [timedelta] is an integer
      number of microseconds.  Naive datetimes only; the year range of
      [datetime] is not modelled.
    - Python numbers (int or float coordinates, buffers, seconds) are
      idealised as real numbers: rounding error, infinities and NaN of
      binary64 are not modelled.  [timedelta(seconds=s)] rounds [s * 10^6]
      to the nearest microsecond, ties to even, as CPython does.
    - [Waypoint] objects are mutable ([Mission.__init__] assigns their
      [time]) and may be shared, so they live in a store indexed by object
      identity; a [Mission] holds references.  Waypoints created by the
      interpolator are fresh and never written again: they are values.
    - Python exceptions are results [Raise e]; [while] loops whose
      termination depends on the input run on fuel and yield [OutOfFuel]
      when it is exhausted.
    - The printing of numbers and clock times inside a conflict
      description is a parameter ([Rendering]).

    The statements speak of missions [accepted] in a store: what
    [Mission.__init__] checks and establishes ([init_accepted]) and later
    constructions preserve ([accepted_preserved]). *)

From Stdlib Require Import ZArith Reals Lra Lia Psatz.
From stdpp Require Import base option list gmap sets strings sorting.

#[local] Open Scope Z_scope.

(** ** Results of Python calls *)

Inductive exn : Set := ValueError | TypeError | KeyError | IndexError.

Inductive outcome (A : Type) : Type :=
| Ok (a : A)
| Raise (e : exn)
| OutOfFuel.

Arguments Ok {A} a.
Arguments Raise {A} e.
Arguments OutOfFuel {A}.

#[global] Instance outcome_ret : MRet outcome := fun _ a => Ok a.

#[global] Instance outcome_bind : MBind outcome := fun _ _ f m =>
  match m with
  | Ok a => f a
  | Raise e => Raise e
  | OutOfFuel => OutOfFuel
  end.

(** ** Real-number tests as decisions *)

#[global] Instance Rlt_decision (a b : R) : Decision (a < b)%R := Rlt_dec a b.
#[global] Instance Rle_decision (a b : R) : Decision (a <= b)%R := Rle_dec a b.
#[global] Instance Req_decision : EqDecision R := Req_dec_T.

(** ** datetime and timedelta *)

Abbreviation datetime := Z.
Abbreviation timedelta := Z.

Definition us_per_second : Z := 1000000.

(** [timedelta.total_seconds()] *)
Definition total_seconds (d : timedelta) : R := (IZR d / IZR us_per_second)%R.

(** Rounding to the nearest integer, ties to even (CPython's
    [round_half_even] in the [timedelta] constructor). *)
Definition round_half_even (r : R) : Z :=
  let f := Zfloor r in
  let d := (r - IZR f)%R in
  if decide (d < 1 / 2)%R then f
  else if decide (1 / 2 < d)%R then f + 1
  else if Z.even f then f else f + 1.

(** [datetime.timedelta(seconds=s)] *)
Definition timedelta_seconds (s : R) : timedelta :=
  round_half_even (s * IZR us_per_second).

(** ** data_models.py *)

Module Waypoint.

Record t : Type := mk { x : R; y : R; z : R; time : option datetime }.

Definition with_time (w : t) (tm : option datetime) : t :=
  mk (x w) (y w) (z w) tm.

(** [Waypoint.distance_to] *)
Definition distance_to (self other_waypoint : t) : R :=
  let dx := (x self - x other_waypoint)%R in
  let dy := (y self - y other_waypoint)%R in
  let dz := (z self - z other_waypoint)%R in
  sqrt (dx ^ 2 + dy ^ 2 + dz ^ 2).

(** The tuples [to_tuple] returns: a pair, a triple, or a quadruple with
    the time. *)
Inductive tuple : Type :=
| Tuple2 (x y : R)
| Tuple3 (x y z : R)
| Tuple4 (x y z : R) (time : option datetime).

(** [Waypoint.to_tuple] *)
Definition to_tuple (self : t) (include_time : bool) : tuple :=
  if include_time then Tuple4 (x self) (y self) (z self) (time self)
  else if decide (z self <> 0%R) then Tuple3 (x self) (y self) (z self)
  else Tuple2 (x self) (y self).

(** [Waypoint.__eq__] against another [Waypoint]. *)
Definition __eq__ (self other : t) : bool :=
  bool_decide (x self = x other) && bool_decide (y self = y other)
  && bool_decide (z self = z other) && bool_decide (time self = time other).

(** Reading [wp.time] where a datetime is required: comparing or
    subtracting [None] raises [TypeError]. *)
Definition get_time (w : t) : outcome datetime :=
  match time w with
  | Some tm => Ok tm
  | None => Raise TypeError
  end.

End Waypoint.

#[global] Instance Waypoint_inhabited : Inhabited Waypoint.t :=
  populate (Waypoint.mk 0 0 0 None).

(** Object identities of [Waypoint] instances, and the store holding them. *)
Abbreviation loc := positive.
Abbreviation store := (gmap positive Waypoint.t).

(** [wp.time = tm] on the object at [l]. *)
Definition set_time (h : store) (l : loc) (tm : datetime) : store :=
  <[ l := Waypoint.with_time (h !!! l) (Some tm) ]> h.

(** The waypoints a list of references denotes in a store.  References are
    taken to be allocated; a dangling one, which Python cannot form, reads
    the default waypoint. *)
Definition deref (h : store) (refs : list loc) : list Waypoint.t :=
  (fun l => h !!! l) <$> refs.

Module Mission.

Record t : Type := mk {
  drone_id : string;
  waypoints : list loc;
  start_time : datetime;
  end_time : datetime
}.

(** [total_path_distance], the loop of lines 85-87, with its accumulator. *)
Fixpoint path_distance_from (h : store) (acc : R) (refs : list loc) : R :=
  match refs with
  | a :: (b :: _) as tl =>
      path_distance_from h
        (acc + Waypoint.distance_to (h !!! a) (h !!! b))%R tl
  | _ => acc
  end.

(** The loop of lines 90-92: [enumerate(self.waypoints)] from index [i];
    [n] is [len(self.waypoints)]. *)
Fixpoint assign_evenly (h : store) (i n : nat) (refs : list loc)
    (start : datetime) (total_duration_seconds : R) : store :=
  match refs with
  | [] => h
  | l :: rest =>
      let fraction :=
        if decide (1 < n)%nat then (INR i / INR (n - 1))%R else 0%R in
      let h' := set_time h l
        (start + timedelta_seconds (total_duration_seconds * fraction)) in
      assign_evenly h' (S i) n rest start total_duration_seconds
  end.

(** The loop of lines 96-101: [prev] is [self.waypoints[i-1]], [rest] the
    waypoints from index [i] on. *)
Fixpoint assign_by_distance (h : store) (prev : loc) (rest : list loc)
    (current_distance total_path_distance : R)
    (start : datetime) (total_duration_seconds : R) : store :=
  match rest with
  | [] => h
  | l :: rest' =>
      let segment_distance := Waypoint.distance_to (h !!! prev) (h !!! l) in
      let current_distance := (current_distance + segment_distance)%R in
      let fraction_of_total_distance :=
        (current_distance / total_path_distance)%R in
      let h' := set_time h l
        (start + timedelta_seconds
                   (total_duration_seconds * fraction_of_total_distance)) in
      assign_by_distance h' l rest' current_distance total_path_distance
        start total_duration_seconds
  end.

(** [any(wp.time is None for wp in self.waypoints)] *)
Definition any_time_missing (h : store) (refs : list loc) : bool :=
  existsb (fun l => bool_decide (Waypoint.time (h !!! l) = None)) refs.

(** The body of [_assign_waypoint_times_if_needed], lines 82-105: what runs
    once some waypoint lacks a time. *)
Definition backfill (h : store) (self : t) : store :=
  let total_duration_seconds :=
    total_seconds (end_time self - start_time self) in
  let total_path_distance := path_distance_from h 0%R (waypoints self) in
  let h1 :=
    if decide (total_path_distance = 0%R) then
      assign_evenly h 0 (length (waypoints self)) (waypoints self)
        (start_time self) total_duration_seconds
    else
      match waypoints self with
      | [] => h
      | first :: rest =>
          assign_by_distance (set_time h first (start_time self)) first rest
            0%R total_path_distance (start_time self) total_duration_seconds
      end in
  match last (waypoints self) with
  | Some l => set_time h1 l (end_time self)
  | None => h1
  end.

(** [Mission._assign_waypoint_times_if_needed] *)
Definition _assign_waypoint_times_if_needed (h : store) (self : t) : store :=
  if any_time_missing h (waypoints self) then backfill h self else h.

(** [Mission.__init__]: the checks in source order, then the back-fill.
    The [isinstance] checks are discharged by typing. *)
Definition __init__ (h : store) (drone_id : string) (waypoints : list loc)
    (start_time end_time : datetime) : outcome (store * t) :=
  if decide (drone_id = EmptyString) then Raise ValueError
  else if decide (length waypoints < 2)%nat then Raise ValueError
  else if decide (start_time >= end_time) then Raise ValueError
  else
    let self := mk drone_id waypoints start_time end_time in
    Ok (_assign_waypoint_times_if_needed h self, self).

(** [Mission.get_duration] *)
Definition get_duration (self : t) : timedelta :=
  end_time self - start_time self.

(** [Mission.get_path_length]: the loop of lines 114-116, the same sum as
    [total_path_distance]. *)
Definition get_path_length (h : store) (self : t) : R :=
  path_distance_from h 0%R (waypoints self).

(** [self.waypoints] as read in store [h]. *)
Definition read_waypoints (h : store) (self : t) : list Waypoint.t :=
  deref h (waypoints self).

End Mission.

Module Conflict.

Record t : Type := mk {
  location : Waypoint.t;
  time : datetime;
  conflicting_drone_ids : list string;
  description : string
}.

(** [sorted(list(set(ids)))]: the set is a [gset], its listing order is
    whatever the set gives, and sorting is by the code-point order of
    strings. *)
Definition sorted_unique (ids : list string) : list string :=
  merge_sort String.le (elements (list_to_set ids : gset string)).

(** [Conflict.__init__] *)
Definition __init__ (location : Waypoint.t) (time : datetime)
    (conflicting_drone_ids : list string) (description : string)
    : outcome t :=
  if decide (description = EmptyString) then Raise ValueError
  else Ok (mk location time (sorted_unique conflicting_drone_ids) description).

End Conflict.

(** ** trajectory_generation.py *)

(** A fresh waypoint at the coordinates of [w], stamped [tm]. *)
Definition stamped (w : Waypoint.t) (tm : datetime) : Waypoint.t :=
  Waypoint.mk (Waypoint.x w) (Waypoint.y w) (Waypoint.z w) (Some tm).

(** Linear interpolation of lines 70-72 and 166-168. *)
Definition lerp (wp1 wp2 : Waypoint.t) (alpha : R) (tm : datetime)
    : Waypoint.t :=
  Waypoint.mk
    (Waypoint.x wp1 + alpha * (Waypoint.x wp2 - Waypoint.x wp1))%R
    (Waypoint.y wp1 + alpha * (Waypoint.y wp2 - Waypoint.y wp1))%R
    (Waypoint.z wp1 + alpha * (Waypoint.z wp2 - Waypoint.z wp1))%R
    (Some tm).

(** The inner [while] of lines 47-49 (and 84-86): [rest] is
    [mission.waypoints[idx+1:]]. *)
Fixpoint advance_cursor (rest : list Waypoint.t) (idx : nat) (tm : datetime)
    : outcome nat :=
  match rest with
  | [] => Ok idx
  | w :: rest' =>
      tw ← Waypoint.get_time w;
      if decide (tw <= tm) then advance_cursor rest' (S idx) tm else Ok idx
  end.

(** The sample appended at cursor [idx] for time [tm]: lines 51-74, and
    again lines 88-103 for the closing sample. *)
Definition sample_at (ws : list Waypoint.t) (idx : nat) (tm : datetime)
    : outcome Waypoint.t :=
  match ws !! idx with
  | None => Raise IndexError
  | Some wp1 =>
      if decide (idx = (length ws - 1)%nat) then Ok (stamped wp1 tm)
      else
        match ws !! S idx with
        | None => Raise IndexError
        | Some wp2 =>
            t2 ← Waypoint.get_time wp2;
            t1 ← Waypoint.get_time wp1;
            let segment_duration := total_seconds (t2 - t1) in
            if decide (segment_duration <= 0)%R then Ok (stamped wp2 tm)
            else
              let time_into_segment := total_seconds (tm - t1) in
              let alpha := (time_into_segment / segment_duration)%R in
              Ok (lerp wp1 wp2 alpha tm)
        end
  end.

(** The main [while current_time <= mission.end_time] loop, lines 44-76. *)
Fixpoint sample_loop (fuel : nat) (ws : list Waypoint.t) (idx : nat)
    (current_time end_time : datetime) (step : timedelta)
    (path : list Waypoint.t) : outcome (list Waypoint.t) :=
  if decide (current_time <= end_time) then
    match fuel with
    | O => OutOfFuel
    | S fuel' =>
        idx' ← advance_cursor (drop (S idx) ws) idx current_time;
        s ← sample_at ws idx' current_time;
        sample_loop fuel' ws idx' (current_time + step) end_time step
          (path ++ [s])
    end
  else Ok path.

(** The loop of the single-waypoint branch, lines 27-32. *)
Fixpoint static_loop (fuel : nat) (wp0 : Waypoint.t)
    (current_time end_time : datetime) (step : timedelta)
    (path : list Waypoint.t) : outcome (list Waypoint.t) :=
  if decide (current_time <= end_time) then
    match fuel with
    | O => OutOfFuel
    | S fuel' =>
        static_loop fuel' wp0 (current_time + step) end_time step
          (path ++ [stamped wp0 current_time])
    end
  else Ok path.

(** [not interpolated_path or interpolated_path[-1].time < mission.end_time] *)
Definition needs_final (path : list Waypoint.t) (end_time : datetime)
    : outcome bool :=
  match last path with
  | None => Ok true
  | Some w => tw ← Waypoint.get_time w; Ok (bool_decide (tw < end_time))
  end.

(** [interpolate_trajectory] *)
Definition interpolate_trajectory (fuel : nat) (h : store)
    (mission : Mission.t) (time_step_seconds : R)
    : outcome (list Waypoint.t) :=
  if decide (time_step_seconds <= 0)%R then Raise ValueError
  else
    let ws := Mission.read_waypoints h mission in
    let step := timedelta_seconds time_step_seconds in
    if decide (length ws < 2)%nat then
      match ws with
      | [] => Ok []
      | wp0 :: _ =>
          path ← static_loop fuel wp0 (Mission.start_time mission)
                   (Mission.end_time mission) step [];
          nf ← needs_final path (Mission.end_time mission);
          if (nf : bool)
          then Ok (path ++ [stamped wp0 (Mission.end_time mission)])
          else Ok path
      end
    else
      path ← sample_loop fuel ws 0 (Mission.start_time mission)
               (Mission.end_time mission) step [];
      nf ← needs_final path (Mission.end_time mission);
      if (nf : bool) then
        final_wp1_idx ← advance_cursor (drop 1 ws) 0 (Mission.end_time mission);
        s ← sample_at ws final_wp1_idx (Mission.end_time mission);
        Ok (path ++ [s])
      else Ok path.

(** The [for] loop of lines 132-136 with its [break]: the first pair of
    consecutive waypoints whose times bound [query_time]. *)
Fixpoint find_segment (ws : list Waypoint.t) (query_time : datetime)
    : outcome (option (Waypoint.t * Waypoint.t)) :=
  match ws with
  | a :: (b :: _) as tl =>
      ta ← Waypoint.get_time a;
      if decide (ta <= query_time) then
        tb ← Waypoint.get_time b;
        if decide (query_time <= tb) then Ok (Some (a, b))
        else find_segment tl query_time
      else find_segment tl query_time
  | _ => Ok None
  end.

(** [get_position_at_time] *)
Definition get_position_at_time (h : store) (mission : Mission.t)
    (query_time : datetime) : outcome (option Waypoint.t) :=
  if negb (bool_decide (Mission.start_time mission <= query_time)
           && bool_decide (query_time <= Mission.end_time mission))
  then Ok None
  else
    match Mission.read_waypoints h mission with
    | [] => Raise IndexError
    | (first :: _) as ws =>
        seg ← find_segment ws query_time;
        let last_wp := default first (last ws) in
        if decide (Waypoint.time last_wp = Some query_time)
        then Ok (Some last_wp)
        else if decide (Waypoint.time first = Some query_time)
        then Ok (Some first)
        else
          match seg with
          | None => Ok (Some last_wp)
          | Some (wp1, wp2) =>
              t2 ← Waypoint.get_time wp2;
              t1 ← Waypoint.get_time wp1;
              let segment_duration := total_seconds (t2 - t1) in
              if decide (segment_duration <= 0)%R then Ok (Some wp1)
              else
                let time_into_segment := total_seconds (query_time - t1) in
                let alpha := (time_into_segment / segment_duration)%R in
                Ok (Some (lerp wp1 wp2 alpha query_time))
          end
    end.

(** ** spatial_check.py *)

(** [calculate_distance] *)
Definition calculate_distance (wp1 wp2 : Waypoint.t) : R :=
  let dx := (Waypoint.x wp1 - Waypoint.x wp2)%R in
  let dy := (Waypoint.y wp1 - Waypoint.y wp2)%R in
  let dz := (Waypoint.z wp1 - Waypoint.z wp2)%R in
  sqrt (dx ^ 2 + dy ^ 2 + dz ^ 2).

(** The inner [for s_wp in simulated_trajectory] loop, lines 41-53. *)
Fixpoint scan_row (p_wp : Waypoint.t) (simulated_trajectory : list Waypoint.t)
    (safety_buffer : R) (acc : list (Waypoint.t * Waypoint.t))
    : outcome (list (Waypoint.t * Waypoint.t)) :=
  match simulated_trajectory with
  | [] => Ok acc
  | s_wp :: rest =>
      tp ← Waypoint.get_time p_wp;
      ts ← Waypoint.get_time s_wp;
      let time_diff := Rabs (total_seconds (tp - ts)) in
      let acc' :=
        if decide (time_diff < safety_buffer * 2)%R then
          let distance := calculate_distance p_wp s_wp in
          if decide (distance < safety_buffer)%R
          then acc ++ [(p_wp, s_wp)] else acc
        else acc in
      scan_row p_wp rest safety_buffer acc'
  end.

(** The outer [for p_wp in primary_trajectory] loop. *)
Fixpoint scan (primary_trajectory simulated_trajectory : list Waypoint.t)
    (safety_buffer : R) (acc : list (Waypoint.t * Waypoint.t))
    : outcome (list (Waypoint.t * Waypoint.t)) :=
  match primary_trajectory with
  | [] => Ok acc
  | p_wp :: rest =>
      acc' ← scan_row p_wp simulated_trajectory safety_buffer acc;
      scan rest simulated_trajectory safety_buffer acc'
  end.

(** [check_spatial_proximity] *)
Definition check_spatial_proximity (primary_mission_id : string)
    (primary_trajectory : list Waypoint.t) (simulated_mission_id : string)
    (simulated_trajectory : list Waypoint.t) (safety_buffer : R)
    : outcome (list (Waypoint.t * Waypoint.t)) :=
  if decide (safety_buffer <= 0)%R then Raise ValueError
  else scan primary_trajectory simulated_trajectory safety_buffer [].

(** ** temporal_check.py *)

(** The two renderings the conflict description embeds: the [repr] of
    [Waypoint.to_tuple(include_time=False)] and [strftime('%H:%M:%S')].
    Printing of numbers and calendar times is left open. *)
Class Rendering : Type := {
  repr_tuple : Waypoint.t -> string;
  strftime_HMS : datetime -> string
}.

Section with_rendering.
Context {rendering : Rendering}.

(** The f-string of lines 79-81. *)
Definition describe (primary_id simulated_id : string)
    (conflict_location : Waypoint.t) (tm : datetime) : string :=
  ("Spatio-temporal conflict between " +:+ primary_id +:+ " and "
   +:+ simulated_id +:+ " at " +:+ repr_tuple conflict_location
   +:+ " at " +:+ strftime_HMS tm +:+ ".")%string.

(** The midpoint of lines 72-77. *)
Definition midpoint (pos_primary pos_simulated : Waypoint.t)
    (tm : datetime) : Waypoint.t :=
  Waypoint.mk
    ((Waypoint.x pos_primary + Waypoint.x pos_simulated) / 2)%R
    ((Waypoint.y pos_primary + Waypoint.y pos_simulated) / 2)%R
    ((Waypoint.z pos_primary + Waypoint.z pos_simulated) / 2)%R
    (Some tm).

(** The [while] loop of lines 60-84; [limit] is
    [min(check_time_end, primary.end_time, simulated.end_time)]. *)
Fixpoint check_loop (fuel : nat) (h : store)
    (primary_mission simulated_mission : Mission.t) (safety_buffer : R)
    (current_check_time limit : datetime) : outcome (option Conflict.t) :=
  if decide (current_check_time <= limit) then
    match fuel with
    | O => OutOfFuel
    | S fuel' =>
        pos_primary ← get_position_at_time h primary_mission current_check_time;
        pos_simulated ←
          get_position_at_time h simulated_mission current_check_time;
        match pos_primary, pos_simulated with
        | Some pp, Some ps =>
            let distance_at_time := calculate_distance pp ps in
            if decide (distance_at_time < safety_buffer)%R then
              let conflict_location := midpoint pp ps current_check_time in
              let conflicting_ids :=
                [Mission.drone_id primary_mission;
                 Mission.drone_id simulated_mission] in
              let description :=
                describe (Mission.drone_id primary_mission)
                  (Mission.drone_id simulated_mission)
                  conflict_location current_check_time in
              c ← Conflict.__init__ conflict_location current_check_time
                    conflicting_ids description;
              Ok (Some c)
            else
              check_loop fuel' h primary_mission simulated_mission
                safety_buffer (current_check_time + 1 * us_per_second) limit
        | _, _ =>
            check_loop fuel' h primary_mission simulated_mission
              safety_buffer (current_check_time + 1 * us_per_second) limit
        end
    end
  else Ok None.

(** [check_temporal_overlap_at_location] *)
Definition check_temporal_overlap_at_location (fuel : nat) (h : store)
    (primary_mission simulated_mission : Mission.t)
    (potential_conflict_point_primary
     potential_conflict_point_simulated : Waypoint.t)
    (safety_buffer : R) (time_proximity_threshold : timedelta)
    : outcome (option Conflict.t) :=
  if decide (safety_buffer <= 0)%R then Raise ValueError
  else if decide (total_seconds time_proximity_threshold < 0)%R
  then Raise ValueError
  else
    tp ← Waypoint.get_time potential_conflict_point_primary;
    let check_time_start := tp - time_proximity_threshold in
    let check_time_end := tp + time_proximity_threshold in
    let current_check_time :=
      Z.max (Z.max check_time_start (Mission.start_time primary_mission))
            (Mission.start_time simulated_mission) in
    let limit :=
      Z.min (Z.min check_time_end (Mission.end_time primary_mission))
            (Mission.end_time simulated_mission) in
    check_loop fuel h primary_mission simulated_mission safety_buffer
      current_check_time limit.

(** The default [time_proximity_threshold], [timedelta(seconds=5)]. *)
Definition default_threshold : timedelta := 5 * us_per_second.

(** ** deconfliction_system.py *)

Record DeconflictionSystem : Type := mkSystem {
  simulated_missions : list Mission.t;
  safety_buffer : R;
  _pre_interpolated_simulated_trajectories : gmap string (list Waypoint.t)
}.

(** The value returned by [verify_mission]. *)
Record verdict : Type := mkVerdict {
  status : string;
  conflict_details : list Conflict.t
}.

(** The dict comprehension of lines 23-25: later missions overwrite the
    entry of an earlier one with the same [drone_id]. *)
Fixpoint pre_interpolate (fuel : nat) (h : store) (ms : list Mission.t)
    (cache : gmap string (list Waypoint.t))
    : outcome (gmap string (list Waypoint.t)) :=
  match ms with
  | [] => Ok cache
  | m :: rest =>
      traj ← interpolate_trajectory fuel h m 1;
      pre_interpolate fuel h rest (<[Mission.drone_id m := traj]> cache)
  end.

(** [DeconflictionSystem.__init__] *)
Definition DeconflictionSystem_init (fuel : nat) (h : store)
    (simulated_missions : list Mission.t) (safety_buffer : R)
    : outcome DeconflictionSystem :=
  if decide (safety_buffer <= 0)%R then Raise ValueError
  else
    cache ← pre_interpolate fuel h simulated_missions ∅;
    Ok (mkSystem simulated_missions safety_buffer cache).

(** The loop of lines 62-70 over the candidate pairs of one mission. *)
Fixpoint refine_all (fuel : nat) (h : store)
    (primary_mission simulated_mission : Mission.t) (buffer : R)
    (overlaps : list (Waypoint.t * Waypoint.t))
    (detected_conflicts : list Conflict.t) : outcome (list Conflict.t) :=
  match overlaps with
  | [] => Ok detected_conflicts
  | (p_wp_potential, s_wp_potential) :: rest =>
      conflict ← check_temporal_overlap_at_location fuel h primary_mission
                   simulated_mission p_wp_potential s_wp_potential buffer
                   default_threshold;
      refine_all fuel h primary_mission simulated_mission buffer rest
        (match conflict with
         | Some c => detected_conflicts ++ [c]
         | None => detected_conflicts
         end)
  end.

(** The loop of lines 49-70 over [self.simulated_missions]. *)
Fixpoint verify_loop (fuel : nat) (h : store) (self : DeconflictionSystem)
    (primary_mission : Mission.t) (primary_trajectory : list Waypoint.t)
    (ms : list Mission.t) (detected_conflicts : list Conflict.t)
    : outcome (list Conflict.t) :=
  match ms with
  | [] => Ok detected_conflicts
  | simulated_mission :: rest =>
      match _pre_interpolated_simulated_trajectories self
              !! Mission.drone_id simulated_mission with
      | None => Raise KeyError
      | Some simulated_trajectory =>
          potential_spatial_overlaps ←
            check_spatial_proximity (Mission.drone_id primary_mission)
              primary_trajectory (Mission.drone_id simulated_mission)
              simulated_trajectory (safety_buffer self);
          detected ← refine_all fuel h primary_mission simulated_mission
                       (safety_buffer self) potential_spatial_overlaps
                       detected_conflicts;
          verify_loop fuel h self primary_mission primary_trajectory rest
            detected
      end
  end.

(** [DeconflictionSystem.verify_mission] *)
Definition verify_mission (fuel : nat) (h : store)
    (self : DeconflictionSystem) (primary_mission : Mission.t)
    : outcome verdict :=
  primary_trajectory ← interpolate_trajectory fuel h primary_mission 1;
  detected_conflicts ←
    verify_loop fuel h self primary_mission primary_trajectory
      (simulated_missions self) [];
  match detected_conflicts with
  | _ :: _ => Ok (mkVerdict "conflict detected" detected_conflicts)
  | [] => Ok (mkVerdict "clear" [])
  end.

End with_rendering.

(** ** Vocabulary of the statements *)

(** Every waypoint of the list carries a time. *)
Definition timed (ws : list Waypoint.t) : Prop :=
  Forall (fun w => is_Some (Waypoint.time w)) ws.

(** What [Mission.__init__] checks and establishes, read in store [h]. *)
Definition accepted (h : store) (m : Mission.t) : Prop :=
  Mission.drone_id m <> EmptyString /\
  (2 <= length (Mission.waypoints m))%nat /\
  Mission.start_time m < Mission.end_time m /\
  timed (Mission.read_waypoints h m).

(** The times of a list of waypoints are exactly [ts]. *)
Definition times_are (ws : list Waypoint.t) (ts : list datetime) : Prop :=
  Waypoint.time <$> ws = Some <$> ts.

(** Strictly ascending in the code-point order: sorted and duplicate-free. *)
Definition ascending_unique (ids : list string) : Prop :=
  StronglySorted String.le ids /\ NoDup ids.

(** Samples stamped no later than [end_]. *)
Definition stamped_upto (end_ : datetime) (path : list Waypoint.t) : Prop :=
  Forall (fun s => exists tm, Waypoint.time s = Some tm /\ tm <= end_) path.

(** Iterations that cover the window from [start] to [end_] in steps of
    [step] microseconds. *)
Definition enough_fuel (start end_ : datetime) (step : timedelta) : nat :=
  Z.to_nat ((end_ - start) / step + 1).

(** Fuel that suffices for the default one-second sampling of every
    mission of [ms] and for every run of the Refiner's search, which
    visits at most eleven instants. *)
Definition fuel_for (ms : list Mission.t) : nat :=
  foldr (fun m acc =>
           Nat.max (enough_fuel (Mission.start_time m) (Mission.end_time m)
                      us_per_second) acc)
        11%nat ms.

(** The Scanner's test on a pair of samples: their times are less than
    [buffer * 2] seconds apart and their distance is below [buffer]. *)
Definition candidate (buffer : R) (a b : Waypoint.t) : Prop :=
  (exists ta tb, Waypoint.time a = Some ta /\ Waypoint.time b = Some tb /\
                 (Rabs (total_seconds (ta - tb)) < buffer * 2)%R) /\
  (calculate_distance a b < buffer)%R.

(** Both missions have a position at [tm], [pp] and [ps], and the two are
    closer than [buffer]. *)
Definition breach (h : store) (pm sm : Mission.t) (buffer : R)
    (tm : datetime) (pp ps : Waypoint.t) : Prop :=
  get_position_at_time h pm tm = Ok (Some pp) /\
  get_position_at_time h sm tm = Ok (Some ps) /\
  (calculate_distance pp ps < buffer)%R.

(** The cache holds a timed trajectory for every mission of [ms]. *)
Definition cache_covers (cache : gmap string (list Waypoint.t))
    (ms : list Mission.t) : Prop :=
  Forall (fun m => exists traj, cache !! Mission.drone_id m = Some traj /\
                                timed traj) ms.

Section refiner_vocabulary.
Context {rendering : Rendering}.

(** The Conflict the Refiner reports for a breach at [tm]. *)
Definition conflict_at (pm sm : Mission.t) (tm : datetime)
    (pp ps : Waypoint.t) : Conflict.t :=
  Conflict.mk (midpoint pp ps tm) tm
    (Conflict.sorted_unique [Mission.drone_id pm; Mission.drone_id sm])
    (describe (Mission.drone_id pm) (Mission.drone_id sm)
       (midpoint pp ps tm) tm).

(** What a search of the one-second grid from [lo] up to [hi] returns: the
    conflict of the first breaching instant, or nothing when no instant of
    the grid breaches. *)
Definition first_breach (h : store) (pm sm : Mission.t) (buffer : R)
    (lo hi : datetime) (r : option Conflict.t) : Prop :=
  match r with
  | Some c =>
      exists (k : Z) (pp ps : Waypoint.t),
        0 <= k /\ lo + k * us_per_second <= hi /\
        breach h pm sm buffer (lo + k * us_per_second) pp ps /\
        (forall j pp' ps', 0 <= j < k ->
           ~ breach h pm sm buffer (lo + j * us_per_second) pp' ps') /\
        c = conflict_at pm sm (lo + k * us_per_second) pp ps
  | None =>
      forall k pp ps, 0 <= k -> lo + k * us_per_second <= hi ->
        ~ breach h pm sm buffer (lo + k * us_per_second) pp ps
  end.

End refiner_vocabulary.

(** ** Example missions *)

(** The mission of the test suite's [setUp]: from (0,0) at [t0] to (100,0)
    five minutes later, both times supplied. *)
Definition line_store (t0 : datetime) : store :=
  {[ 1%positive := Waypoint.mk 0 0 0 (Some t0);
     2%positive := Waypoint.mk 100 0 0 (Some (t0 + 300 * us_per_second)) ]}.

Definition line_mission (t0 : datetime) : Mission.t :=
  Mission.mk "DRONE_2D" [1%positive; 2%positive] t0
    (t0 + 300 * us_per_second).

(** ** Vocabulary of the proofs and example missions *)

(** The coordinates of a waypoint, which no operation writes. *)
Definition coords (w : Waypoint.t) : R * R * R :=
  (Waypoint.x w, Waypoint.y w, Waypoint.z w).

(** Two stores hold the same coordinates at every object. *)
Definition same_coords (h1 h2 : store) : Prop :=
  forall l : loc, coords (h1 !!! l) = coords (h2 !!! l).

(** Two stores hold the same waypoint at every object of [ls]. *)
Definition agree_on (ls : list loc) (h1 h2 : store) : Prop :=
  forall l : loc, l ∈ ls -> h1 !!! l = h2 !!! l.

(** The times the distance-proportional loop assigns to [rest], in order. *)
Fixpoint times_by_distance (h : store) (prev : loc) (rest : list loc)
    (cur total : R) (start : datetime) (T : R) : list datetime :=
  match rest with
  | [] => []
  | l :: rest' =>
      let cur' := (cur + Waypoint.distance_to (h !!! prev) (h !!! l))%R in
      (start + timedelta_seconds (T * (cur' / total)))
      :: times_by_distance h l rest' cur' total start T
  end.

(** The times the even loop assigns to [refs], in order, from index [i]. *)
Fixpoint times_evenly (i n : nat) (refs : list loc) (start : datetime)
    (T : R) : list datetime :=
  match refs with
  | [] => []
  | _ :: rest =>
      (start + timedelta_seconds
                 (T * (if decide (1 < n)%nat
                       then (INR i / INR (n - 1))%R else 0%R)))
      :: times_evenly (S i) n rest start T
  end.

(** Waypoint times [ts] fill the window from [start] to [end_] in order. *)
Definition spans (start end_ : datetime) (ts : list datetime) : Prop :=
  Forall (fun tm => start <= tm <= end_) ts /\ Sorted Z.le ts /\
  head ts = Some start /\ last ts = Some end_.

(** Two waypoints stamped after the mission window [0, 300 s] has closed:
    (0,0) at 400 s and (100,0) at 500 s. *)
Definition stray_store : store :=
  {[ 1%positive := Waypoint.mk 0 0 0 (Some (400 * us_per_second));
     2%positive := Waypoint.mk 100 0 0 (Some (500 * us_per_second)) ]}.

Definition stray_mission : Mission.t :=
  Mission.mk "STRAY" [1%positive; 2%positive] 0 (300 * us_per_second).

(** The test suite's mission without times: (0,0) and (200,0), ten
    minutes. *)
Definition untimed_store : store :=
  {[ 1%positive := Waypoint.mk 0 0 0 None;
     2%positive := Waypoint.mk 200 0 0 None ]}.

Definition untimed_mission : Mission.t :=
  Mission.mk "DRONE_NO_TIMES" [1%positive; 2%positive] 0
    (600 * us_per_second).

(** A jump inside a mission: (0,0,0) at [t0], then (100,0,0) and (200,0,0)
    both thirty seconds later, then (300,0,0) at one minute. *)
Definition inner_jump_store (t0 : datetime) : store :=
  {[ 1%positive := Waypoint.mk 0 0 0 (Some t0);
     2%positive := Waypoint.mk 100 0 0 (Some (t0 + 30 * us_per_second));
     3%positive := Waypoint.mk 200 0 0 (Some (t0 + 30 * us_per_second));
     4%positive := Waypoint.mk 300 0 0 (Some (t0 + 60 * us_per_second)) ]}.

Definition inner_jump_mission (t0 : datetime) : Mission.t :=
  Mission.mk "JumpDrone" [1%positive; 2%positive; 3%positive; 4%positive]
    t0 (t0 + 60 * us_per_second).

(** One waypoint object without a time, listed twice by a mission. *)
Definition shared_store : store :=
  {[ 1%positive := Waypoint.mk 0 0 0 None ]}.

Definition shared_mission : Mission.t :=
  Mission.mk "SHARED" [1%positive; 1%positive] 0 (600 * us_per_second).

(** Supplied times that step back: (0,0,0) at 5 s, then (100,0,0) and
    (200,0,0) both at 2 s, then (300,0,0) at 9 s, in a window [0, 10 s]. *)
Definition backtrack_store : store :=
  {[ 1%positive := Waypoint.mk 0 0 0 (Some (5 * us_per_second));
     2%positive := Waypoint.mk 100 0 0 (Some (2 * us_per_second));
     3%positive := Waypoint.mk 200 0 0 (Some (2 * us_per_second));
     4%positive := Waypoint.mk 300 0 0 (Some (9 * us_per_second)) ]}.

Definition backtrack_mission : Mission.t :=
  Mission.mk "BACKTRACK" [1%positive; 2%positive; 3%positive; 4%positive] 0
    (10 * us_per_second).

(** A rendering that prints nothing, for the examples. *)
Definition silent_rendering : Rendering :=
  {| repr_tuple := fun _ => EmptyString; strftime_HMS := fun _ => EmptyString |}.

(** The times the assignment loop of the back-fill computes for the
    waypoints of [m], before the last waypoint is pinned to end_time. *)
Definition loop_times (h : store) (m : Mission.t) : list datetime :=
  let T := total_seconds (Mission.end_time m - Mission.start_time m) in
  let total := Mission.path_distance_from h 0%R (Mission.waypoints m) in
  if decide (total = 0%R) then
    times_evenly 0 (length (Mission.waypoints m)) (Mission.waypoints m)
      (Mission.start_time m) T
  else
    match Mission.waypoints m with
    | [] => []
    | first :: rest =>
        Mission.start_time m
        :: times_by_distance h first rest 0%R total (Mission.start_time m) T
    end.

(** The first [n] instants of the grid that starts at [cur] with spacing
    [step]. *)
Definition grid (cur : datetime) (step : timedelta) (n : nat)
    : list datetime :=
  (fun k : nat => cur + Z.of_nat k * step) <$> seq 0 n.

(** The point [c1 + a (c2 - c1)] of coordinate space. *)
Definition blend (c1 c2 : R * R * R) (a : R) : R * R * R :=
  ((c1.1.1 + a * (c2.1.1 - c1.1.1))%R,
   (c1.1.2 + a * (c2.1.2 - c1.1.2))%R,
   (c1.2 + a * (c2.2 - c1.2))%R).

(** A set of coordinates that contains the whole line through any two of
    its points. *)
Definition affine_set (P : R * R * R -> Prop) : Prop :=
  forall c1 c2 a, P c1 -> P c2 -> P (blend c1 c2 a).

(** A set of coordinates that contains the segment between any two of its
    points. *)
Definition convex_set (P : R * R * R -> Prop) : Prop :=
  forall c1 c2 a, (0 <= a <= 1)%R -> P c1 -> P c2 -> P (blend c1 c2 a).

(** Every waypoint of the list has its coordinates in [P]. *)
Definition all_in (P : R * R * R -> Prop) (ws : list Waypoint.t) : Prop :=
  Forall (fun w => P (coords w)) ws.

(** One of the three coordinate axes. *)
Inductive axis : Type := X_axis | Y_axis | Z_axis.

(** The coordinate of a point along an axis. *)
Definition coordinate (ax : axis) (p : R * R * R) : R :=
  match ax with
  | X_axis => p.1.1
  | Y_axis => p.1.2
  | Z_axis => p.2
  end.

(** The two tests of lines 45-51 on a pair of timed samples. *)
Definition candidate_test (buffer : R) (ab : Waypoint.t * Waypoint.t)
    : bool :=
  match Waypoint.time ab.1, Waypoint.time ab.2 with
  | Some tp, Some ts =>
      bool_decide (Rabs (total_seconds (tp - ts)) < buffer * 2)%R
      && bool_decide (calculate_distance ab.1 ab.2 < buffer)%R
  | _, _ => false
  end.

(** Two samples five units apart at the same instant, for the examples. *)
Definition origin_sample : Waypoint.t := Waypoint.mk 0 0 0 (Some 0).

Definition near_sample : Waypoint.t := Waypoint.mk 3 4 0 (Some 0).

(** Two missions that can never be in conflict: their active windows do not
    meet, or they are flown at fixed levels of some coordinate (all
    waypoints of the one have the value [c1] there, all waypoints of the
    other the value [c2]) that are at least [buffer] apart. *)
Definition kept_apart (h : store) (pm sm : Mission.t) (buffer : R) : Prop :=
  Mission.end_time sm < Mission.start_time pm \/
  Mission.end_time pm < Mission.start_time sm \/
  exists ax c1 c2,
    Forall (fun w => coordinate ax (coords w) = c1)
      (Mission.read_waypoints h pm) /\
    Forall (fun w => coordinate ax (coords w) = c2)
      (Mission.read_waypoints h sm) /\
    (buffer <= Rabs (c1 - c2))%R.

(** The last mission of [ms] whose drone id is [id]. *)
Definition last_with_id (id : string) (ms : list Mission.t)
    : option Mission.t :=
  last (filter (fun m => Mission.drone_id m = id) ms).

(** [c] is what the Refiner reports for a breach between [pm] and [sm] at
    the time [c] carries, which lies in both active windows. *)
Definition real_conflict {rendering : Rendering} (h : store)
    (pm sm : Mission.t) (buffer : R) (c : Conflict.t) : Prop :=
  Mission.start_time pm <= Conflict.time c <= Mission.end_time pm /\
  Mission.start_time sm <= Conflict.time c <= Mission.end_time sm /\
  exists pp ps,
    breach h pm sm buffer (Conflict.time c) pp ps /\
    c = conflict_at pm sm (Conflict.time c) pp ps.

(** Two five-minute flights along the same ground track, one at ground
    level and one fifty metres above it. *)
Definition level_store : store :=
  {[ 1%positive := Waypoint.mk 0 0 0 (Some 0);
     2%positive := Waypoint.mk 100 0 0 (Some (300 * us_per_second));
     3%positive := Waypoint.mk 0 0 50 (Some 0);
     4%positive := Waypoint.mk 100 0 50 (Some (300 * us_per_second)) ]}.

Definition low_mission : Mission.t :=
  Mission.mk "LOW" [1%positive; 2%positive] 0 (300 * us_per_second).

Definition high_mission : Mission.t :=
  Mission.mk "HIGH" [3%positive; 4%positive] 0 (300 * us_per_second).

(** Two results of the Refiner that agree up to the description text. *)
Definition same_finding (r r' : outcome (option Conflict.t)) : Prop :=
  match r, r' with
  | Ok None, Ok None => True
  | Ok (Some c), Ok (Some c') =>
      Conflict.time c = Conflict.time c' /\
      Conflict.location c = Conflict.location c' /\
      Conflict.conflicting_drone_ids c = Conflict.conflicting_drone_ids c'
  | Raise e, Raise e' => e = e'
  | OutOfFuel, OutOfFuel => True
  | _, _ => False
  end.

(** Every waypoint carries a time, and the times strictly increase along
    the list. *)
Definition increasing (ws : list Waypoint.t) : Prop :=
  exists ts, times_are ws ts /\ StronglySorted Z.lt ts.

(** [tm] is the time of a waypoint of [ws] other than the first and the
    last. *)
Definition inner_waypoint_time (ws : list Waypoint.t) (tm : datetime)
    : Prop :=
  exists i w, (0 < i < length ws - 1)%nat /\ ws !! i = Some w /\
              Waypoint.time w = Some tm.

(** The sample [s] carries a time; it has the coordinates of every
    waypoint of [m] that carries the same time; and unless that is the time
    of an inner waypoint, the position query on [m] at that time returns a
    waypoint with the coordinates of [s]. *)
Definition sample_matches_query (h : store) (m : Mission.t)
    (s : Waypoint.t) : Prop :=
  exists tm,
    Waypoint.time s = Some tm /\
    (forall w, w ∈ Mission.read_waypoints h m ->
               Waypoint.time w = Some tm -> coords s = coords w) /\
    (~ inner_waypoint_time (Mission.read_waypoints h m) tm ->
     exists w, get_position_at_time h m tm = Ok (Some w) /\
               coords w = coords s).

(** * Properties *)

(** ** Rounding and time arithmetic *)
Lemma round_half_even_IZR (k : Z) : round_half_even (IZR k) = k.
Proof.
  unfold round_half_even. rewrite ZfloorZ.
  rewrite decide_True by lra. reflexivity.
Qed.

Lemma round_half_even_bounds (r : R) :
  (IZR (round_half_even r) - 1 / 2 <= r <= IZR (round_half_even r) + 1 / 2)%R.
Proof.
  unfold round_half_even.
  pose proof (Zfloor_bound r) as [Hlo Hhi].
  repeat case_decide; try destruct (Z.even _); rewrite ?plus_IZR; lra.
Qed.

Lemma round_half_even_mono (r s : R) :
  (r <= s)%R -> round_half_even r <= round_half_even s.
Proof.
  intros Hrs.
  pose proof (Zfloor_le r s Hrs) as Hfl.
  pose proof (Zfloor_bound r) as [Hr1 Hr2].
  pose proof (Zfloor_bound s) as [Hs1 Hs2].
  destruct (decide (Zfloor r = Zfloor s)) as [Heq | Hne].
  - unfold round_half_even. rewrite Heq in *.
    repeat case_decide; try destruct (Z.even _); try lia; lra.
  - assert (Zfloor r + 1 <= Zfloor s) as Hlt by lia.
    apply Z.le_trans with (Zfloor r + 1).
    + unfold round_half_even.
      repeat case_decide; try destruct (Z.even _); lia.
    + apply Z.le_trans with (Zfloor s); [lia|].
      unfold round_half_even.
      repeat case_decide; try destruct (Z.even _); lia.
Qed.

Lemma round_half_even_small (r : R) :
  (0 <= r <= 1 / 2)%R -> round_half_even r = 0.
Proof.
  intros [H0 H1]. unfold round_half_even.
  assert (Zfloor r = 0) as -> by (apply Zfloor_eq; simpl; lra).
  simpl. repeat case_decide; try reflexivity; lra.
Qed.

Lemma timedelta_seconds_total_seconds (d : Z) :
  timedelta_seconds (total_seconds d) = d.
Proof.
  unfold timedelta_seconds, total_seconds, us_per_second.
  replace (IZR d / 1000000 * 1000000)%R with (IZR d) by (field).
  apply round_half_even_IZR.
Qed.

(** ** Conflict ids *)

Lemma sorted_unique_elem_of (ids : list string) (s : string) :
  s ∈ Conflict.sorted_unique ids <-> s ∈ ids.
Proof.
  unfold Conflict.sorted_unique.
  rewrite merge_sort_Permutation, elem_of_elements, elem_of_list_to_set.
  reflexivity.
Qed.

Lemma sorted_unique_ascending (ids : list string) :
  ascending_unique (Conflict.sorted_unique ids).
Proof.
  split.
  - apply StronglySorted_merge_sort; apply _.
  - unfold Conflict.sorted_unique.
    rewrite merge_sort_Permutation. apply NoDup_elements.
Qed.

Lemma Conflict_init_ids location tm ids description c :
  Conflict.__init__ location tm ids description = Ok c ->
  Conflict.conflicting_drone_ids c = Conflict.sorted_unique ids /\
  Conflict.location c = location /\ Conflict.time c = tm /\
  Conflict.description c = description.
Proof.
  unfold Conflict.__init__. case_decide; [discriminate|].
  intros [= <-]. simpl. auto.
Qed.

Example sorted_unique_example : Conflict.sorted_unique ["b"; "a"; "b"]%string = ["a"; "b"]%string.
Proof. vm_compute. reflexivity. Qed.

(** ** Position queries *)

Ltac bind_step := cbn [mbind outcome_bind mret outcome_ret].

Lemma get_time_Ok (w : Waypoint.t) (tm : Z) :
  Waypoint.time w = Some tm -> Waypoint.get_time w = Ok tm.
Proof. unfold Waypoint.get_time. intros ->. reflexivity. Qed.

Lemma timed_cons_inv (w : Waypoint.t) (ws : list Waypoint.t) :
  timed (w :: ws) -> (exists tm, Waypoint.time w = Some tm) /\ timed ws.
Proof.
  intros H. apply Forall_cons in H as [[tm Htm] Hws]. eauto.
Qed.

Lemma timed_lookup (ws : list Waypoint.t) (i : nat) (w : Waypoint.t) :
  timed ws -> ws !! i = Some w -> exists tm, Waypoint.time w = Some tm.
Proof.
  intros H Hi. eapply Forall_lookup_1 in H as [tm Htm]; eauto.
Qed.

Lemma total_seconds_le_0 (d : Z) : (total_seconds d <= 0)%R <-> d <= 0.
Proof.
  unfold total_seconds, us_per_second. split; intros H.
  - apply le_IZR. 
    assert (IZR d / 1000000 * 1000000 <= 0 * 1000000)%R as H'
      by (apply Rmult_le_compat_r; lra).
    replace (IZR d / 1000000 * 1000000)%R with (IZR d) in H' by field. lra.
  - apply IZR_le in H. 
    assert (IZR d * / 1000000 <= 0 * / 1000000)%R
      by (apply Rmult_le_compat_r; lra).
    unfold Rdiv. lra.
Qed.

Lemma find_segment_cons2 (a b : Waypoint.t) (ws : list Waypoint.t) (q : Z) :
  find_segment (a :: b :: ws) q =
  ta ← Waypoint.get_time a;
  if decide (ta <= q) then
    tb ← Waypoint.get_time b;
    if decide (q <= tb) then Ok (Some (a, b))
    else find_segment (b :: ws) q
  else find_segment (b :: ws) q.
Proof. reflexivity. Qed.

Lemma find_segment_timed (ws : list Waypoint.t) (q : Z) :
  timed ws ->
  exists r, find_segment ws q = Ok r /\
    match r with
    | Some (a, b) =>
        exists ta tb, Waypoint.time a = Some ta /\ Waypoint.time b = Some tb /\
                      ta <= q <= tb
    | None => True
    end.
Proof.
  induction ws as [|a ws IH]; intros Ht; [exists None; auto|].
  destruct ws as [|b ws']; [exists None; auto|].
  apply timed_cons_inv in Ht as [[ta Hta] Hws].
  pose proof Hws as Hws'.
  apply timed_cons_inv in Hws' as [[tb Htb] _].
  rewrite find_segment_cons2.
  rewrite (get_time_Ok a ta Hta). bind_step.
  case_decide; [|apply IH; assumption].
  rewrite (get_time_Ok b tb Htb). bind_step.
  case_decide; [|apply IH; assumption].
  exists (Some (a, b)). split; [reflexivity|]. exists ta, tb. auto.
Qed.

Lemma position_outside (h : store) (m : Mission.t) (q : Z) :
  q < Mission.start_time m \/ Mission.end_time m < q ->
  get_position_at_time h m q = Ok None.
Proof.
  intros Hq. unfold get_position_at_time.
  destruct Hq.
  - rewrite (bool_decide_eq_false_2 (Mission.start_time m <= q)) by lia.
    reflexivity.
  - rewrite (bool_decide_eq_false_2 (q <= Mission.end_time m)) by lia.
    rewrite andb_false_r. reflexivity.
Qed.

Lemma position_inside (h : store) (m : Mission.t) (q : Z) :
  timed (Mission.read_waypoints h m) ->
  Mission.read_waypoints h m <> [] ->
  Mission.start_time m <= q <= Mission.end_time m ->
  exists w, get_position_at_time h m q = Ok (Some w).
Proof.
  intros Ht Hne [Hlo Hhi]. unfold get_position_at_time.
  rewrite !bool_decide_eq_true_2 by lia. cbn [andb negb].
  destruct (Mission.read_waypoints h m) as [|first rest] eqn:Hws;
    [congruence|].
  cbv beta match.
  destruct (find_segment_timed _ q Ht) as (r & -> & Hr). bind_step.
  repeat case_decide; eauto.
  destruct r as [[wp1 wp2]|]; eauto.
  destruct Hr as (ta & tb & Hta & Htb & _).
  rewrite (get_time_Ok _ _ Htb), (get_time_Ok _ _ Hta). bind_step.
  case_decide; eauto.
Qed.

Lemma position_at_start (h : store) (m : Mission.t) first rest lst :
  Mission.read_waypoints h m = first :: rest ->
  timed (first :: rest) ->
  last (first :: rest) = Some lst ->
  Waypoint.time first = Some (Mission.start_time m) ->
  Waypoint.time lst = Some (Mission.end_time m) ->
  Mission.start_time m < Mission.end_time m ->
  get_position_at_time h m (Mission.start_time m) = Ok (Some first).
Proof.
  intros Hws Ht Hl Hf Hlt Hse. unfold get_position_at_time.
  rewrite !bool_decide_eq_true_2 by lia. cbn [andb negb].
  rewrite Hws. cbv beta match.
  destruct (find_segment_timed _ (Mission.start_time m) Ht) as (r & -> & _).
  bind_step. rewrite Hl. change (default first (Some lst)) with lst.
  destruct (decide (Waypoint.time lst = Some (Mission.start_time m)))
    as [He|_]; [rewrite Hlt in He; injection He; lia|].
  destruct (decide (Waypoint.time first = Some (Mission.start_time m)));
    [reflexivity|contradiction].
Qed.

Lemma position_at_end (h : store) (m : Mission.t) first rest lst :
  Mission.read_waypoints h m = first :: rest ->
  timed (first :: rest) ->
  last (first :: rest) = Some lst ->
  Waypoint.time lst = Some (Mission.end_time m) ->
  Mission.start_time m <= Mission.end_time m ->
  get_position_at_time h m (Mission.end_time m) = Ok (Some lst).
Proof.
  intros Hws Ht Hl Hlt Hse. unfold get_position_at_time.
  rewrite !bool_decide_eq_true_2 by lia. cbn [andb negb].
  rewrite Hws. cbv beta match.
  destruct (find_segment_timed _ (Mission.end_time m) Ht) as (r & -> & _).
  bind_step. rewrite Hl. change (default first (Some lst)) with lst.
  destruct (decide (Waypoint.time lst = Some (Mission.end_time m)));
    [reflexivity|contradiction].
Qed.

(** ** The straight-line mission of the test suite *)

Lemma line_waypoints t0 :
  Mission.read_waypoints (line_store t0) (line_mission t0) =
  [Waypoint.mk 0 0 0 (Some t0);
   Waypoint.mk 100 0 0 (Some (t0 + 300 * us_per_second))].
Proof. reflexivity. Qed.

Lemma line_init t0 :
  Mission.__init__ (line_store t0) "DRONE_2D" [1%positive; 2%positive] t0
    (t0 + 300 * us_per_second) = Ok (line_store t0, line_mission t0).
Proof.
  unfold Mission.__init__.
  rewrite decide_False by discriminate.
  rewrite decide_False by (simpl; lia).
  rewrite decide_False by (unfold us_per_second; lia).
  reflexivity.
Qed.

Lemma total_seconds_ratio (a b : Z) :
  b <> 0 -> (total_seconds a / total_seconds b = IZR a / IZR b)%R.
Proof.
  intros Hb. unfold total_seconds, us_per_second.
  assert (IZR b <> 0)%R by (apply not_0_IZR; assumption).
  field. repeat split; try assumption; try lra.
Qed.

Ltac run := cbn [Waypoint.get_time Waypoint.time Waypoint.x Waypoint.y
  Waypoint.z mbind outcome_bind mret outcome_ret andb negb].

Lemma line_midpoint t0 :
    get_position_at_time (line_store t0) (line_mission t0)
      (t0 + 150 * us_per_second)
    = Ok (Some (Waypoint.mk 50 0 0 (Some (t0 + 150 * us_per_second)))).
Proof.
  unfold get_position_at_time. rewrite line_waypoints.
  cbn [Mission.start_time Mission.end_time line_mission].
  rewrite !bool_decide_eq_true_2 by (unfold us_per_second; lia).
  rewrite find_segment_cons2. run.
  rewrite decide_True by (unfold us_per_second; lia). run.
  rewrite decide_True by (unfold us_per_second; lia). run.
  change (default ?a (last [?a; ?b])) with b. run.
  rewrite decide_False by (intros [=]; unfold us_per_second in *; lia).
  rewrite decide_False by (intros [=]; unfold us_per_second in *; lia).
  rewrite decide_False
    by (rewrite total_seconds_le_0; unfold us_per_second; lia).
  rewrite total_seconds_ratio by (unfold us_per_second; lia).
  do 2 f_equal. unfold lerp. run.
  replace (t0 + 150 * us_per_second - t0) with 150000000
    by (unfold us_per_second; lia).
  replace (t0 + 300 * us_per_second - t0) with 300000000
    by (unfold us_per_second; lia).
  f_equal; field.
Qed.

(** ** The sampling loop *)

Lemma advance_cursor_ok (rest : list Waypoint.t) (idx : nat) (tm : Z) :
  timed rest ->
  exists idx', advance_cursor rest idx tm = Ok idx' /\
               (idx <= idx' <= idx + length rest)%nat.
Proof.
  revert idx. induction rest as [|w rest IH]; intros idx Ht.
  - exists idx. simpl. split; [reflexivity | lia].
  - apply timed_cons_inv in Ht as [[tw Htw] Hrest].
    cbn [advance_cursor]. rewrite (get_time_Ok _ _ Htw). bind_step.
    case_decide.
    + destruct (IH (S idx) Hrest) as (idx' & -> & Hb).
      exists idx'. split; [reflexivity | simpl; lia].
    + exists idx. split; [reflexivity | simpl; lia].
Qed.

Lemma sample_at_ok (ws : list Waypoint.t) (idx : nat) (tm : Z) :
  timed ws -> (idx < length ws)%nat ->
  exists s, sample_at ws idx tm = Ok s /\ Waypoint.time s = Some tm.
Proof.
  intros Ht Hidx. unfold sample_at.
  destruct (lookup_lt_is_Some_2 ws idx Hidx) as [wp1 Hwp1]. rewrite Hwp1.
  case_decide; [eexists; split; reflexivity|].
  assert (S idx < length ws)%nat as Hidx' by lia.
  destruct (lookup_lt_is_Some_2 ws (S idx) Hidx') as [wp2 Hwp2]. rewrite Hwp2.
  destruct (timed_lookup _ _ _ Ht Hwp1) as [t1 Ht1].
  destruct (timed_lookup _ _ _ Ht Hwp2) as [t2 Ht2].
  rewrite (get_time_Ok _ _ Ht2), (get_time_Ok _ _ Ht1). bind_step.
  case_decide; eexists; split; reflexivity.
Qed.

Lemma cursor_step_ok (ws : list Waypoint.t) (idx : nat) (tm : Z) :
  timed ws -> (idx < length ws)%nat ->
  exists idx', advance_cursor (drop (S idx) ws) idx tm = Ok idx' /\
               (idx <= idx' < length ws)%nat.
Proof.
  intros Ht Hidx.
  destruct (advance_cursor_ok (drop (S idx) ws) idx tm) as (idx' & He & Hb).
  { apply Forall_drop. exact Ht. }
  exists idx'. split; [exact He|]. rewrite length_drop in Hb. lia.
Qed.

Lemma sample_loop_eq (fuel : nat) ws idx cur end_ step path :
  sample_loop fuel ws idx cur end_ step path =
  if decide (cur <= end_) then
    match fuel with
    | O => OutOfFuel
    | S fuel' =>
        idx' ← advance_cursor (drop (S idx) ws) idx cur;
        s ← sample_at ws idx' cur;
        sample_loop fuel' ws idx' (cur + step) end_ step (path ++ [s])
    end
  else Ok path.
Proof. destruct fuel; reflexivity. Qed.

Lemma sample_loop_terminates (n : nat) :
  forall (fuel : nat) ws idx cur end_ step path,
    timed ws -> (idx < length ws)%nat -> 0 < step ->
    end_ - cur < step * Z.of_nat n -> (n <= fuel)%nat ->
    exists path', sample_loop fuel ws idx cur end_ step path
                  = Ok (path ++ path') /\
                  stamped_upto end_ path' /\
                  (cur <= end_ ->
                   exists idx' s rest,
                     advance_cursor (drop (S idx) ws) idx cur = Ok idx' /\
                     sample_at ws idx' cur = Ok s /\
                     path' = s :: rest /\ Waypoint.time s = Some cur).
Proof.
  induction n as [|n IH]; intros fuel ws idx cur end_ step path Ht Hidx Hstep Hn Hf;
    rewrite sample_loop_eq.
  - rewrite decide_False by lia. exists []. rewrite app_nil_r.
    split; [reflexivity|]. split; [constructor | lia].
  - case_decide as Hc.
    + destruct fuel as [|fuel]; [lia|].
      destruct (cursor_step_ok ws idx cur Ht Hidx) as (idx' & Hidx' & Hb).
      rewrite Hidx'. bind_step.
      destruct (sample_at_ok ws idx' cur Ht) as (s & Hsample & Hs); [lia|].
      rewrite Hsample. bind_step.
      destruct (IH fuel ws idx' (cur + step) end_ step (path ++ [s]))
        as (path' & -> & Hst & _); try assumption; try lia.
      exists (s :: path'). rewrite <- app_assoc. split; [reflexivity|].
      split; [constructor; eauto|].
      intros _. exists idx', s, path'. auto.
    + exists []. rewrite app_nil_r.
      split; [reflexivity|]. split; [constructor | lia].
Qed.

Lemma sample_loop_stalls (fuel : nat) :
  forall ws idx cur end_ path,
    timed ws -> (idx < length ws)%nat -> cur <= end_ ->
    sample_loop fuel ws idx cur end_ 0 path = OutOfFuel.
Proof.
  induction fuel as [|fuel IH]; intros ws idx cur end_ path Ht Hidx Hc;
    rewrite sample_loop_eq; rewrite decide_True by assumption;
    [reflexivity|].
  destruct (cursor_step_ok ws idx cur Ht Hidx) as (idx' & -> & Hb).
  bind_step.
  destruct (sample_at_ok ws idx' cur Ht) as (s & -> & Hs); [lia|].
  bind_step. rewrite Z.add_0_r. apply IH; [assumption | lia | assumption].
Qed.

Lemma enough_fuel_spec (start end_ step : Z) :
  0 < step -> start <= end_ ->
  end_ - start < step * Z.of_nat (enough_fuel start end_ step).
Proof.
  intros Hs Hse. unfold enough_fuel.
  assert (0 <= (end_ - start) / step) by (apply Z.div_pos; lia).
  rewrite Z2Nat.id by lia.
  pose proof (Z.mul_succ_div_gt (end_ - start) step Hs). lia.
Qed.

(** ** Trajectories: end points and the stalled loop *)

Lemma stamped_upto_timed end_ path : stamped_upto end_ path -> timed path.
Proof.
  unfold stamped_upto, timed. intros H.
  eapply Forall_impl; [exact H|]. intros s (tm & -> & _). eauto.
Qed.

Lemma needs_final_spec end_ path :
  stamped_upto end_ path ->
  exists b, needs_final path end_ = Ok b /\
    (b = false -> exists s, last path = Some s /\ Waypoint.time s = Some end_).
Proof.
  intros Hp. unfold needs_final.
  destruct (last path) as [s|] eqn:Hl; [|exists true; split; [reflexivity | discriminate]].
  assert (s ∈ path) as Hin.
  { apply last_Some in Hl as [l' ->]. apply elem_of_app. right.
    apply list_elem_of_here. }
  unfold stamped_upto in Hp. rewrite Forall_forall in Hp.
  destruct (Hp s Hin) as (tm & Htm & Hle).
  rewrite (get_time_Ok _ _ Htm). bind_step.
  eexists. split; [reflexivity|].
  intros Hb. apply bool_decide_eq_false in Hb.
  exists s. split; [reflexivity|]. rewrite Htm. f_equal. lia.
Qed.

Lemma interpolate_trajectory_endpoints (h : store) (m : Mission.t) (step : R) :
  timed (Mission.read_waypoints h m) ->
  (2 <= length (Mission.read_waypoints h m))%nat ->
  Mission.start_time m <= Mission.end_time m ->
  (0 < step)%R -> 0 < timedelta_seconds step ->
  forall fuel : nat,
    (enough_fuel (Mission.start_time m) (Mission.end_time m)
       (timedelta_seconds step) <= fuel)%nat ->
    exists first rest lst,
      interpolate_trajectory fuel h m step = Ok (first :: rest) /\
      (exists idx,
         advance_cursor (drop 1 (Mission.read_waypoints h m)) 0
           (Mission.start_time m) = Ok idx /\
         sample_at (Mission.read_waypoints h m) idx (Mission.start_time m)
         = Ok first) /\
      Waypoint.time first = Some (Mission.start_time m) /\
      last (first :: rest) = Some lst /\
      Waypoint.time lst = Some (Mission.end_time m) /\
      timed (first :: rest).
Proof.
  intros Ht Hlen Hse Hstep Htd fuel Hfuel. unfold interpolate_trajectory.
  rewrite decide_False by lra. rewrite decide_False by lia.
  destruct (sample_loop_terminates _ fuel (Mission.read_waypoints h m) 0%nat
              (Mission.start_time m) (Mission.end_time m)
              (timedelta_seconds step) [] Ht ltac:(lia) Htd
              (enough_fuel_spec _ _ _ Htd Hse) Hfuel)
    as (path & -> & Hst & Hhd).
  destruct (Hhd Hse) as (idx0 & s0 & rest & Hidx0 & Hsample0 & -> & Hs0).
  clear Hhd.
  cbn [app]. bind_step.
  destruct (needs_final_spec _ _ Hst) as (b & -> & Hb). bind_step.
  destruct b.
  - destruct (cursor_step_ok (Mission.read_waypoints h m) 0
                (Mission.end_time m) Ht ltac:(lia)) as (idx & Hidx & Hb').
    rewrite Hidx. bind_step.
    destruct (sample_at_ok (Mission.read_waypoints h m) idx
                (Mission.end_time m) Ht ltac:(lia)) as (s & -> & Hs).
    bind_step. exists s0, (rest ++ [s]), s.
    split; [reflexivity|]. split; [eauto|]. split; [assumption|].
    split; [rewrite app_comm_cons; apply last_snoc|].
    split; [assumption|].
    rewrite app_comm_cons. apply Forall_app. split.
    + eapply stamped_upto_timed; eassumption.
    + constructor; [eauto | constructor].
  - destruct (Hb eq_refl) as (s & Hl & Hs).
    exists s0, rest, s. split; [reflexivity|]. split; [eauto|].
    repeat split; try assumption.
    eapply stamped_upto_timed; eassumption.
Qed.

Lemma interpolate_trajectory_stalls (h : store) (m : Mission.t) (step : R) :
  timed (Mission.read_waypoints h m) ->
  (2 <= length (Mission.read_waypoints h m))%nat ->
  Mission.start_time m <= Mission.end_time m ->
  (0 < step)%R -> timedelta_seconds step = 0 ->
  forall fuel : nat, interpolate_trajectory fuel h m step = OutOfFuel.
Proof.
  intros Ht Hlen Hse Hstep Htd fuel. unfold interpolate_trajectory.
  rewrite decide_False by lra. rewrite decide_False by lia.
  rewrite Htd.
  rewrite sample_loop_stalls; [reflexivity | assumption | lia | assumption].
Qed.

Lemma timedelta_tenth_microsecond : timedelta_seconds (1 / 10000000) = 0.
Proof.
  unfold timedelta_seconds. apply round_half_even_small.
  unfold us_per_second. lra.
Qed.

Lemma timedelta_one_second : timedelta_seconds 1 = us_per_second.
Proof.
  unfold timedelta_seconds. rewrite Rmult_1_l. apply round_half_even_IZR.
Qed.

(** ** The Spatial Scanner *)

Lemma scan_row_spec (p : Waypoint.t) (sim : list Waypoint.t) (buffer : R) :
  is_Some (Waypoint.time p) -> timed sim ->
  forall acc, exists found,
    scan_row p sim buffer acc = Ok (acc ++ found) /\
    forall a b, (a, b) ∈ found <-> a = p /\ b ∈ sim /\ candidate buffer a b.
Proof.
  intros [tp Htp]. induction sim as [|s sim IH]; intros Ht acc.
  - exists []. rewrite app_nil_r. split; [reflexivity|].
    intros a b. split; [intros H; inversion H|].
    intros (_ & H & _). inversion H.
  - apply timed_cons_inv in Ht as [[ts Hts] Hsim].
    cbn [scan_row]. rewrite (get_time_Ok _ _ Htp), (get_time_Ok _ _ Hts).
    bind_step.
    destruct (decide (Rabs (total_seconds (tp - ts)) < buffer * 2)%R)
      as [Hgap|Hgap];
      [destruct (decide (calculate_distance p s < buffer)%R) as [Hd|Hd]|].
    + destruct (IH Hsim (acc ++ [(p, s)])) as (found & -> & Hfound).
      exists ((p, s) :: found). rewrite <- app_assoc. split; [reflexivity|].
      intros a b. rewrite elem_of_cons, Hfound, elem_of_cons. split.
      * intros [[= -> ->]|(-> & Hb & Hc)]; [|auto].
        split; [reflexivity|]. split; [auto|].
        split; [exists tp, ts; auto | assumption].
      * intros (-> & [->|Hb] & Hc); auto.
    + destruct (IH Hsim acc) as (found & -> & Hfound).
      exists found. split; [reflexivity|].
      intros a b. rewrite Hfound, elem_of_cons. split.
      * intros (-> & Hb & Hc). auto.
      * intros (-> & [->|Hb] & Hc); [|auto].
        destruct Hc as [_ Hc]. contradiction.
    + destruct (IH Hsim acc) as (found & -> & Hfound).
      exists found. split; [reflexivity|].
      intros a b. rewrite Hfound, elem_of_cons. split.
      * intros (-> & Hb & Hc). auto.
      * intros (-> & [->|Hb] & Hc); [|auto].
        destruct Hc as [(ta & tb & Hta & Htb & Hc) _].
        rewrite Htp in Hta. rewrite Hts in Htb.
        injection Hta as <-. injection Htb as <-. contradiction.
Qed.

Lemma scan_spec (prim sim : list Waypoint.t) (buffer : R) :
  timed prim -> timed sim ->
  forall acc, exists found,
    scan prim sim buffer acc = Ok (acc ++ found) /\
    forall a b, (a, b) ∈ found <-> a ∈ prim /\ b ∈ sim /\ candidate buffer a b.
Proof.
  intros Hp Hs. induction prim as [|p prim IH]; intros acc.
  - exists []. rewrite app_nil_r. split; [reflexivity|].
    intros a b. split; [intros H; inversion H|].
    intros (H & _). inversion H.
  - apply Forall_cons in Hp as [Hp0 Hp].
    cbn [scan].
    destruct (scan_row_spec p sim buffer Hp0 Hs acc) as (row & -> & Hrow).
    bind_step.
    destruct (IH Hp (acc ++ row)) as (found & -> & Hfound).
    exists (row ++ found). rewrite <- app_assoc. split; [reflexivity|].
    intros a b. rewrite elem_of_app, Hrow, Hfound, elem_of_cons.
    split.
    + intros [(-> & Hb & Hc)|(Ha & Hb & Hc)]; auto.
    + intros ([->|Ha] & Hb & Hc); auto.
Qed.

Lemma check_spatial_proximity_spec ida idb (prim sim : list Waypoint.t)
    (buffer : R) :
  timed prim -> timed sim -> (0 < buffer)%R ->
  exists found,
    check_spatial_proximity ida prim idb sim buffer = Ok found /\
    forall a b, (a, b) ∈ found <-> a ∈ prim /\ b ∈ sim /\ candidate buffer a b.
Proof.
  intros Hp Hs Hb. unfold check_spatial_proximity.
  rewrite decide_False by lra.
  destruct (scan_spec prim sim buffer Hp Hs []) as (found & -> & Hfound).
  exists found. split; [reflexivity | exact Hfound].
Qed.

(** ** The Temporal Refiner *)

Section refiner.
Context {rendering : Rendering}.

Lemma describe_nonempty a b w tm : describe a b w tm <> EmptyString.
Proof. unfold describe. cbn [String.app]. discriminate. Qed.

Lemma position_total (h : store) (m : Mission.t) (q : Z) :
  timed (Mission.read_waypoints h m) ->
  Mission.read_waypoints h m <> [] ->
  exists r, get_position_at_time h m q = Ok r.
Proof.
  intros Ht Hne.
  destruct (decide (Mission.start_time m <= q <= Mission.end_time m)) as [Hin|Hout].
  - destruct (position_inside h m q Ht Hne Hin) as [w Hw]. eauto.
  - exists None. apply position_outside. lia.
Qed.

Lemma check_loop_eq (fuel : nat) h pm sm buffer cur limit :
  check_loop fuel h pm sm buffer cur limit =
  if decide (cur <= limit) then
    match fuel with
    | O => OutOfFuel
    | S fuel' =>
        pos_primary ← get_position_at_time h pm cur;
        pos_simulated ← get_position_at_time h sm cur;
        match pos_primary, pos_simulated with
        | Some pp, Some ps =>
            if decide (calculate_distance pp ps < buffer)%R then
              c ← Conflict.__init__ (midpoint pp ps cur) cur
                    [Mission.drone_id pm; Mission.drone_id sm]
                    (describe (Mission.drone_id pm) (Mission.drone_id sm)
                       (midpoint pp ps cur) cur);
              Ok (Some c)
            else check_loop fuel' h pm sm buffer
                   (cur + 1 * us_per_second) limit
        | _, _ => check_loop fuel' h pm sm buffer
                    (cur + 1 * us_per_second) limit
        end
    end
  else Ok None.
Proof. destruct fuel; reflexivity. Qed.

Lemma first_breach_shift h pm sm buffer cur hi r :
  cur <= hi ->
  (forall pp ps, ~ breach h pm sm buffer cur pp ps) ->
  first_breach h pm sm buffer (cur + 1 * us_per_second) hi r ->
  first_breach h pm sm buffer cur hi r.
Proof.
  intros Hc Hno Hr. destruct r as [c|]; cbn [first_breach] in *.
  - destruct Hr as (k & pp & ps & Hk & Hle & Hbr & Hfirst & ->).
    replace (cur + 1 * us_per_second + k * us_per_second)
      with (cur + (k + 1) * us_per_second) in * by lia.
    exists (k + 1), pp, ps.
    split; [lia|]. split; [lia|]. split; [assumption|].
    split; [|reflexivity].
    intros j pp' ps' Hj. destruct (decide (j = 0)) as [->|Hj0].
    + rewrite Z.mul_0_l, Z.add_0_r. apply Hno.
    + replace (cur + j * us_per_second)
        with (cur + 1 * us_per_second + (j - 1) * us_per_second) by lia.
      apply Hfirst. lia.
  - intros k pp ps Hk Hle. destruct (decide (k = 0)) as [->|Hk0].
    + rewrite Z.mul_0_l, Z.add_0_r. apply Hno.
    + replace (cur + k * us_per_second)
        with (cur + 1 * us_per_second + (k - 1) * us_per_second) by lia.
      apply Hr; lia.
Qed.

Lemma check_loop_spec (n : nat) :
  forall (fuel : nat) h pm sm buffer cur hi,
    timed (Mission.read_waypoints h pm) -> Mission.read_waypoints h pm <> [] ->
    timed (Mission.read_waypoints h sm) -> Mission.read_waypoints h sm <> [] ->
    hi - cur < us_per_second * Z.of_nat n -> (n <= fuel)%nat ->
    exists r, check_loop fuel h pm sm buffer cur hi = Ok r /\
              first_breach h pm sm buffer cur hi r.
Proof.
  induction n as [|n IH]; intros fuel h pm sm buffer cur hi Hp Hpn Hs Hsn Hn Hf;
    rewrite check_loop_eq.
  - rewrite decide_False by lia. exists None. split; [reflexivity|].
    intros k pp ps Hk Hle. unfold us_per_second in *. lia.
  - case_decide as Hc.
    2:{ exists None. split; [reflexivity|].
        intros k pp ps Hk Hle. unfold us_per_second in *. lia. }
    destruct fuel as [|fuel]; [lia|].
    destruct (position_total h pm cur Hp Hpn) as [rp Hrp].
    destruct (position_total h sm cur Hs Hsn) as [rs Hrs].
    rewrite Hrp, Hrs. bind_step.
    assert (exists r, check_loop fuel h pm sm buffer
                        (cur + 1 * us_per_second) hi = Ok r /\
                      first_breach h pm sm buffer
                        (cur + 1 * us_per_second) hi r) as Hrec.
    { apply IH; try assumption; unfold us_per_second in *; lia. }
    destruct rp as [pp|]; [destruct rs as [ps|]|].
    + case_decide as Hd.
      * unfold Conflict.__init__.
        rewrite decide_False by apply describe_nonempty. bind_step.
        eexists. split; [reflexivity|].
        exists 0, pp, ps. rewrite Z.mul_0_l, Z.add_0_r.
        split; [lia|]. split; [lia|]. split; [split; auto|].
        split; [intros; lia | reflexivity].
      * destruct Hrec as (r & -> & Hr). exists r. split; [reflexivity|].
        apply first_breach_shift; try assumption.
        intros pp' ps' (Hp' & Hs' & Hd'). rewrite Hrp in Hp'.
        rewrite Hrs in Hs'. injection Hp' as <-. injection Hs' as <-.
        contradiction.
    + destruct Hrec as (r & -> & Hr). exists r. split; [reflexivity|].
      apply first_breach_shift; try assumption.
      intros pp' ps' (Hp' & Hs' & Hd'). rewrite Hrs in Hs'. discriminate.
    + destruct Hrec as (r & -> & Hr). exists r. split; [reflexivity|].
      apply first_breach_shift; try assumption.
      intros pp' ps' (Hp' & Hs' & Hd'). rewrite Hrp in Hp'. discriminate.
Qed.

End refiner.

(** ** The orchestrator returns *)

Lemma enough_fuel_bound (start end_ step : Z) :
  0 < step -> end_ - start < step * Z.of_nat (enough_fuel start end_ step).
Proof.
  intros Hs. unfold enough_fuel.
  destruct (decide (start <= end_)) as [Hse|Hse].
  - apply enough_fuel_spec; assumption.
  - assert (0 <= step * Z.of_nat (Z.to_nat ((end_ - start) / step + 1)))
      by (apply Z.mul_nonneg_nonneg; lia).
    lia.
Qed.

Lemma accepted_timed h m : accepted h m -> timed (Mission.read_waypoints h m).
Proof. intros (_ & _ & _ & H). exact H. Qed.

Lemma accepted_length h m :
  accepted h m -> (2 <= length (Mission.read_waypoints h m))%nat.
Proof.
  intros (_ & H & _). unfold Mission.read_waypoints, deref.
  rewrite length_fmap. exact H.
Qed.

Lemma accepted_nonempty h m : accepted h m -> Mission.read_waypoints h m <> [].
Proof.
  intros H%accepted_length E. rewrite E in H. simpl in H. lia.
Qed.

Lemma fuel_for_base ms : (11 <= fuel_for ms)%nat.
Proof. induction ms; simpl; lia. Qed.

Lemma fuel_for_elem ms m :
  m ∈ ms ->
  (enough_fuel (Mission.start_time m) (Mission.end_time m) us_per_second
   <= fuel_for ms)%nat.
Proof.
  induction 1; simpl; lia.
Qed.

Lemma interpolate_default_ok h m fuel :
  accepted h m ->
  (enough_fuel (Mission.start_time m) (Mission.end_time m) us_per_second
   <= fuel)%nat ->
  exists traj, interpolate_trajectory fuel h m 1 = Ok traj /\ timed traj.
Proof.
  intros Ha Hf. pose proof Ha as (_ & _ & Hse & _).
  destruct (interpolate_trajectory_endpoints h m 1) with (fuel := fuel)
    as (first & rest & lst & -> & _ & _ & _ & _ & Ht).
  - apply accepted_timed; assumption.
  - apply accepted_length; assumption.
  - lia.
  - lra.
  - rewrite timedelta_one_second. reflexivity.
  - rewrite timedelta_one_second. assumption.
  - eauto.
Qed.

Section orchestrator.
Context {rendering : Rendering}.

Lemma refine_ok h pm sm ca cb buffer window tp fuel :
  accepted h pm -> accepted h sm -> (0 < buffer)%R -> 0 <= window ->
  Waypoint.time ca = Some tp ->
  (enough_fuel
     (Z.max (Z.max (tp - window) (Mission.start_time pm))
        (Mission.start_time sm))
     (Z.min (Z.min (tp + window) (Mission.end_time pm)) (Mission.end_time sm))
     us_per_second <= fuel)%nat ->
  exists r,
    check_temporal_overlap_at_location fuel h pm sm ca cb buffer window
      = Ok r /\
    first_breach h pm sm buffer
      (Z.max (Z.max (tp - window) (Mission.start_time pm))
         (Mission.start_time sm))
      (Z.min (Z.min (tp + window) (Mission.end_time pm))
         (Mission.end_time sm)) r.
Proof.
  intros Hp Hs Hb Hw Hca Hf. unfold check_temporal_overlap_at_location.
  rewrite decide_False by lra.
  rewrite decide_False.
  2:{ intros Hneg. apply IZR_le in Hw. unfold total_seconds in Hneg.
      assert (0 <= IZR window * / IZR us_per_second)%R
        by (apply Rmult_le_pos; [assumption|];
            unfold us_per_second; lra).
      unfold Rdiv in Hneg. lra. }
  rewrite (get_time_Ok _ _ Hca). bind_step.
  eapply check_loop_spec; try eassumption;
    auto using accepted_timed, accepted_nonempty.
  apply enough_fuel_bound. reflexivity.
Qed.

Lemma refine_default_fuel (tp s1 s2 e1 e2 : Z) :
  (enough_fuel (Z.max (Z.max (tp - default_threshold) s1) s2)
     (Z.min (Z.min (tp + default_threshold) e1) e2) us_per_second
   <= 11)%nat.
Proof.
  unfold enough_fuel, default_threshold, us_per_second.
  assert ((Z.min (Z.min (tp + 5 * 1000000) e1) e2
           - Z.max (Z.max (tp - 5 * 1000000) s1) s2) / 1000000 <= 10).
  { apply Z.lt_succ_r. apply Z.div_lt_upper_bound; lia. }
  lia.
Qed.

Lemma refine_all_ok h pm sm buffer fuel overlaps :
  accepted h pm -> accepted h sm -> (0 < buffer)%R -> (11 <= fuel)%nat ->
  Forall (fun ab => is_Some (Waypoint.time ab.1)) overlaps ->
  forall acc, exists out,
    refine_all fuel h pm sm buffer overlaps acc = Ok out /\
    (acc = [] -> overlaps = [] -> out = []).
Proof.
  intros Hp Hs Hb Hf. induction overlaps as [|[ca cb] overlaps IH];
    intros Hov acc.
  - exists acc. split; [reflexivity | auto].
  - apply Forall_cons in Hov as [[tp Htp] Hov]. cbn [refine_all].
    destruct (refine_ok h pm sm ca cb buffer default_threshold tp fuel)
      as (r & -> & _); try assumption.
    + unfold default_threshold, us_per_second. lia.
    + pose proof (refine_default_fuel tp (Mission.start_time pm)
                    (Mission.start_time sm) (Mission.end_time pm)
                    (Mission.end_time sm)). lia.
    + bind_step. destruct (IH Hov (match r with
                                   | Some c => acc ++ [c]
                                   | None => acc
                                   end)) as (out & -> & _).
      exists out. split; [reflexivity | discriminate].
Qed.

Lemma verify_loop_ok h sys pm traj fuel ms :
  accepted h pm -> timed traj -> (0 < safety_buffer sys)%R ->
  (11 <= fuel)%nat ->
  Forall (accepted h) ms ->
  cache_covers (_pre_interpolated_simulated_trajectories sys) ms ->
  forall acc, exists out,
    verify_loop fuel h sys pm traj ms acc = Ok out /\
    (acc = [] -> ms = [] -> out = []).
Proof.
  intros Hp Ht Hb Hf. induction ms as [|sm ms IH]; intros Hms Hc acc.
  - exists acc. split; [reflexivity | auto].
  - apply Forall_cons in Hms as [Hsm Hms].
    apply Forall_cons in Hc as [(straj & Hl & Hst) Hc].
    cbn [verify_loop]. rewrite Hl.
    destruct (check_spatial_proximity_spec (Mission.drone_id pm)
                (Mission.drone_id sm) traj straj (safety_buffer sys)
                Ht Hst Hb) as (found & -> & Hfound).
    bind_step.
    destruct (refine_all_ok h pm sm (safety_buffer sys) fuel found
                Hp Hsm Hb Hf) with (acc := acc) as (det & -> & _).
    { apply Forall_forall. intros [a b] Hab. apply Hfound in Hab as (Ha & _).
      unfold timed in Ht. rewrite Forall_forall in Ht. apply Ht, Ha. }
    bind_step. destruct (IH Hms Hc det) as (out & -> & _).
    exists out. split; [reflexivity | discriminate].
Qed.

Lemma pre_interpolate_ok h fuel ms :
  Forall (accepted h) ms -> (fuel_for ms <= fuel)%nat ->
  forall cache,
    map_Forall (fun _ traj => timed traj) cache ->
    exists cache',
      pre_interpolate fuel h ms cache = Ok cache' /\
      map_Forall (fun _ traj => timed traj) cache' /\
      (forall id, is_Some (cache !! id) -> is_Some (cache' !! id)) /\
      Forall (fun m => is_Some (cache' !! Mission.drone_id m)) ms.
Proof.
  induction ms as [|m ms IH]; intros Hms Hf cache Hc.
  - exists cache. split; [reflexivity|]. auto.
  - apply Forall_cons in Hms as [Hm Hms]. cbn [pre_interpolate].
    destruct (interpolate_default_ok h m fuel Hm) as (traj & -> & Ht).
    { simpl in Hf. lia. }
    bind_step.
    destruct (IH Hms ltac:(simpl in Hf; lia)
                (<[Mission.drone_id m := traj]> cache))
      as (cache' & -> & Hc' & Hmono & Hall).
    { apply map_Forall_insert_2; assumption. }
    exists cache'. split; [reflexivity|]. split; [assumption|].
    split.
    + intros id Hid. apply Hmono.
      destruct (decide (Mission.drone_id m = id)) as [->|Hne].
      * rewrite lookup_insert_eq. eauto.
      * rewrite lookup_insert_ne by assumption. assumption.
    + constructor; [|assumption].
      apply Hmono. rewrite lookup_insert_eq. eauto.
Qed.

Lemma verdict_status fuel h sys pm v :
  verify_mission fuel h sys pm = Ok v ->
  (status v = "conflict detected"%string <-> conflict_details v <> []) /\
  (status v = "clear"%string <-> conflict_details v = []).
Proof.
  unfold verify_mission.
  destruct (interpolate_trajectory fuel h pm 1) as [traj| |];
    [|discriminate..]. bind_step.
  destruct (verify_loop fuel h sys pm traj (simulated_missions sys) [])
    as [det| |]; [|discriminate..]. bind_step.
  destruct det; intros [= <-]; cbn [status conflict_details]; split; split;
    intros; try discriminate; try reflexivity; congruence.
Qed.

End orchestrator.

(** ** The store: times are written, coordinates are not *)

Lemma set_time_eq (h : store) (l : loc) (tm : Z) :
  set_time h l tm !!! l = Waypoint.with_time (h !!! l) (Some tm).
Proof. unfold set_time. apply lookup_total_insert_eq. Qed.

Lemma set_time_ne (h : store) (l l' : loc) (tm : Z) :
  l <> l' -> set_time h l tm !!! l' = h !!! l'.
Proof. intros Hne. unfold set_time. apply lookup_total_insert_ne. exact Hne. Qed.

Lemma set_time_coords (h : store) (l l' : loc) (tm : Z) :
  coords (set_time h l tm !!! l') = coords (h !!! l').
Proof.
  destruct (decide (l = l')) as [->|Hne].
  - rewrite set_time_eq. reflexivity.
  - rewrite set_time_ne by assumption. reflexivity.
Qed.

Lemma set_time_keeps_time (h : store) (l l' : loc) (tm : Z) :
  is_Some (Waypoint.time (h !!! l')) ->
  is_Some (Waypoint.time (set_time h l tm !!! l')).
Proof.
  intros Hs. destruct (decide (l = l')) as [->|Hne].
  - rewrite set_time_eq. simpl. eauto.
  - rewrite set_time_ne by assumption. assumption.
Qed.

Lemma distance_coords (a b a' b' : Waypoint.t) :
  coords a = coords a' -> coords b = coords b' ->
  Waypoint.distance_to a b = Waypoint.distance_to a' b'.
Proof.
  unfold coords, Waypoint.distance_to. intros [= -> -> ->] [= -> -> ->].
  reflexivity.
Qed.

Lemma with_time_coords (w w' : Waypoint.t) (tm : option Z) :
  coords w = coords w' -> Waypoint.with_time w tm = Waypoint.with_time w' tm.
Proof.
  unfold coords, Waypoint.with_time. intros [= -> -> ->]. reflexivity.
Qed.

Lemma same_coords_set_time (h1 h2 : store) (l : loc) (t1 t2 : Z) :
  same_coords h1 h2 -> same_coords (set_time h1 l t1) (set_time h2 l t2).
Proof.
  intros H l'. rewrite !set_time_coords. apply H.
Qed.

Lemma agree_on_set_time (ls : list loc) (h1 h2 : store) (l : loc) (tm : Z) :
  same_coords h1 h2 -> agree_on ls h1 h2 ->
  agree_on (ls ++ [l]) (set_time h1 l tm) (set_time h2 l tm).
Proof.
  intros Hc Ha l' Hl'. destruct (decide (l = l')) as [->|Hne].
  - rewrite !set_time_eq. apply with_time_coords, Hc.
  - rewrite !set_time_ne by assumption. apply Ha.
    apply elem_of_app in Hl' as [Hl'|Hl']; [assumption|].
    apply list_elem_of_singleton in Hl'. congruence.
Qed.

Lemma path_distance_same_coords (h1 h2 : store) (refs : list loc) :
  same_coords h1 h2 ->
  forall acc, Mission.path_distance_from h1 acc refs
              = Mission.path_distance_from h2 acc refs.
Proof.
  intros Hc. induction refs as [|a [|b refs] IH]; intros acc;
    try reflexivity.
  cbn [Mission.path_distance_from].
  rewrite (distance_coords _ _ _ _ (Hc a) (Hc b)). apply IH.
Qed.

(** *** The two assignment loops write every waypoint they visit *)

Lemma assign_by_distance_agree (rest : list loc) :
  forall (h1 h2 : store) (ls : list loc) prev cur total start T,
    same_coords h1 h2 -> agree_on ls h1 h2 ->
    same_coords (Mission.assign_by_distance h1 prev rest cur total start T)
                (Mission.assign_by_distance h2 prev rest cur total start T) /\
    agree_on (ls ++ rest)
      (Mission.assign_by_distance h1 prev rest cur total start T)
      (Mission.assign_by_distance h2 prev rest cur total start T).
Proof.
  induction rest as [|l rest IH]; intros h1 h2 ls prev cur total start T Hc Ha.
  - rewrite app_nil_r. auto.
  - cbn [Mission.assign_by_distance].
    rewrite (distance_coords _ _ _ _ (Hc prev) (Hc l)).
    rewrite (cons_middle l ls rest), app_assoc.
    apply IH.
    + apply same_coords_set_time, Hc.
    + apply agree_on_set_time; assumption.
Qed.

Lemma assign_evenly_agree (refs : list loc) :
  forall (h1 h2 : store) (ls : list loc) i n start T,
    same_coords h1 h2 -> agree_on ls h1 h2 ->
    same_coords (Mission.assign_evenly h1 i n refs start T)
                (Mission.assign_evenly h2 i n refs start T) /\
    agree_on (ls ++ refs)
      (Mission.assign_evenly h1 i n refs start T)
      (Mission.assign_evenly h2 i n refs start T).
Proof.
  induction refs as [|l refs IH]; intros h1 h2 ls i n start T Hc Ha.
  - rewrite app_nil_r. auto.
  - cbn [Mission.assign_evenly].
    rewrite (cons_middle l ls refs), app_assoc.
    apply IH.
    + apply same_coords_set_time, Hc.
    + apply agree_on_set_time; assumption.
Qed.

Lemma agree_on_deref (ls : list loc) (h1 h2 : store) :
  agree_on ls h1 h2 -> deref h1 ls = deref h2 ls.
Proof.
  intros Ha. unfold deref. apply list_fmap_ext.
  intros i l Hl. apply Ha. eapply list_elem_of_lookup_2; eassumption.
Qed.

Lemma backfill_independent (h1 h2 : store) (m : Mission.t) :
  same_coords h1 h2 ->
  Mission.read_waypoints (Mission.backfill h1 m) m
  = Mission.read_waypoints (Mission.backfill h2 m) m.
Proof.
  intros Hc. unfold Mission.read_waypoints. apply agree_on_deref.
  unfold Mission.backfill.
  rewrite (path_distance_same_coords h1 h2 _ Hc).
  set (total := Mission.path_distance_from h2 0 (Mission.waypoints m)).
  assert (forall h1' h2',
            same_coords h1' h2' ->
            agree_on (Mission.waypoints m) h1' h2' ->
            agree_on (Mission.waypoints m)
              match last (Mission.waypoints m) with
              | Some l => set_time h1' l (Mission.end_time m)
              | None => h1'
              end
              match last (Mission.waypoints m) with
              | Some l => set_time h2' l (Mission.end_time m)
              | None => h2'
              end) as Hlast.
  { intros h1' h2' Hc' Ha'. destruct (last (Mission.waypoints m)) as [l|];
      [|assumption].
    intros l' Hl'. apply (agree_on_set_time _ _ _ l _ Hc' Ha').
    apply elem_of_app. auto. }
  assert (agree_on [] h1 h2) as Hnil by (intros l Hl; inversion Hl).
  case_decide.
  - destruct (assign_evenly_agree (Mission.waypoints m) h1 h2 [] 0
                (length (Mission.waypoints m)) (Mission.start_time m)
                (total_seconds (Mission.end_time m - Mission.start_time m))
                Hc Hnil) as [Hc' Ha'].
    apply Hlast; assumption.
  - destruct (Mission.waypoints m) as [|first rest] eqn:Hw.
    + apply Hlast; assumption.
    + destruct (assign_by_distance_agree rest
                  (set_time h1 first (Mission.start_time m))
                  (set_time h2 first (Mission.start_time m))
                  [first] first 0%R total (Mission.start_time m)
                  (total_seconds (Mission.end_time m - Mission.start_time m)))
        as [Hc' Ha'].
      * apply same_coords_set_time, Hc.
      * apply (agree_on_set_time [] h1 h2 first _ Hc Hnil).
      * apply Hlast; assumption.
Qed.

(** ** The back-fill leaves every waypoint timed *)

Lemma any_time_missing_false (h : store) (refs : list loc) :
  Mission.any_time_missing h refs = false <-> timed (deref h refs).
Proof.
  unfold Mission.any_time_missing, timed, deref.
  induction refs as [|l refs IH]; cbn [existsb fmap list_fmap].
  - split; [constructor | reflexivity].
  - rewrite orb_false_iff, IH, Forall_cons, bool_decide_eq_false.
    destruct (Waypoint.time (h !!! l)) as [tm|]; split.
    + intros [_ H]. split; [eauto | exact H].
    + intros [_ H]. split; [discriminate | exact H].
    + intros [H _]. contradiction.
    + intros [[tm H] _]. discriminate.
Qed.

Lemma any_time_missing_true (h : store) (refs : list loc) :
  Mission.any_time_missing h refs = true <->
  exists l, l ∈ refs /\ Waypoint.time (h !!! l) = None.
Proof.
  unfold Mission.any_time_missing. rewrite existsb_exists. split.
  - intros (l & Hin & Hb). apply bool_decide_eq_true in Hb.
    exists l. split; [apply list_elem_of_In; exact Hin | exact Hb].
  - intros (l & Hin & Hb). exists l.
    split; [apply list_elem_of_In; exact Hin|].
    apply bool_decide_eq_true. exact Hb.
Qed.

Lemma assign_by_distance_timed (rest : list loc) :
  forall (h : store) prev cur total start T,
    (forall l, is_Some (Waypoint.time (h !!! l)) ->
       is_Some (Waypoint.time
          (Mission.assign_by_distance h prev rest cur total start T !!! l)))
    /\ (forall l, l ∈ rest ->
       is_Some (Waypoint.time
          (Mission.assign_by_distance h prev rest cur total start T !!! l))).
Proof.
  induction rest as [|l rest IH]; intros h prev cur total start T.
  - split; [auto | intros l Hl; inversion Hl].
  - cbn [Mission.assign_by_distance].
    match goal with
    | |- context [Mission.assign_by_distance ?h' ?p rest ?c total start T] =>
        destruct (IH h' p c total start T) as [Hkeep Hset]
    end.
    split.
    + intros l' Hl'. apply Hkeep, set_time_keeps_time, Hl'.
    + intros l' Hl'. apply elem_of_cons in Hl' as [->|Hl']; [|auto].
      apply Hkeep. rewrite set_time_eq. simpl. eauto.
Qed.

Lemma assign_evenly_timed (refs : list loc) :
  forall (h : store) i n start T,
    (forall l, is_Some (Waypoint.time (h !!! l)) ->
       is_Some (Waypoint.time
          (Mission.assign_evenly h i n refs start T !!! l)))
    /\ (forall l, l ∈ refs ->
       is_Some (Waypoint.time
          (Mission.assign_evenly h i n refs start T !!! l))).
Proof.
  induction refs as [|l refs IH]; intros h i n start T.
  - split; [auto | intros l Hl; inversion Hl].
  - cbn [Mission.assign_evenly].
    match goal with
    | |- context [Mission.assign_evenly ?h' ?j n refs start T] =>
        destruct (IH h' j n start T) as [Hkeep Hset]
    end.
    split.
    + intros l' Hl'. apply Hkeep, set_time_keeps_time, Hl'.
    + intros l' Hl'. apply elem_of_cons in Hl' as [->|Hl']; [|auto].
      apply Hkeep. rewrite set_time_eq. simpl. eauto.
Qed.

Lemma backfill_timed (h : store) (m : Mission.t) :
  timed (Mission.read_waypoints (Mission.backfill h m) m).
Proof.
  unfold timed, Mission.read_waypoints, deref.
  apply Forall_fmap, Forall_forall. intros l Hl. unfold compose.
  unfold Mission.backfill.
  assert (forall h1,
            is_Some (Waypoint.time (h1 !!! l)) ->
            is_Some (Waypoint.time
              (match last (Mission.waypoints m) with
               | Some l0 => set_time h1 l0 (Mission.end_time m)
               | None => h1
               end !!! l))) as Hlast.
  { intros h1 H1. destruct (last (Mission.waypoints m));
      [apply set_time_keeps_time|]; assumption. }
  apply Hlast. case_decide.
  - apply (proj2 (assign_evenly_timed _ _ _ _ _ _)). exact Hl.
  - destruct (Mission.waypoints m) as [|first rest]; [inversion Hl|].
    apply elem_of_cons in Hl as [->|Hl].
    + apply (proj1 (assign_by_distance_timed _ _ _ _ _ _ _)).
      rewrite set_time_eq. simpl. eauto.
    + apply (proj2 (assign_by_distance_timed _ _ _ _ _ _ _)). exact Hl.
Qed.

Lemma init_accepts h drone_id refs start end_ :
  drone_id <> EmptyString -> (2 <= length refs)%nat -> start < end_ ->
  Mission.__init__ h drone_id refs start end_
  = Ok (Mission._assign_waypoint_times_if_needed h
          (Mission.mk drone_id refs start end_),
        Mission.mk drone_id refs start end_).
Proof.
  intros Hid Hlen Hse. unfold Mission.__init__.
  rewrite decide_False by assumption.
  rewrite decide_False by lia.
  rewrite decide_False by lia. reflexivity.
Qed.

Lemma init_inv h drone_id refs start end_ h' m :
  Mission.__init__ h drone_id refs start end_ = Ok (h', m) ->
  drone_id <> EmptyString /\ (2 <= length refs)%nat /\ start < end_ /\
  m = Mission.mk drone_id refs start end_ /\
  h' = Mission._assign_waypoint_times_if_needed h m.
Proof.
  unfold Mission.__init__. repeat case_decide; try discriminate.
  intros [= <- <-]. repeat split; try assumption; lia.
Qed.

Lemma init_accepted h drone_id refs start end_ h' m :
  Mission.__init__ h drone_id refs start end_ = Ok (h', m) ->
  accepted h' m.
Proof.
  intros (Hid & Hlen & Hse & -> & ->)%init_inv.
  unfold accepted. cbn [Mission.drone_id Mission.waypoints
    Mission.start_time Mission.end_time].
  repeat split; try assumption.
  unfold Mission._assign_waypoint_times_if_needed.
  cbn [Mission.waypoints].
  destruct (Mission.any_time_missing h refs) eqn:Hany.
  - apply backfill_timed.
  - apply any_time_missing_false in Hany. exact Hany.
Qed.

(** ** The back-fill on distinct objects *)

Lemma timedelta_seconds_mono (a b : R) :
  (a <= b)%R -> timedelta_seconds a <= timedelta_seconds b.
Proof.
  intros H. unfold timedelta_seconds. apply round_half_even_mono.
  apply Rmult_le_compat_r; [unfold us_per_second; lra | exact H].
Qed.

Lemma timedelta_seconds_0 : timedelta_seconds 0 = 0.
Proof.
  unfold timedelta_seconds. rewrite Rmult_0_l. apply (round_half_even_IZR 0).
Qed.

Lemma total_seconds_nonneg (d : Z) : 0 <= d -> (0 <= total_seconds d)%R.
Proof.
  intros H%IZR_le. unfold total_seconds, us_per_second.
  apply Rmult_le_pos; [exact H | lra].
Qed.

Lemma distance_to_nonneg (a b : Waypoint.t) :
  (0 <= Waypoint.distance_to a b)%R.
Proof. unfold Waypoint.distance_to. apply sqrt_pos. Qed.

Lemma path_distance_from_ge (h : store) (refs : list loc) :
  forall acc, (acc <= Mission.path_distance_from h acc refs)%R.
Proof.
  induction refs as [|a [|b refs] IH]; intros acc;
    cbn [Mission.path_distance_from]; try lra.
  pose proof (distance_to_nonneg (h !!! a) (h !!! b)).
  etransitivity; [|apply IH]. lra.
Qed.

(** *** The assigned times: shape of the two loops on distinct objects *)

Lemma assign_by_distance_spec (h0 : store) (rest : list loc) :
  forall (h : store) prev cur total start T,
    same_coords h h0 -> NoDup rest ->
    (forall l, l ∉ rest ->
       Mission.assign_by_distance h prev rest cur total start T !!! l
       = h !!! l) /\
    Waypoint.time
      <$> deref (Mission.assign_by_distance h prev rest cur total start T) rest
    = Some <$> times_by_distance h0 prev rest cur total start T.
Proof.
  induction rest as [|l rest IH]; intros h prev cur total start T Hc Hnd.
  - split; [reflexivity | reflexivity].
  - apply NoDup_cons in Hnd as [Hl Hnd].
    cbn [Mission.assign_by_distance times_by_distance].
    rewrite (distance_coords _ _ _ _ (Hc prev) (Hc l)).
    set (cur' := (cur + Waypoint.distance_to (h0 !!! prev) (h0 !!! l))%R).
    set (tl := start + timedelta_seconds (T * (cur' / total))).
    destruct (IH (set_time h l tl) l cur' total start T) as [Hframe Htimes].
    { intros l'. rewrite set_time_coords. apply Hc. }
    { exact Hnd. }
    split.
    + intros l' Hl'. apply not_elem_of_cons in Hl' as [Hne Hl'].
      rewrite Hframe by assumption. apply set_time_ne. congruence.
    + unfold deref in *. cbn [fmap list_fmap]. rewrite Htimes.
      rewrite Hframe by assumption. rewrite set_time_eq. reflexivity.
Qed.

Lemma assign_evenly_spec (refs : list loc) :
  forall (h : store) i n start T,
    NoDup refs ->
    (forall l, l ∉ refs ->
       Mission.assign_evenly h i n refs start T !!! l = h !!! l) /\
    Waypoint.time <$> deref (Mission.assign_evenly h i n refs start T) refs
    = Some <$> times_evenly i n refs start T.
Proof.
  induction refs as [|l refs IH]; intros h i n start T Hnd.
  - split; reflexivity.
  - apply NoDup_cons in Hnd as [Hl Hnd].
    cbn [Mission.assign_evenly times_evenly].
    match goal with
    | |- context [Mission.assign_evenly ?h' (S i) n refs start T] =>
        destruct (IH h' (S i) n start T Hnd) as [Hframe Htimes]
    end.
    split.
    + intros l' Hl'. apply not_elem_of_cons in Hl' as [Hne Hl'].
      rewrite Hframe by assumption. apply set_time_ne. congruence.
    + unfold deref in *. cbn [fmap list_fmap]. rewrite Htimes.
      rewrite Hframe by assumption. rewrite set_time_eq. reflexivity.
Qed.

(** *** The assigned times are ordered and stay in the window *)

Lemma times_by_distance_chain (h : store) (rest : list loc) :
  forall prev cur total start T,
    (0 <= T)%R -> (0 < total)%R ->
    Sorted Z.le ((start + timedelta_seconds (T * (cur / total)))
                 :: times_by_distance h prev rest cur total start T) /\
    Forall (fun tm =>
              tm <= start + timedelta_seconds
                (T * (Mission.path_distance_from h cur (prev :: rest)
                      / total)))
      ((start + timedelta_seconds (T * (cur / total)))
       :: times_by_distance h prev rest cur total start T).
Proof.
  assert (forall a b total T, (0 <= T)%R -> (0 < total)%R -> (a <= b)%R ->
            timedelta_seconds (T * (a / total))
            <= timedelta_seconds (T * (b / total))) as Hmono.
  { intros a b total T HT Htot Hab. apply timedelta_seconds_mono.
    apply Rmult_le_compat_l; [exact HT|].
    apply Rmult_le_compat_r; [|exact Hab].
    apply Rlt_le, Rinv_0_lt_compat, Htot. }
  induction rest as [|l rest IH]; intros prev cur total start T HT Htot.
  - cbn [times_by_distance Mission.path_distance_from].
    split; repeat constructor. lia.
  - cbn [times_by_distance].
    pose proof (distance_to_nonneg (h !!! prev) (h !!! l)) as Hd.
    set (cur' := (cur + Waypoint.distance_to (h !!! prev) (h !!! l))%R) in *.
    destruct (IH l cur' total start T HT Htot) as [Hs Hf].
    change (Mission.path_distance_from h cur (prev :: l :: rest))
      with (Mission.path_distance_from h cur' (l :: rest)).
    split.
    + constructor; [exact Hs|]. constructor.
      apply Z.add_le_mono_l, Hmono; try assumption. unfold cur'. lra.
    + constructor; [|exact Hf].
      apply Z.add_le_mono_l, Hmono; try assumption.
      pose proof (path_distance_from_ge h (l :: rest) cur'). unfold cur' in *.
      lra.
Qed.

Lemma even_fraction_le (i j n : nat) :
  (1 < n)%nat -> (i <= j)%nat ->
  (INR i / INR (n - 1) <= INR j / INR (n - 1))%R.
Proof.
  intros Hn Hij. apply Rmult_le_compat_r.
  - apply Rlt_le, Rinv_0_lt_compat, lt_0_INR. lia.
  - apply le_INR, Hij.
Qed.

Lemma times_evenly_chain (refs : list loc) :
  forall i n start T,
    (1 < n)%nat -> (0 <= T)%R -> (i + length refs <= n)%nat ->
    Sorted Z.le (times_evenly i n refs start T) /\
    Forall (fun tm =>
              start + timedelta_seconds (T * (INR i / INR (n - 1))) <= tm
              <= start + timedelta_seconds (T * 1))
      (times_evenly i n refs start T).
Proof.
  induction refs as [|l refs IH]; intros i n start T Hn HT Hlen.
  - split; constructor.
  - cbn [times_evenly]. rewrite decide_True by exact Hn.
    cbn [length] in Hlen.
    destruct (IH (S i) n start T Hn HT ltac:(lia)) as [Hs Hf].
    assert (forall a b, (a <= b)%nat ->
              timedelta_seconds (T * (INR a / INR (n - 1)))
              <= timedelta_seconds (T * (INR b / INR (n - 1)))) as Hmono.
    { intros a b Hab. apply timedelta_seconds_mono.
      apply Rmult_le_compat_l; [exact HT|].
      apply even_fraction_le; assumption. }
    split.
    + constructor; [exact Hs|].
      destruct refs as [|l' refs']; cbn [times_evenly]; constructor.
      rewrite decide_True by exact Hn.
      apply Z.add_le_mono_l, Hmono. lia.
    + constructor.
      * split; [lia|]. apply Z.add_le_mono_l, timedelta_seconds_mono.
        apply Rmult_le_compat_l; [exact HT|].
        replace 1%R with (INR (n - 1) / INR (n - 1))%R.
        -- apply even_fraction_le; [exact Hn | lia].
        -- field. apply not_0_INR. lia.
      * eapply Forall_impl; [exact Hf|]. intros tm [Hlo Hhi].
        split; [|exact Hhi].
        etransitivity; [|exact Hlo]. apply Z.add_le_mono_l, Hmono. lia.
Qed.

(** ** The window invariant of the back-fill *)

Lemma overwrite_last (h1 : store) (pre : list loc) (lastl : loc) (e : Z)
    (ts1 : list Z) :
  lastl ∉ pre ->
  Waypoint.time <$> deref h1 (pre ++ [lastl]) = Some <$> ts1 ->
  exists pre_ts x,
    ts1 = pre_ts ++ [x] /\ length pre_ts = length pre /\
    Waypoint.time <$> deref (set_time h1 lastl e) (pre ++ [lastl])
    = Some <$> (pre_ts ++ [e]).
Proof.
  intros Hl Ht. unfold deref in *. rewrite !fmap_app in *. symmetry in Ht.
  apply fmap_app_inv in Ht as (pre_ts & l2 & Hpre & Hl2 & ->).
  destruct l2 as [|x [|? ?]]; try discriminate.
  exists pre_ts, x. split; [reflexivity|]. split.
  - apply (f_equal length) in Hpre. rewrite !length_fmap in Hpre. lia.
  - rewrite (fmap_app Some pre_ts [e]), <- Hpre. f_equal.
    + f_equal. apply list_fmap_ext. intros i l Hi.
      apply set_time_ne. intros ->. apply Hl.
      eapply list_elem_of_lookup_2; eassumption.
    + cbn [fmap list_fmap]. rewrite set_time_eq. reflexivity.
Qed.

Lemma replace_last_spans (start end_ : Z) (pre_ts : list Z) (x : Z) :
  start <= end_ -> pre_ts <> [] ->
  Sorted Z.le (pre_ts ++ [x]) ->
  Forall (fun tm => start <= tm <= end_) (pre_ts ++ [x]) ->
  head (pre_ts ++ [x]) = Some start ->
  spans start end_ (pre_ts ++ [end_]).
Proof.
  intros Hse Hne Hs Hf Hh.
  apply Forall_app in Hf as [Hf _].
  apply (Sorted_StronglySorted Z.le) in Hs.
  apply StronglySorted_app in Hs as (_ & Hs & _).
  unfold spans. split; [|split; [|split]].
  - apply Forall_app. split; [exact Hf|]. constructor; [lia | constructor].
  - apply StronglySorted_Sorted, StronglySorted_app.
    split; [|split; [exact Hs | repeat constructor]].
    intros x1 x2 H1 ->%list_elem_of_singleton.
    rewrite Forall_forall in Hf. apply Hf, H1.
  - destruct pre_ts; [congruence | exact Hh].
  - apply last_snoc.
Qed.

Lemma backfill_spans (h : store) (m : Mission.t) :
  NoDup (Mission.waypoints m) -> (2 <= length (Mission.waypoints m))%nat ->
  Mission.start_time m < Mission.end_time m ->
  exists ts,
    times_are (Mission.read_waypoints (Mission.backfill h m) m) ts /\
    spans (Mission.start_time m) (Mission.end_time m) ts.
Proof.
  intros Hnd Hlen Hse. unfold times_are, Mission.read_waypoints.
  destruct m as [id refs start end_].
  cbn [Mission.waypoints Mission.start_time Mission.end_time] in *.
  set (T := total_seconds (end_ - start)).
  assert (0 <= T)%R as HT by (apply total_seconds_nonneg; lia).
  assert (start + timedelta_seconds (T * 1) = end_) as Hend.
  { rewrite Rmult_1_r. unfold T. rewrite timedelta_seconds_total_seconds.
    lia. }
  (* the store after the loop, before the last waypoint is pinned *)
  assert (exists h1 ts1,
            Mission.backfill h (Mission.mk id refs start end_)
            = match last refs with
              | Some l => set_time h1 l end_
              | None => h1
              end /\
            Waypoint.time <$> deref h1 refs = Some <$> ts1 /\
            Sorted Z.le ts1 /\
            Forall (fun tm => start <= tm <= end_) ts1 /\
            head ts1 = Some start) as (h1 & ts1 & -> & Ht1 & Hs1 & Hf1 & Hh1).
  { unfold Mission.backfill.
    cbn [Mission.waypoints Mission.start_time Mission.end_time]. fold T.
    case_decide as Htot.
    - eexists _, _. split; [reflexivity|].
      destruct (assign_evenly_spec refs h 0 (length refs) start T Hnd)
        as [_ Ht].
      destruct (times_evenly_chain refs 0 (length refs) start T)
        as [Hs Hf]; [lia | exact HT | lia |].
      assert (start + timedelta_seconds (T * (INR 0 / INR (length refs - 1)))
              = start) as H0.
      { unfold Rdiv. simpl INR. rewrite Rmult_0_l, Rmult_0_r.
        rewrite timedelta_seconds_0. lia. }
      rewrite H0, Hend in Hf.
      split; [exact Ht|]. split; [exact Hs|]. split; [exact Hf|].
      destruct refs as [|l refs]; [simpl in Hlen; lia|].
      cbn [times_evenly head]. rewrite decide_True by lia.
      rewrite H0. reflexivity.
    - destruct refs as [|first rest]; [simpl in Hlen; lia|].
      apply NoDup_cons in Hnd as [Hfirst Hnd].
      set (total := Mission.path_distance_from h 0 (first :: rest)) in *.
      assert (0 < total)%R as Hpos.
      { pose proof (path_distance_from_ge h (first :: rest) 0). fold total in H.
        lra. }
      eexists _, (start :: times_by_distance h first rest 0 total start T).
      split; [reflexivity|].
      destruct (assign_by_distance_spec h rest (set_time h first start)
                  first 0%R total start T) as [Hframe Ht].
      { intros l. apply set_time_coords. }
      { exact Hnd. }
      destruct (times_by_distance_chain h rest first 0%R total start T HT Hpos)
        as [Hs Hf].
      assert (start + timedelta_seconds (T * (0 / total)) = start) as H0.
      { unfold Rdiv. rewrite Rmult_0_l, Rmult_0_r.
        rewrite timedelta_seconds_0. lia. }
      rewrite H0 in Hs, Hf. fold total in Hf.
      replace (total / total)%R with 1%R in Hf by (field; lra).
      rewrite Hend in Hf.
      split.
      { unfold deref in *. cbn [fmap list_fmap]. rewrite Ht.
        rewrite Hframe by exact Hfirst. rewrite set_time_eq. reflexivity. }
      split; [exact Hs|]. split; [|reflexivity].
      apply (Sorted_StronglySorted Z.le) in Hs.
      apply StronglySorted_inv in Hs as [_ Hge].
      constructor; [lia|]. apply Forall_cons in Hf as [_ Hf].
      rewrite Forall_forall in *. intros tm Htm. split; auto. }
  destruct (last refs) as [lastl|] eqn:Hlast.
  2:{ apply last_None in Hlast. subst refs. simpl in Hlen. lia. }
  apply last_Some in Hlast as [pre ->].
  apply NoDup_app in Hnd as (_ & Hpre & _).
  destruct (overwrite_last h1 pre lastl end_ ts1) as (pre_ts & x & -> & Hl & Ht2).
  { intros Hin. apply (Hpre lastl Hin). apply list_elem_of_singleton.
    reflexivity. }
  { exact Ht1. }
  exists (pre_ts ++ [end_]). split; [exact Ht2|].
  apply (replace_last_spans start end_ pre_ts x); try assumption; try lia.
  intros ->. rewrite length_app in Hlen. simpl in *. lia.
Qed.

(** ** The example missions evaluated *)

Lemma stray_init :
  Mission.__init__ stray_store "STRAY" [1%positive; 2%positive] 0
    (300 * us_per_second) = Ok (stray_store, stray_mission).
Proof. reflexivity. Qed.

Lemma stray_waypoints :
  Mission.read_waypoints stray_store stray_mission =
  [Waypoint.mk 0 0 0 (Some (400 * us_per_second));
   Waypoint.mk 100 0 0 (Some (500 * us_per_second))].
Proof. reflexivity. Qed.

Lemma untimed_missing :
  Mission.any_time_missing untimed_store [1%positive; 2%positive] = true.
Proof. reflexivity. Qed.

Lemma inner_jump_waypoints t0 :
  Mission.read_waypoints (inner_jump_store t0) (inner_jump_mission t0) =
  [Waypoint.mk 0 0 0 (Some t0);
   Waypoint.mk 100 0 0 (Some (t0 + 30 * us_per_second));
   Waypoint.mk 200 0 0 (Some (t0 + 30 * us_per_second));
   Waypoint.mk 300 0 0 (Some (t0 + 60 * us_per_second))].
Proof. reflexivity. Qed.

Lemma inner_jump_init t0 :
  Mission.__init__ (inner_jump_store t0) "JumpDrone"
    [1%positive; 2%positive; 3%positive; 4%positive] t0
    (t0 + 60 * us_per_second)
  = Ok (inner_jump_store t0, inner_jump_mission t0).
Proof.
  rewrite init_accepts; [reflexivity | discriminate | simpl; lia |].
  unfold us_per_second. lia.
Qed.

Lemma stray_position_at_start :
  get_position_at_time stray_store stray_mission 0
  = Ok (Some (Waypoint.mk 100 0 0 (Some (500 * us_per_second)))).
Proof.
  unfold get_position_at_time. rewrite stray_waypoints. reflexivity.
Qed.

Lemma timedelta_thirty_seconds : timedelta_seconds 30 = 30 * us_per_second.
Proof.
  unfold timedelta_seconds, us_per_second.
  replace (30 * 1000000)%R with (IZR (30 * 1000000))
    by (rewrite mult_IZR; reflexivity).
  apply round_half_even_IZR.
Qed.

Lemma total_seconds_thirty : total_seconds (30 * us_per_second) = 30%R.
Proof.
  unfold total_seconds, us_per_second. rewrite mult_IZR. field.
Qed.

(** The position query at the instant of the jump: the first pair of
    waypoints whose times bound the instant is the segment that ends
    there, and the query interpolates to its end point. *)
Lemma inner_jump_position t0 :
  get_position_at_time (inner_jump_store t0) (inner_jump_mission t0)
    (t0 + 30 * us_per_second)
  = Ok (Some (Waypoint.mk 100 0 0 (Some (t0 + 30 * us_per_second)))).
Proof.
  unfold get_position_at_time. rewrite inner_jump_waypoints.
  cbn [Mission.start_time Mission.end_time inner_jump_mission].
  rewrite !bool_decide_eq_true_2 by (unfold us_per_second; lia).
  cbn [andb negb]. rewrite find_segment_cons2. run.
  rewrite decide_True by (unfold us_per_second; lia). run.
  rewrite decide_True by lia. bind_step.
  cbn [last]. change (default _ (Some ?w)) with w. cbn [Waypoint.time].
  rewrite decide_False by (intros [=]; unfold us_per_second in *; lia).
  rewrite decide_False by (intros [=]; unfold us_per_second in *; lia).
  run.
  replace (t0 + 30 * us_per_second - t0) with (30 * us_per_second) by lia.
  rewrite total_seconds_thirty.
  rewrite decide_False by lra.
  unfold lerp. run. do 3 f_equal; field.
Qed.

(** A waypoint object listed twice is written twice: the back-fill leaves
    both positions of the mission at end_time, so the first waypoint is not
    at start_time.  The window invariant needs distinct objects. *)
Lemma shared_waypoint_object_times :
  exists h',
    Mission.__init__ shared_store "SHARED" [1%positive; 1%positive] 0
      (600 * us_per_second) = Ok (h', shared_mission) /\
    times_are (Mission.read_waypoints h' shared_mission)
      [600 * us_per_second; 600 * us_per_second].
Proof.
  eexists. split.
  - apply init_accepts; [discriminate | simpl; lia | reflexivity].
  - unfold Mission._assign_waypoint_times_if_needed.
    replace (Mission.any_time_missing shared_store _) with true
      by reflexivity.
    unfold Mission.backfill, times_are, Mission.read_waypoints, deref.
    cbn [Mission.waypoints Mission.end_time shared_mission last fmap
         list_fmap].
    rewrite set_time_eq. reflexivity.
Qed.

(** ** Conflicts produced by the pipeline *)

Lemma line_accepted t0 : accepted (line_store t0) (line_mission t0).
Proof. eapply init_accepted, line_init. Qed.

Lemma stray_accepted : accepted stray_store stray_mission.
Proof. eapply init_accepted, stray_init. Qed.

Lemma sorted_unique_pair (a b s : string) :
  s ∈ Conflict.sorted_unique [a; b] <-> s = a \/ s = b.
Proof.
  rewrite sorted_unique_elem_of, elem_of_cons, list_elem_of_singleton.
  reflexivity.
Qed.

Section produced_conflicts.
Context {rendering : Rendering}.

Lemma check_loop_ids (fuel : nat) :
  forall h pm sm buffer cur limit c,
    check_loop fuel h pm sm buffer cur limit = Ok (Some c) ->
    ascending_unique (Conflict.conflicting_drone_ids c).
Proof.
  induction fuel as [|fuel IH]; intros h pm sm buffer cur limit c;
    rewrite check_loop_eq; case_decide; try discriminate.
  destruct (get_position_at_time h pm cur) as [rp| |]; try discriminate.
  destruct (get_position_at_time h sm cur) as [rs| |]; try discriminate.
  bind_step. destruct rp as [pp|]; [destruct rs as [ps|]|]; try apply IH.
  case_decide; [|apply IH].
  destruct (Conflict.__init__ _ _ _ _) as [c'| |] eqn:Hc; try discriminate.
  bind_step. intros [= <-].
  apply Conflict_init_ids in Hc as (-> & _). apply sorted_unique_ascending.
Qed.

Lemma refine_ids fuel h pm sm ca cb buffer window c :
  check_temporal_overlap_at_location fuel h pm sm ca cb buffer window
  = Ok (Some c) ->
  ascending_unique (Conflict.conflicting_drone_ids c).
Proof.
  unfold check_temporal_overlap_at_location.
  repeat case_decide; try discriminate.
  destruct (Waypoint.get_time ca); try discriminate. bind_step.
  apply check_loop_ids.
Qed.

Lemma refine_all_ids fuel h pm sm buffer overlaps :
  forall acc out,
    Forall (fun c => ascending_unique (Conflict.conflicting_drone_ids c)) acc ->
    refine_all fuel h pm sm buffer overlaps acc = Ok out ->
    Forall (fun c => ascending_unique (Conflict.conflicting_drone_ids c)) out.
Proof.
  induction overlaps as [|[ca cb] overlaps IH]; intros acc out Hacc;
    cbn [refine_all].
  - intros [= <-]. exact Hacc.
  - destruct (check_temporal_overlap_at_location fuel h pm sm ca cb buffer
                default_threshold) as [r| |] eqn:Hr; try discriminate.
    bind_step. apply IH. destruct r as [c|]; [|exact Hacc].
    apply Forall_app. split; [exact Hacc|].
    constructor; [|constructor]. eapply refine_ids, Hr.
Qed.

Lemma verify_loop_ids fuel h sys pm traj ms :
  forall acc out,
    Forall (fun c => ascending_unique (Conflict.conflicting_drone_ids c)) acc ->
    verify_loop fuel h sys pm traj ms acc = Ok out ->
    Forall (fun c => ascending_unique (Conflict.conflicting_drone_ids c)) out.
Proof.
  induction ms as [|sm ms IH]; intros acc out Hacc; cbn [verify_loop].
  - intros [= <-]. exact Hacc.
  - destruct (_pre_interpolated_simulated_trajectories sys
                !! Mission.drone_id sm); try discriminate.
    destruct (check_spatial_proximity _ _ _ _ _) as [found| |];
      try discriminate. bind_step.
    destruct (refine_all fuel h pm sm (safety_buffer sys) found acc)
      as [det| |] eqn:Hdet; try discriminate. bind_step.
    apply IH. eapply refine_all_ids; eassumption.
Qed.

Lemma verify_mission_ids fuel h sys pm v :
  verify_mission fuel h sys pm = Ok v ->
  Forall (fun c => ascending_unique (Conflict.conflicting_drone_ids c))
    (conflict_details v).
Proof.
  unfold verify_mission.
  destruct (interpolate_trajectory fuel h pm 1) as [traj| |];
    try discriminate. bind_step.
  destruct (verify_loop fuel h sys pm traj (simulated_missions sys) [])
    as [det| |] eqn:Hdet; try discriminate. bind_step.
  destruct det as [|c det]; intros [= <-]; cbn [conflict_details];
    [constructor|].
  eapply verify_loop_ids; [|exact Hdet]. constructor.
Qed.

End produced_conflicts.

(** The cursor and the sample at the three instants of a thirty-second
    sampling: at the instant of the jump the cursor passes both waypoints
    of the jump and the sample is at the later one. *)
Lemma inner_jump_samples t0 :
  let ws := Mission.read_waypoints (inner_jump_store t0)
              (inner_jump_mission t0) in
  (advance_cursor (drop 1 ws) 0 t0 = Ok 0%nat /\
   sample_at ws 0 t0 = Ok (Waypoint.mk 0 0 0 (Some t0))) /\
  (advance_cursor (drop 1 ws) 0 (t0 + 30 * us_per_second) = Ok 2%nat /\
   sample_at ws 2 (t0 + 30 * us_per_second)
   = Ok (Waypoint.mk 200 0 0 (Some (t0 + 30 * us_per_second)))) /\
  (advance_cursor (drop 3 ws) 2 (t0 + 60 * us_per_second) = Ok 3%nat /\
   sample_at ws 3 (t0 + 60 * us_per_second)
   = Ok (Waypoint.mk 300 0 0 (Some (t0 + 60 * us_per_second)))).
Proof.
  intros ws. unfold ws. rewrite inner_jump_waypoints.
  assert (total_seconds 0 = 0%R) as H0
    by (unfold total_seconds, Rdiv; apply Rmult_0_l).
  split; [|split]; split.
  - cbn [drop advance_cursor]. run.
    rewrite decide_False by (unfold us_per_second; lia). reflexivity.
  - unfold sample_at. cbn [lookup list_lookup length].
    rewrite decide_False by (simpl; lia). run.
    replace (t0 + 30 * us_per_second - t0) with (30 * us_per_second)
      by lia.
    rewrite total_seconds_thirty, decide_False by lra.
    unfold lerp. run. rewrite Z.sub_diag, H0. do 2 f_equal; lra.
  - cbn [drop advance_cursor]. run.
    rewrite decide_True by lia. run.
    rewrite decide_True by lia. run.
    rewrite decide_False by (unfold us_per_second; lia). reflexivity.
  - unfold sample_at. cbn [lookup list_lookup length].
    rewrite decide_False by (simpl; lia). run.
    replace (t0 + 60 * us_per_second - (t0 + 30 * us_per_second))
      with (30 * us_per_second) by lia.
    rewrite total_seconds_thirty, decide_False by lra.
    unfold lerp. run. rewrite Z.sub_diag, H0. do 2 f_equal; lra.
  - cbn [drop advance_cursor]. run.
    rewrite decide_True by lia. reflexivity.
  - unfold sample_at. cbn [lookup list_lookup length].
    rewrite decide_True by reflexivity. reflexivity.
Qed.

(** The trajectory sampled every thirty seconds: the sample at the instant
    of the jump is at the later waypoint. *)
Lemma inner_jump_trajectory t0 :
  interpolate_trajectory 3 (inner_jump_store t0) (inner_jump_mission t0) 30
  = Ok [Waypoint.mk 0 0 0 (Some t0);
        Waypoint.mk 200 0 0 (Some (t0 + 30 * us_per_second));
        Waypoint.mk 300 0 0 (Some (t0 + 60 * us_per_second))].
Proof.
  destruct (inner_jump_samples t0)
    as ((Hc0 & Hs0) & (Hc1 & Hs1) & (Hc2 & Hs2)).
  unfold interpolate_trajectory.
  rewrite decide_False by lra.
  rewrite timedelta_thirty_seconds.
  rewrite decide_False by (rewrite inner_jump_waypoints; simpl; lia).
  cbn [Mission.start_time Mission.end_time inner_jump_mission].
  rewrite sample_loop_eq.
  rewrite decide_True by (unfold us_per_second; lia).
  rewrite Hc0. bind_step. rewrite Hs0. bind_step.
  rewrite sample_loop_eq.
  rewrite decide_True by (unfold us_per_second; lia).
  rewrite Hc1. bind_step. rewrite Hs1. bind_step.
  replace (t0 + 30 * us_per_second + 30 * us_per_second)
    with (t0 + 60 * us_per_second) by lia.
  rewrite sample_loop_eq.
  rewrite decide_True by lia.
  rewrite Hc2. bind_step. rewrite Hs2. bind_step.
  rewrite sample_loop_eq.
  rewrite decide_False by (unfold us_per_second; lia). bind_step.
  unfold needs_final. cbn [app last]. run.
  rewrite bool_decide_eq_false_2 by lia. reflexivity.
Qed.

(** *** The two zero-duration branches disagree *)

(** The interpolator's branch [segment_duration <= 0] stamps the later
    waypoint of the segment. *)
Lemma sample_zero_duration_takes_later (ws : list Waypoint.t) (idx : nat)
    (tm t1 t2 : Z) (wp1 wp2 : Waypoint.t) :
  ws !! idx = Some wp1 -> ws !! S idx = Some wp2 ->
  Waypoint.time wp1 = Some t1 -> Waypoint.time wp2 = Some t2 -> t2 <= t1 ->
  sample_at ws idx tm = Ok (stamped wp2 tm).
Proof.
  intros H1 H2 Ht1 Ht2 Hle. unfold sample_at. rewrite H1.
  pose proof (lookup_lt_Some _ _ _ H2) as Hlen.
  rewrite decide_False by lia. rewrite H2.
  rewrite (get_time_Ok _ _ Ht2), (get_time_Ok _ _ Ht1). bind_step.
  rewrite decide_True by (apply total_seconds_le_0; lia). reflexivity.
Qed.

(** The position query's branch [segment_duration <= 0] returns the earlier
    waypoint of the segment. *)
Lemma position_zero_duration_returns_earlier (h : store) (m : Mission.t)
    (q t1 t2 : Z) (first wp1 wp2 : Waypoint.t) (rest : list Waypoint.t) :
  Mission.start_time m <= q <= Mission.end_time m ->
  Mission.read_waypoints h m = first :: rest ->
  find_segment (first :: rest) q = Ok (Some (wp1, wp2)) ->
  Waypoint.time (default first (last (first :: rest))) <> Some q ->
  Waypoint.time first <> Some q ->
  Waypoint.time wp1 = Some t1 -> Waypoint.time wp2 = Some t2 -> t2 <= t1 ->
  get_position_at_time h m q = Ok (Some wp1).
Proof.
  intros Hq Hws Hseg Hl Hf Ht1 Ht2 Hle. unfold get_position_at_time.
  rewrite !bool_decide_eq_true_2 by lia. cbn [andb negb].
  rewrite Hws. cbv beta match. rewrite Hseg. bind_step.
  rewrite decide_False by exact Hl. rewrite decide_False by exact Hf.
  rewrite (get_time_Ok _ _ Ht2), (get_time_Ok _ _ Ht1). bind_step.
  rewrite decide_True by (apply total_seconds_le_0; lia). reflexivity.
Qed.

(** The query's zero-duration branch is reached by an accepted mission
    whose supplied times step back, and hands out the earlier waypoint. *)
Lemma backtrack_position_at_shared_time :
  Mission.__init__ backtrack_store "BACKTRACK"
    [1%positive; 2%positive; 3%positive; 4%positive] 0 (10 * us_per_second)
  = Ok (backtrack_store, backtrack_mission) /\
  get_position_at_time backtrack_store backtrack_mission (2 * us_per_second)
  = Ok (Some (Waypoint.mk 100 0 0 (Some (2 * us_per_second)))).
Proof.
  split; [reflexivity|].
  eapply (position_zero_duration_returns_earlier backtrack_store
            backtrack_mission (2 * us_per_second) (2 * us_per_second)
            (2 * us_per_second)).
  - vm_compute. split; discriminate.
  - reflexivity.
  - reflexivity.
  - discriminate.
  - discriminate.
  - reflexivity.
  - reflexivity.
  - lia.
Qed.

(** *** Acceptance survives later constructions *)

Lemma backfill_keeps_times (h : store) (m : Mission.t) (l : loc) :
  is_Some (Waypoint.time (h !!! l)) ->
  is_Some (Waypoint.time
             (Mission._assign_waypoint_times_if_needed h m !!! l)).
Proof.
  intros Hl. unfold Mission._assign_waypoint_times_if_needed.
  destruct (Mission.any_time_missing h (Mission.waypoints m));
    [|exact Hl].
  unfold Mission.backfill.
  assert (forall h1,
            is_Some (Waypoint.time (h1 !!! l)) ->
            is_Some (Waypoint.time
              (match last (Mission.waypoints m) with
               | Some l0 => set_time h1 l0 (Mission.end_time m)
               | None => h1
               end !!! l))) as Hlast.
  { intros h1 H1. destruct (last (Mission.waypoints m));
      [apply set_time_keeps_time|]; assumption. }
  apply Hlast. case_decide.
  - apply (proj1 (assign_evenly_timed _ _ _ _ _ _)). exact Hl.
  - destruct (Mission.waypoints m) as [|first rest]; [exact Hl|].
    apply (proj1 (assign_by_distance_timed _ _ _ _ _ _ _)).
    apply set_time_keeps_time. exact Hl.
Qed.

Lemma accepted_preserved (h : store) (m m' : Mission.t) :
  accepted h m ->
  accepted (Mission._assign_waypoint_times_if_needed h m') m.
Proof.
  intros (Hid & Hlen & Hse & Ht). repeat split; try assumption.
  unfold timed, Mission.read_waypoints, deref in *.
  rewrite Forall_fmap, Forall_forall in *. intros l Hl. unfold compose.
  apply backfill_keeps_times. apply (Ht l Hl).
Qed.

(** * The claims *)

(** C1.  For accepted missions, a positive buffer, a non-negative window and
    a candidate that carries a time, the Refiner searches the window around
    the candidate's time, clipped to both missions' active windows, on the
    one-second grid from the clipped start: with enough fuel it returns the
    Conflict of the first instant at which both positions exist and are
    closer than the buffer, and nothing when no instant of the grid
    qualifies.  The Conflict's time is that instant; its location has the
    coordinates ((xa + xb) / 2, (ya + yb) / 2, (za + zb) / 2) of the two
    positions (xa, ya, za) and (xb, yb, zb) at that instant, whose
    Euclidean distance is below the buffer, and is stamped with that
    instant; its ids are the two drone ids sorted and deduplicated. *)
Theorem refiner_first_instant_wins {rendering : Rendering}
    (h : store) (pm sm : Mission.t) (ca cb : Waypoint.t) (buffer : R)
    (window tp : Z) (fuel : nat) :
  accepted h pm -> accepted h sm -> (0 < buffer)%R -> 0 <= window ->
  Waypoint.time ca = Some tp ->
  let lo := Z.max (Z.max (tp - window) (Mission.start_time pm))
              (Mission.start_time sm) in
  let hi := Z.min (Z.min (tp + window) (Mission.end_time pm))
              (Mission.end_time sm) in
  (enough_fuel lo hi us_per_second <= fuel)%nat ->
  exists r,
    check_temporal_overlap_at_location fuel h pm sm ca cb buffer window
    = Ok r /\
    first_breach h pm sm buffer lo hi r /\
    forall c, r = Some c ->
      (exists pp ps,
         get_position_at_time h pm (Conflict.time c) = Ok (Some pp) /\
         get_position_at_time h sm (Conflict.time c) = Ok (Some ps) /\
         (sqrt ((Waypoint.x pp - Waypoint.x ps) ^ 2
                + (Waypoint.y pp - Waypoint.y ps) ^ 2
                + (Waypoint.z pp - Waypoint.z ps) ^ 2) < buffer)%R /\
         Waypoint.x (Conflict.location c)
         = ((Waypoint.x pp + Waypoint.x ps) / 2)%R /\
         Waypoint.y (Conflict.location c)
         = ((Waypoint.y pp + Waypoint.y ps) / 2)%R /\
         Waypoint.z (Conflict.location c)
         = ((Waypoint.z pp + Waypoint.z ps) / 2)%R /\
         Waypoint.time (Conflict.location c) = Some (Conflict.time c)) /\
      ascending_unique (Conflict.conflicting_drone_ids c) /\
      forall s, s ∈ Conflict.conflicting_drone_ids c <->
                s = Mission.drone_id pm \/ s = Mission.drone_id sm.
Proof.
  intros Hp Hs Hb Hw Hca lo hi Hf.
  destruct (refine_ok h pm sm ca cb buffer window tp fuel Hp Hs Hb Hw Hca Hf)
    as (r & Hr & Hfirst).
  exists r. split; [exact Hr|]. split; [exact Hfirst|].
  intros c ->.
  destruct Hfirst as (k & pp & ps & _ & _ & (Hpp & Hps & Hd) & _ & ->).
  cbn [conflict_at Conflict.conflicting_drone_ids Conflict.time
       Conflict.location].
  split; [|split; [apply sorted_unique_ascending | apply sorted_unique_pair]].
  exists pp, ps. split; [exact Hpp|]. split; [exact Hps|].
  split; [exact Hd|]. repeat split; reflexivity.
Qed.

Lemma refiner_first_instant_wins_witness :
  exists r,
    check_temporal_overlap_at_location (rendering := silent_rendering)
      11 (line_store 0) (line_mission 0) (line_mission 0)
      (Waypoint.mk 0 0 0 (Some 0)) (Waypoint.mk 0 0 0 (Some 0)) 10
      default_threshold = Ok r /\
    first_breach (rendering := silent_rendering)
      (line_store 0) (line_mission 0) (line_mission 0) 10
      (Z.max (Z.max (0 - default_threshold) 0) 0)
      (Z.min (Z.min (0 + default_threshold) (0 + 300 * us_per_second))
         (0 + 300 * us_per_second)) r /\
    forall c, r = Some c ->
      (exists pp ps,
         get_position_at_time (line_store 0) (line_mission 0)
           (Conflict.time c) = Ok (Some pp) /\
         get_position_at_time (line_store 0) (line_mission 0)
           (Conflict.time c) = Ok (Some ps) /\
         (sqrt ((Waypoint.x pp - Waypoint.x ps) ^ 2
                + (Waypoint.y pp - Waypoint.y ps) ^ 2
                + (Waypoint.z pp - Waypoint.z ps) ^ 2) < 10)%R /\
         Waypoint.x (Conflict.location c)
         = ((Waypoint.x pp + Waypoint.x ps) / 2)%R /\
         Waypoint.y (Conflict.location c)
         = ((Waypoint.y pp + Waypoint.y ps) / 2)%R /\
         Waypoint.z (Conflict.location c)
         = ((Waypoint.z pp + Waypoint.z ps) / 2)%R /\
         Waypoint.time (Conflict.location c) = Some (Conflict.time c)) /\
      ascending_unique (Conflict.conflicting_drone_ids c) /\
      forall s, s ∈ Conflict.conflicting_drone_ids c <->
                s = "DRONE_2D"%string \/ s = "DRONE_2D"%string.
Proof.
  apply (refiner_first_instant_wins (rendering := silent_rendering)
           (line_store 0) (line_mission 0) (line_mission 0)
           (Waypoint.mk 0 0 0 (Some 0)) (Waypoint.mk 0 0 0 (Some 0)) 10
           default_threshold 0 11).
  - apply line_accepted.
  - apply line_accepted.
  - lra.
  - unfold default_threshold, us_per_second. lia.
  - reflexivity.
  - vm_compute. lia.
Defined.

(** C3.  For trajectories whose samples carry times and a positive buffer,
    the Spatial Scanner returns, and a pair (a, b) is in its result exactly
    when a is a sample of the first trajectory, b a sample of the second,
    their times are less than buffer * 2 seconds apart and their Euclidean
    distance is less than buffer. *)
Theorem scanner_emits_exactly_candidates (ida idb : string)
    (prim sim : list Waypoint.t) (buffer : R) :
  timed prim -> timed sim -> (0 < buffer)%R ->
  exists found,
    check_spatial_proximity ida prim idb sim buffer = Ok found /\
    forall a b,
      (a, b) ∈ found <->
      a ∈ prim /\ b ∈ sim /\
      (exists ta tb,
         Waypoint.time a = Some ta /\ Waypoint.time b = Some tb /\
         (Rabs (total_seconds (ta - tb)) < buffer * 2)%R) /\
      (sqrt ((Waypoint.x a - Waypoint.x b) ^ 2
             + (Waypoint.y a - Waypoint.y b) ^ 2
             + (Waypoint.z a - Waypoint.z b) ^ 2) < buffer)%R.
Proof.
  intros Hp Hs Hb.
  destruct (check_spatial_proximity_spec ida idb prim sim buffer Hp Hs Hb)
    as (found & Hfound & Hiff).
  exists found. split; [exact Hfound|]. intros a b. rewrite Hiff.
  unfold candidate, calculate_distance. tauto.
Qed.

Lemma scanner_emits_exactly_candidates_witness :
  exists found,
    check_spatial_proximity "A" [Waypoint.mk 0 0 0 (Some 0)] "B"
      [Waypoint.mk 3 4 0 (Some 0)] 10 = Ok found /\
    forall a b,
      (a, b) ∈ found <->
      a ∈ [Waypoint.mk 0 0 0 (Some 0)] /\ b ∈ [Waypoint.mk 3 4 0 (Some 0)] /\
      (exists ta tb,
         Waypoint.time a = Some ta /\ Waypoint.time b = Some tb /\
         (Rabs (total_seconds (ta - tb)) < 10 * 2)%R) /\
      (sqrt ((Waypoint.x a - Waypoint.x b) ^ 2
             + (Waypoint.y a - Waypoint.y b) ^ 2
             + (Waypoint.z a - Waypoint.z b) ^ 2) < 10)%R.
Proof.
  apply (scanner_emits_exactly_candidates "A" "B"
           [Waypoint.mk 0 0 0 (Some 0)] [Waypoint.mk 3 4 0 (Some 0)] 10).
  - repeat constructor. simpl. eauto.
  - repeat constructor. simpl. eauto.
  - lra.
Defined.

(** C4.  For reference missions and a primary mission accepted by the
    constructor and a positive buffer, building the system and verifying
    the primary mission return with enough fuel; the status is
    "conflict detected" exactly when the conflict list is non-empty and
    "clear" exactly when it is empty; with no reference mission the verdict
    is clear with an empty list. *)
Theorem verify_status_matches_conflicts {rendering : Rendering}
    (h0 h : store) (missions : list Mission.t) (buffer : R)
    (primary : Mission.t) (fuel : nat) :
  Forall (accepted h0) missions -> Forall (accepted h) missions ->
  accepted h primary -> (0 < buffer)%R ->
  (fuel_for (primary :: missions) <= fuel)%nat ->
  exists sys v,
    DeconflictionSystem_init fuel h0 missions buffer = Ok sys /\
    verify_mission fuel h sys primary = Ok v /\
    (status v = "conflict detected"%string <-> conflict_details v <> []) /\
    (status v = "clear"%string <-> conflict_details v = []) /\
    (missions = [] -> v = mkVerdict "clear" []).
Proof.
  intros Hms0 Hms Hp Hb Hf. cbn [fuel_for foldr] in Hf. fold (fuel_for missions) in Hf.
  unfold DeconflictionSystem_init. rewrite decide_False by lra.
  destruct (pre_interpolate_ok h0 fuel missions Hms0 ltac:(lia) ∅)
    as (cache & -> & Hc & _ & Hall).
  { apply map_Forall_empty. }
  bind_step. eexists. 
  assert (exists v,
            verify_mission fuel h (mkSystem missions buffer cache) primary
            = Ok v /\ (missions = [] -> v = mkVerdict "clear" []))
    as (v & Hv & Hempty).
  { unfold verify_mission.
    destruct (interpolate_default_ok h primary fuel Hp ltac:(lia))
      as (traj & -> & Ht).
    bind_step. cbn [simulated_missions].
    destruct (verify_loop_ok h (mkSystem missions buffer cache) primary traj
                fuel missions Hp Ht Hb) with (acc := @nil Conflict.t)
      as (out & -> & Hout).
    - pose proof (fuel_for_base missions). lia.
    - exact Hms.
    - unfold cache_covers. cbn [_pre_interpolated_simulated_trajectories].
      eapply Forall_impl; [exact Hall|]. intros m [traj' Hm].
      exists traj'. split; [exact Hm|]. eapply Hc, Hm.
    - bind_step. destruct out as [|c out].
      + eexists. split; [reflexivity | reflexivity].
      + eexists. split; [reflexivity|].
        intros ->. specialize (Hout eq_refl eq_refl). discriminate. }
  exists v. split; [reflexivity|]. split; [exact Hv|].
  destruct (verdict_status _ _ _ _ _ Hv) as [H1 H2].
  split; [exact H1|]. split; [exact H2 | exact Hempty].
Qed.

Lemma verify_status_matches_conflicts_witness :
  exists sys v,
    DeconflictionSystem_init
      (fuel_for [line_mission 0; line_mission 0]) (line_store 0)
      [line_mission 0] 10 = Ok sys /\
    verify_mission (rendering := silent_rendering)
      (fuel_for [line_mission 0; line_mission 0]) (line_store 0) sys
      (line_mission 0) = Ok v /\
    (status v = "conflict detected"%string <-> conflict_details v <> []) /\
    (status v = "clear"%string <-> conflict_details v = []) /\
    ([line_mission 0] = [] -> v = mkVerdict "clear" []).
Proof.
  apply (verify_status_matches_conflicts (rendering := silent_rendering)
           (line_store 0) (line_store 0) [line_mission 0] 10
           (line_mission 0) (fuel_for [line_mission 0; line_mission 0])).
  - constructor; [apply line_accepted | constructor].
  - constructor; [apply line_accepted | constructor].
  - apply line_accepted.
  - lra.
  - apply Nat.le_refl.
Defined.

(** C2, as stated, fails: the constructor accepts a mission whose waypoints
    all carry times and leaves those times as they are, here 400 s and
    500 s for a window that ends at 300 s. *)
Lemma init_keeps_stray_times :
  exists h' m,
    Mission.__init__ stray_store "STRAY" [1%positive; 2%positive] 0
      (300 * us_per_second) = Ok (h', m) /\
    ~ exists ts,
        times_are (Mission.read_waypoints h' m) ts /\
        spans (Mission.start_time m) (Mission.end_time m) ts.
Proof.
  exists stray_store, stray_mission. split; [apply stray_init|].
  intros (ts & Hts & _ & _ & Hhead & _).
  unfold times_are in Hts. rewrite stray_waypoints in Hts.
  destruct ts as [|t0 ts]; [discriminate|].
  cbn in Hts, Hhead. injection Hts as Ht0 _. injection Hhead as ->.
  discriminate.
Qed.

(** C2, amended.  When the constructor accepts a mission of pairwise
    distinct waypoint objects of which at least one lacks a time, then after
    construction every waypoint has a time within [start_time, end_time],
    the times are non-decreasing along the sequence, the first is
    start_time and the last is end_time. *)
Theorem init_backfill_spans (h : store) (drone_id : string)
    (refs : list loc) (start end_ : Z) (h' : store) (m : Mission.t) :
  Mission.__init__ h drone_id refs start end_ = Ok (h', m) ->
  Mission.any_time_missing h refs = true ->
  NoDup refs ->
  exists ts,
    times_are (Mission.read_waypoints h' m) ts /\
    Forall (fun tm => start <= tm <= end_) ts /\
    Sorted Z.le ts /\
    head ts = Some start /\
    last ts = Some end_.
Proof.
  intros (Hid & Hlen & Hse & -> & ->)%init_inv Hany Hnd.
  unfold Mission._assign_waypoint_times_if_needed.
  cbn [Mission.waypoints]. rewrite Hany.
  destruct (backfill_spans h (Mission.mk drone_id refs start end_))
    as (ts & Hts & Hspans); try assumption.
  exists ts. split; [exact Hts | exact Hspans].
Qed.

Lemma init_backfill_spans_witness :
  exists ts,
    times_are
      (Mission.read_waypoints
         (Mission._assign_waypoint_times_if_needed untimed_store
            untimed_mission) untimed_mission) ts /\
    Forall (fun tm => 0 <= tm <= 600 * us_per_second) ts /\
    Sorted Z.le ts /\
    head ts = Some 0 /\
    last ts = Some (600 * us_per_second).
Proof.
  apply (init_backfill_spans untimed_store "DRONE_NO_TIMES"
           [1%positive; 2%positive] 0 (600 * us_per_second)).
  - apply init_accepts; [discriminate | simpl; lia | vm_compute; reflexivity].
  - reflexivity.
  - apply NoDup_cons. split; [|apply NoDup_singleton].
    intros H%list_elem_of_singleton. discriminate.
Defined.

(** C5, the failing input.  A step of a tenth of a microsecond is positive
    and passes the guard, but [timedelta(seconds=1e-7)] is the zero
    timedelta: on every accepted mission the sampling loop never advances
    and no amount of fuel lets [interpolate_trajectory] return. *)
Theorem interpolate_submicrosecond_step_never_returns (h : store)
    (m : Mission.t) :
  accepted h m ->
  (0 < 1 / 10000000)%R /\
  forall fuel : nat,
    interpolate_trajectory fuel h m (1 / 10000000) = OutOfFuel.
Proof.
  intros Ha. split; [lra|]. pose proof Ha as (_ & _ & Hse & _).
  apply interpolate_trajectory_stalls.
  - apply accepted_timed, Ha.
  - apply accepted_length, Ha.
  - lia.
  - lra.
  - apply timedelta_tenth_microsecond.
Qed.

Lemma interpolate_submicrosecond_step_never_returns_witness :
  (0 < 1 / 10000000)%R /\
  forall fuel : nat,
    interpolate_trajectory fuel (line_store 0) (line_mission 0)
      (1 / 10000000) = OutOfFuel.
Proof.
  apply (interpolate_submicrosecond_step_never_returns (line_store 0)
           (line_mission 0)).
  apply line_accepted.
Defined.

(** C6, as stated, fails: on an accepted mission whose supplied waypoint
    times start after start_time, the query at start_time returns the last
    waypoint, whose coordinates differ from the first waypoint's. *)
Lemma position_at_start_of_stray_mission :
  accepted stray_store stray_mission /\
  exists first w,
    head (Mission.read_waypoints stray_store stray_mission) = Some first /\
    get_position_at_time stray_store stray_mission
      (Mission.start_time stray_mission) = Ok (Some w) /\
    Waypoint.x w <> Waypoint.x first.
Proof.
  split; [apply stray_accepted|].
  eexists _, _. rewrite stray_waypoints.
  split; [reflexivity|]. split; [apply stray_position_at_start|].
  cbn [Waypoint.x]. lra.
Qed.

(** C6, amended.  For every accepted mission and every query time t,
    position_at returns nothing exactly when t < start_time or
    t > end_time; and when the first waypoint's time is start_time and the
    last waypoint's time is end_time, the query at start_time returns the
    first waypoint and the query at end_time returns the last waypoint. *)
Theorem position_at_window_and_boundaries (h : store) (m : Mission.t) :
  accepted h m ->
  (forall q, get_position_at_time h m q = Ok None <->
             q < Mission.start_time m \/ Mission.end_time m < q) /\
  forall first lst,
    head (Mission.read_waypoints h m) = Some first ->
    last (Mission.read_waypoints h m) = Some lst ->
    Waypoint.time first = Some (Mission.start_time m) ->
    Waypoint.time lst = Some (Mission.end_time m) ->
    get_position_at_time h m (Mission.start_time m) = Ok (Some first) /\
    get_position_at_time h m (Mission.end_time m) = Ok (Some lst).
Proof.
  intros Ha. pose proof Ha as (_ & _ & Hse & _).
  pose proof (accepted_timed _ _ Ha) as Ht.
  pose proof (accepted_nonempty _ _ Ha) as Hne.
  split.
  - intros q. split; [|apply position_outside].
    intros Hq.
    destruct (decide (Mission.start_time m <= q <= Mission.end_time m))
      as [Hin|Hout]; [|lia].
    destruct (position_inside h m q Ht Hne Hin) as [w Hw].
    rewrite Hw in Hq. discriminate.
  - intros first lst Hhd Hlst Hf Hl.
    destruct (Mission.read_waypoints h m) as [|first' rest] eqn:Hws;
      [discriminate|].
    injection Hhd as ->. split.
    + eapply position_at_start; eauto.
    + eapply position_at_end; eauto. lia.
Qed.

Lemma position_at_window_and_boundaries_witness :
  (forall q, get_position_at_time (line_store 0) (line_mission 0) q = Ok None
             <-> q < 0 \/ 0 + 300 * us_per_second < q) /\
  forall first lst,
    head (Mission.read_waypoints (line_store 0) (line_mission 0))
    = Some first ->
    last (Mission.read_waypoints (line_store 0) (line_mission 0))
    = Some lst ->
    Waypoint.time first = Some 0 ->
    Waypoint.time lst = Some (0 + 300 * us_per_second) ->
    get_position_at_time (line_store 0) (line_mission 0) 0
    = Ok (Some first) /\
    get_position_at_time (line_store 0) (line_mission 0)
      (0 + 300 * us_per_second) = Ok (Some lst).
Proof.
  apply (position_at_window_and_boundaries (line_store 0) (line_mission 0)).
  apply line_accepted.
Defined.

(** C7, the failing input.  A mission accepted by the constructor with a
    jump inside it: (0,0,0) at t0, then (100,0,0) and (200,0,0) both at
    t0 + 30 s, then (300,0,0) at t0 + 60 s.  Sampled every thirty seconds,
    the interpolator's sample at the shared timestamp t0 + 30 s is at the
    later waypoint, (200,0,0); the position query at t0 + 30 s returns the
    coordinates of the earlier waypoint, (100,0,0). *)
Theorem zero_duration_segment_query_returns_earlier (t0 : Z) :
  Mission.__init__ (inner_jump_store t0) "JumpDrone"
    [1%positive; 2%positive; 3%positive; 4%positive] t0
    (t0 + 60 * us_per_second)
  = Ok (inner_jump_store t0, inner_jump_mission t0) /\
  interpolate_trajectory 3 (inner_jump_store t0) (inner_jump_mission t0) 30
  = Ok [Waypoint.mk 0 0 0 (Some t0);
        Waypoint.mk 200 0 0 (Some (t0 + 30 * us_per_second));
        Waypoint.mk 300 0 0 (Some (t0 + 60 * us_per_second))] /\
  get_position_at_time (inner_jump_store t0) (inner_jump_mission t0)
    (t0 + 30 * us_per_second)
  = Ok (Some (Waypoint.mk 100 0 0 (Some (t0 + 30 * us_per_second)))).
Proof.
  split; [apply inner_jump_init|].
  split; [apply inner_jump_trajectory | apply inner_jump_position].
Qed.

(** C8.  Whatever list of drone ids a Conflict is constructed from, the
    stored conflicting_drone_ids holds exactly the ids of that list, sorted
    ascending without duplicates; and the ids of every Conflict in a
    verdict of [verify_mission] are sorted ascending without duplicates. *)
Theorem conflict_ids_sorted_unique {rendering : Rendering} :
  (forall location tm ids description c,
     Conflict.__init__ location tm ids description = Ok c ->
     ascending_unique (Conflict.conflicting_drone_ids c) /\
     forall s, s ∈ Conflict.conflicting_drone_ids c <-> s ∈ ids) /\
  (forall fuel h sys primary v,
     verify_mission fuel h sys primary = Ok v ->
     Forall (fun c => ascending_unique (Conflict.conflicting_drone_ids c))
       (conflict_details v)).
Proof.
  split.
  - intros location tm ids description c (-> & _)%Conflict_init_ids.
    split; [apply sorted_unique_ascending|].
    intros s. apply sorted_unique_elem_of.
  - intros fuel h sys primary v. apply verify_mission_ids.
Qed.

Lemma conflict_ids_sorted_unique_witness :
  Conflict.__init__ (Waypoint.mk 0 0 0 (Some 0)) 0
    ["B"; "A"; "B"]%string "near miss"
  = Ok (Conflict.mk (Waypoint.mk 0 0 0 (Some 0)) 0 ["A"; "B"]%string
          "near miss") /\
  ascending_unique ["A"; "B"]%string /\
  forall s, s ∈ ["A"; "B"]%string <-> s ∈ ["B"; "A"; "B"]%string.
Proof.
  assert (Conflict.__init__ (Waypoint.mk 0 0 0 (Some 0)) 0
            ["B"; "A"; "B"]%string "near miss"
          = Ok (Conflict.mk (Waypoint.mk 0 0 0 (Some 0)) 0
                  ["A"; "B"]%string "near miss")) as Hinit
    by (vm_compute; reflexivity).
  split; [exact Hinit|].
  exact (proj1 (conflict_ids_sorted_unique (rendering := silent_rendering))
           _ _ _ _ _ Hinit).
Defined.

(** C9.  The mission with waypoints (0,0) at t0 and (100,0) at t0 + 300 s,
    start_time t0 and end_time t0 + 300 s, is accepted as supplied, and
    position_at at t0 + 150 s returns the coordinates (50, 0). *)
Theorem line_position_at_half_time (t0 : Z) :
  Mission.__init__ (line_store t0) "DRONE_2D" [1%positive; 2%positive] t0
    (t0 + 300 * us_per_second) = Ok (line_store t0, line_mission t0) /\
  get_position_at_time (line_store t0) (line_mission t0)
    (t0 + 150 * us_per_second)
  = Ok (Some (Waypoint.mk 50 0 0 (Some (t0 + 150 * us_per_second)))).
Proof. split; [apply line_init | apply line_midpoint]. Qed.

(** C10.  The back-fill runs exactly when some waypoint of the mission
    lacks a time.  When it runs, every waypoint of the mission ends with a
    time, and the waypoints read afterwards do not depend on the times held
    before: stores that differ only in times give the same result.  When it
    does not run the store is unchanged, and the constructor accepts the
    supplied times whatever their values. *)
Theorem backfill_runs_iff_time_missing (h : store) (m : Mission.t) :
  ((exists l, l ∈ Mission.waypoints m /\ Waypoint.time (h !!! l) = None) ->
   Mission._assign_waypoint_times_if_needed h m = Mission.backfill h m /\
   timed (Mission.read_waypoints
            (Mission._assign_waypoint_times_if_needed h m) m) /\
   forall h2, same_coords h h2 ->
     Mission.read_waypoints (Mission.backfill h2 m) m
     = Mission.read_waypoints
         (Mission._assign_waypoint_times_if_needed h m) m) /\
  (Mission._assign_waypoint_times_if_needed h m = h <->
   timed (Mission.read_waypoints h m)) /\
  (timed (Mission.read_waypoints h m) ->
   Mission.drone_id m <> EmptyString ->
   (2 <= length (Mission.waypoints m))%nat ->
   Mission.start_time m < Mission.end_time m ->
   Mission.__init__ h (Mission.drone_id m) (Mission.waypoints m)
     (Mission.start_time m) (Mission.end_time m) = Ok (h, m)).
Proof.
  unfold Mission._assign_waypoint_times_if_needed.
  split; [|split].
  - intros Hmiss%any_time_missing_true. rewrite Hmiss.
    split; [reflexivity|]. split; [apply backfill_timed|].
    intros h2 Hc. symmetry. apply backfill_independent, Hc.
  - destruct (Mission.any_time_missing h (Mission.waypoints m)) eqn:Hany.
    + apply any_time_missing_true in Hany as (l & Hl & Hnone).
      split.
      * intros Heq. pose proof (backfill_timed h m) as Ht.
        rewrite Heq in Ht. exact Ht.
      * intros Ht. exfalso. unfold timed, Mission.read_waypoints, deref in Ht.
        rewrite Forall_fmap, Forall_forall in Ht.
        destruct (Ht l Hl) as [tm Htm]. unfold compose in Htm. congruence.
    + apply any_time_missing_false in Hany. split; [auto | reflexivity].
  - intros Ht Hid Hlen Hse.
    rewrite init_accepts by assumption.
    unfold Mission._assign_waypoint_times_if_needed.
    cbn [Mission.waypoints].
    apply any_time_missing_false in Ht. rewrite Ht.
    destruct m. reflexivity.
Qed.

Lemma backfill_runs_iff_time_missing_witness :
  Mission._assign_waypoint_times_if_needed untimed_store untimed_mission
  = Mission.backfill untimed_store untimed_mission /\
  timed (Mission.read_waypoints
           (Mission._assign_waypoint_times_if_needed untimed_store
              untimed_mission) untimed_mission) /\
  forall h2, same_coords untimed_store h2 ->
    Mission.read_waypoints (Mission.backfill h2 untimed_mission)
      untimed_mission
    = Mission.read_waypoints
        (Mission._assign_waypoint_times_if_needed untimed_store
           untimed_mission) untimed_mission.
Proof.
  apply (proj1 (backfill_runs_iff_time_missing untimed_store
                  untimed_mission)).
  exists 1%positive. split; [|reflexivity].
  apply list_elem_of_here.
Defined.

(** * Further properties of the code *)

(** ** Distances *)

Lemma sum_squares_nonneg (a b c : R) : (0 <= a ^ 2 + b ^ 2 + c ^ 2)%R.
Proof. nra. Qed.

Lemma sum_squares_zero (a b c : R) :
  (a ^ 2 + b ^ 2 + c ^ 2 = 0)%R -> a = 0%R /\ b = 0%R /\ c = 0%R.
Proof.
  intros H. pose proof (pow2_ge_0 a). pose proof (pow2_ge_0 b).
  pose proof (pow2_ge_0 c).
  assert (a ^ 2 = 0)%R as Ha by lra. assert (b ^ 2 = 0)%R as Hb by lra.
  assert (c ^ 2 = 0)%R as Hc by lra.
  assert (forall r : R, (r ^ 2 = 0)%R -> r = 0%R) as Hsq.
  { intros r Hr. destruct (Req_dec_T r 0) as [E|E]; [exact E|].
    exfalso. exact (pow_nonzero r 2 E Hr). }
  auto.
Qed.

Lemma calculate_distance_distance_to (a b : Waypoint.t) :
  calculate_distance a b = Waypoint.distance_to a b.
Proof. reflexivity. Qed.

Lemma distance_to_zero_iff (a b : Waypoint.t) :
  Waypoint.distance_to a b = 0%R <-> coords a = coords b.
Proof.
  unfold Waypoint.distance_to, coords. split.
  - intros H0. apply sqrt_eq_0 in H0; [|apply sum_squares_nonneg].
    apply sum_squares_zero in H0 as (Hx & Hy & Hz).
    f_equal; [f_equal|]; lra.
  - intros [= -> -> ->].
    replace ((Waypoint.x b - Waypoint.x b) ^ 2
             + (Waypoint.y b - Waypoint.y b) ^ 2
             + (Waypoint.z b - Waypoint.z b) ^ 2)%R with 0%R by ring.
    apply sqrt_0.
Qed.

(** X1.  The distance between waypoints is never negative, it is zero
    exactly when the coordinates coincide (whatever the times), and it is
    symmetric; [calculate_distance] computes the same value as
    [Waypoint.distance_to]. *)
Theorem distance_is_symmetric_and_definite (a b : Waypoint.t) :
  (0 <= Waypoint.distance_to a b)%R /\
  (Waypoint.distance_to a b = 0%R <-> coords a = coords b) /\
  Waypoint.distance_to a b = Waypoint.distance_to b a /\
  calculate_distance a b = Waypoint.distance_to a b.
Proof.
  split; [apply distance_to_nonneg|]. split; [|split].
  - apply distance_to_zero_iff.
  - unfold Waypoint.distance_to. f_equal. ring.
  - reflexivity.
Qed.

(** ** Tuples and equality of waypoints *)

(** X2.  [to_tuple] loses nothing: two waypoints give the same tuple
    without time exactly when they have the same coordinates, and the same
    tuple with time exactly when they are equal, which is also exactly when
    [__eq__] answers true.  The short tuple is a pair exactly when z is
    zero. *)
Theorem to_tuple_determines_waypoint (a b : Waypoint.t) :
  (Waypoint.to_tuple a false = Waypoint.to_tuple b false
   <-> coords a = coords b) /\
  (Waypoint.to_tuple a true = Waypoint.to_tuple b true <-> a = b) /\
  (Waypoint.__eq__ a b = true <-> a = b) /\
  ((exists u v, Waypoint.to_tuple a false = Waypoint.Tuple2 u v)
   <-> Waypoint.z a = 0%R).
Proof.
  destruct a as [xa ya za ta], b as [xb yb zb tb].
  unfold Waypoint.to_tuple, Waypoint.__eq__, coords.
  cbn [Waypoint.x Waypoint.y Waypoint.z Waypoint.time].
  split; [|split; [|split]].
  - repeat case_decide; split; intros [=]; subst; try reflexivity;
      try congruence; try lra.
  - split; intros [=]; subst; reflexivity.
  - rewrite !andb_true_iff, !bool_decide_eq_true. split.
    + intros [[[-> ->] ->] ->]. reflexivity.
    + intros [=]. subst. auto.
  - case_decide as Hz; split.
    + intros (u & v & [=]).
    + intros ->. contradiction.
    + intros _. destruct (Req_dec_T za 0) as [Hz'|Hz']; [exact Hz'|].
      contradiction.
    + intros _. eauto.
Qed.

(** ** Path length *)

Lemma path_distance_from_cons2 (h : store) (a b : loc) (refs : list loc)
    (acc : R) :
  Mission.path_distance_from h acc (a :: b :: refs)
  = Mission.path_distance_from h
      (acc + Waypoint.distance_to (h !!! a) (h !!! b))%R (b :: refs).
Proof. reflexivity. Qed.

Lemma path_distance_from_zero (h : store) (refs : list loc) (acc : R) :
  (0 <= acc)%R ->
  (Mission.path_distance_from h acc refs = 0%R <->
   acc = 0%R /\
   forall a b, a ∈ refs -> b ∈ refs -> coords (h !!! a) = coords (h !!! b)).
Proof.
  revert acc. induction refs as [|a [|b refs] IH]; intros acc Hacc.
  - cbn. split; [intros ->; split; [reflexivity|]; intros ? ? H; inversion H
                | intros [-> _]; reflexivity].
  - cbn. split; [intros ->; split; [reflexivity|] | intros [-> _]; reflexivity].
    intros u v ->%list_elem_of_singleton ->%list_elem_of_singleton.
    reflexivity.
  - rewrite path_distance_from_cons2.
    pose proof (distance_to_nonneg (h !!! a) (h !!! b)) as Hd.
    rewrite IH by lra. split.
    + intros [Hsum Hrest].
      assert (acc = 0%R) by lra.
      assert (Waypoint.distance_to (h !!! a) (h !!! b) = 0%R) as Hab by lra.
      apply distance_to_zero_iff in Hab.
      split; [assumption|].
      assert (forall u, u ∈ a :: b :: refs ->
                coords (h !!! u) = coords (h !!! b)) as Hall.
      { intros u [->|Hu]%elem_of_cons; [exact Hab|].
        apply Hrest; [exact Hu | apply list_elem_of_here]. }
      intros u v Hu Hv. rewrite (Hall u Hu), (Hall v Hv). reflexivity.
    + intros [-> Hall]. split.
      * assert (Waypoint.distance_to (h !!! a) (h !!! b) = 0%R) as Hab.
        { apply distance_to_zero_iff. apply Hall.
          - apply list_elem_of_here.
          - apply list_elem_of_further, list_elem_of_here. }
        lra.
      * intros u v Hu Hv. apply Hall; apply list_elem_of_further; assumption.
Qed.

(** X3.  The path length of a mission is never negative, and it is zero
    exactly when all the mission's waypoints have the same coordinates. *)
Theorem path_length_zero_iff_coincident (h : store) (m : Mission.t) :
  (0 <= Mission.get_path_length h m)%R /\
  (Mission.get_path_length h m = 0%R <->
   forall a b, a ∈ Mission.waypoints m -> b ∈ Mission.waypoints m ->
               coords (h !!! a) = coords (h !!! b)).
Proof.
  unfold Mission.get_path_length. split.
  - apply path_distance_from_ge.
  - rewrite path_distance_from_zero by lra. tauto.
Qed.

(** ** The constructor *)

(** X4.  [Mission.__init__] raises ValueError exactly when the drone id is
    empty, fewer than two waypoints are given, or start_time is not before
    end_time; otherwise it returns the mission with the fields as given,
    accepted in the resulting store, with a positive duration. *)
Theorem init_raises_or_accepts (h : store) (drone_id : string)
    (refs : list loc) (start end_ : Z) :
  (Mission.__init__ h drone_id refs start end_ = Raise ValueError <->
   drone_id = EmptyString \/ (length refs < 2)%nat \/ end_ <= start) /\
  (~ (drone_id = EmptyString \/ (length refs < 2)%nat \/ end_ <= start) ->
   exists h',
     Mission.__init__ h drone_id refs start end_
     = Ok (h', Mission.mk drone_id refs start end_) /\
     accepted h' (Mission.mk drone_id refs start end_) /\
     0 < Mission.get_duration (Mission.mk drone_id refs start end_)).
Proof.
  split.
  - unfold Mission.__init__.
    destruct (decide (drone_id = EmptyString)) as [Hid|Hid];
      [split; [tauto | reflexivity]|].
    destruct (decide (length refs < 2)%nat) as [Hlen|Hlen];
      [split; [tauto | reflexivity]|].
    destruct (decide (start >= end_)) as [Hse|Hse];
      [split; [intros _; right; right; lia | reflexivity]|].
    split; [discriminate|]. intros [?|[?|?]]; [contradiction | lia | lia].
  - intros Hok.
    assert (drone_id <> EmptyString) as Hid by tauto.
    assert (2 <= length refs)%nat as Hlen by lia.
    assert (start < end_) as Hse by lia.
    eexists. split; [apply init_accepts; assumption|].
    split.
    + eapply init_accepted. apply init_accepts; assumption.
    + unfold Mission.get_duration. cbn. lia.
Qed.

Lemma init_raises_or_accepts_witness :
  exists h',
    Mission.__init__ (line_store 0) "DRONE_2D" [1%positive; 2%positive] 0
      (300 * us_per_second)
    = Ok (h', Mission.mk "DRONE_2D" [1%positive; 2%positive] 0
                (300 * us_per_second)) /\
    accepted h' (Mission.mk "DRONE_2D" [1%positive; 2%positive] 0
                   (300 * us_per_second)) /\
    0 < Mission.get_duration
          (Mission.mk "DRONE_2D" [1%positive; 2%positive] 0
             (300 * us_per_second)).
Proof.
  apply (proj2 (init_raises_or_accepts (line_store 0) "DRONE_2D"
                  [1%positive; 2%positive] 0 (300 * us_per_second))).
  intros [H|[H|H]];
    [discriminate | simpl in H; lia | unfold us_per_second in H; lia].
Defined.

(** X5.  Constructing a mission a second time from the same waypoints
    changes nothing: the store the first construction leaves is a fixed
    point of the constructor. *)
Theorem init_twice_changes_nothing (h : store) (drone_id : string)
    (refs : list loc) (start end_ : Z) (h' : store) (m : Mission.t) :
  Mission.__init__ h drone_id refs start end_ = Ok (h', m) ->
  Mission.__init__ h' drone_id refs start end_ = Ok (h', m).
Proof.
  intros Hinit. pose proof (init_accepted _ _ _ _ _ _ _ Hinit) as Hacc.
  apply init_inv in Hinit as (Hid & Hlen & Hse & Hm & Hh').
  rewrite init_accepts by assumption. rewrite <- Hm.
  unfold Mission._assign_waypoint_times_if_needed at 1.
  destruct Hacc as (_ & _ & _ & Ht).
  apply any_time_missing_false in Ht. rewrite Ht. reflexivity.
Qed.

Lemma init_twice_changes_nothing_witness :
  Mission.__init__
    (Mission._assign_waypoint_times_if_needed untimed_store untimed_mission)
    "DRONE_NO_TIMES" [1%positive; 2%positive] 0 (600 * us_per_second)
  = Ok (Mission._assign_waypoint_times_if_needed untimed_store
          untimed_mission, untimed_mission).
Proof.
  apply (init_twice_changes_nothing untimed_store).
  apply init_accepts; [discriminate | simpl; lia | vm_compute; reflexivity].
Defined.

(** ** What the back-fill leaves alone *)

Lemma assign_by_distance_frame (rest : list loc) :
  forall (h : store) prev cur total start T (l : loc),
    l ∉ rest ->
    Mission.assign_by_distance h prev rest cur total start T !!! l = h !!! l.
Proof.
  induction rest as [|l0 rest IH]; intros h prev cur total start T l Hl;
    [reflexivity|].
  apply not_elem_of_cons in Hl as [Hne Hl].
  cbn [Mission.assign_by_distance]. rewrite IH by exact Hl.
  apply set_time_ne. congruence.
Qed.

Lemma assign_evenly_frame (refs : list loc) :
  forall (h : store) i n start T (l : loc),
    l ∉ refs ->
    Mission.assign_evenly h i n refs start T !!! l = h !!! l.
Proof.
  induction refs as [|l0 refs IH]; intros h i n start T l Hl;
    [reflexivity|].
  apply not_elem_of_cons in Hl as [Hne Hl].
  cbn [Mission.assign_evenly]. rewrite IH by exact Hl.
  apply set_time_ne. congruence.
Qed.

Lemma assign_by_distance_coords (rest : list loc) :
  forall (h : store) prev cur total start T,
    same_coords (Mission.assign_by_distance h prev rest cur total start T) h.
Proof.
  induction rest as [|l0 rest IH]; intros h prev cur total start T l;
    [reflexivity|].
  cbn [Mission.assign_by_distance]. rewrite IH. apply set_time_coords.
Qed.

Lemma assign_evenly_coords (refs : list loc) :
  forall (h : store) i n start T,
    same_coords (Mission.assign_evenly h i n refs start T) h.
Proof.
  induction refs as [|l0 refs IH]; intros h i n start T l; [reflexivity|].
  cbn [Mission.assign_evenly]. rewrite IH. apply set_time_coords.
Qed.

Lemma backfill_frame (h : store) (m : Mission.t) (l : loc) :
  coords (Mission.backfill h m !!! l) = coords (h !!! l) /\
  (l ∉ Mission.waypoints m -> Mission.backfill h m !!! l = h !!! l).
Proof.
  unfold Mission.backfill.
  set (total := Mission.path_distance_from h 0 (Mission.waypoints m)).
  set (T := total_seconds (Mission.end_time m - Mission.start_time m)).
  set (h1 := if decide (total = 0%R) then _ else _).
  assert (coords (h1 !!! l) = coords (h !!! l) /\
          (l ∉ Mission.waypoints m -> h1 !!! l = h !!! l)) as [Hc Hf].
  { unfold h1. case_decide.
    - split; [apply assign_evenly_coords | apply assign_evenly_frame].
    - destruct (Mission.waypoints m) as [|first rest]; [auto|]. split.
      + rewrite assign_by_distance_coords. apply set_time_coords.
      + intros [Hne Hl]%not_elem_of_cons.
        rewrite assign_by_distance_frame by exact Hl.
        apply set_time_ne. congruence. }
  destruct (last (Mission.waypoints m)) as [lastl|] eqn:Hlast; [|auto].
  split.
  - rewrite set_time_coords. exact Hc.
  - intros Hl. rewrite set_time_ne; [auto|].
    intros ->. apply Hl. eapply last_Some_elem_of, Hlast.
Qed.

(** X6.  Constructing a mission writes times and nothing else: every
    object keeps its coordinates, objects that are not waypoints of the
    mission are untouched, no object loses a time it had, and so the path
    length of any mission is the same before and after. *)
Theorem init_writes_only_times (h : store) (drone_id : string)
    (refs : list loc) (start end_ : Z) (h' : store) (m : Mission.t) :
  Mission.__init__ h drone_id refs start end_ = Ok (h', m) ->
  (forall l, coords (h' !!! l) = coords (h !!! l)) /\
  (forall l, l ∉ refs -> h' !!! l = h !!! l) /\
  (forall l, is_Some (Waypoint.time (h !!! l)) ->
             is_Some (Waypoint.time (h' !!! l))) /\
  (forall m', Mission.get_path_length h' m' = Mission.get_path_length h m').
Proof.
  intros (_ & _ & _ & -> & ->)%init_inv.
  assert (forall l,
            coords (Mission._assign_waypoint_times_if_needed h
                      (Mission.mk drone_id refs start end_) !!! l)
            = coords (h !!! l)) as Hc.
  { intros l. unfold Mission._assign_waypoint_times_if_needed.
    destruct (Mission.any_time_missing _ _); [|reflexivity].
    apply backfill_frame. }
  split; [exact Hc|]. split; [|split].
  - intros l Hl. unfold Mission._assign_waypoint_times_if_needed.
    destruct (Mission.any_time_missing _ _); [|reflexivity].
    apply backfill_frame. exact Hl.
  - intros l. apply backfill_keeps_times.
  - intros m'. unfold Mission.get_path_length.
    apply path_distance_same_coords. exact Hc.
Qed.

Lemma init_writes_only_times_witness :
  (forall l,
     coords (Mission._assign_waypoint_times_if_needed untimed_store
               untimed_mission !!! l) = coords (untimed_store !!! l)) /\
  (forall l, l ∉ [1%positive; 2%positive] ->
     Mission._assign_waypoint_times_if_needed untimed_store untimed_mission
       !!! l = untimed_store !!! l) /\
  (forall l, is_Some (Waypoint.time (untimed_store !!! l)) ->
     is_Some (Waypoint.time
                (Mission._assign_waypoint_times_if_needed untimed_store
                   untimed_mission !!! l))) /\
  (forall m',
     Mission.get_path_length
       (Mission._assign_waypoint_times_if_needed untimed_store
          untimed_mission) m'
     = Mission.get_path_length untimed_store m').
Proof.
  apply (init_writes_only_times untimed_store "DRONE_NO_TIMES"
           [1%positive; 2%positive] 0 (600 * us_per_second)
           (Mission._assign_waypoint_times_if_needed untimed_store
              untimed_mission) untimed_mission).
  apply init_accepts; [discriminate | simpl; lia | vm_compute; reflexivity].
Defined.

(** ** The times the back-fill assigns *)

Lemma times_evenly_lookup (refs : list loc) :
  forall (i n k : nat) start T,
    (k < length refs)%nat ->
    times_evenly i n refs start T !! k
    = Some (start + timedelta_seconds
                      (T * (if decide (1 < n)%nat
                            then (INR (i + k) / INR (n - 1))%R else 0%R))).
Proof.
  induction refs as [|l refs IH]; intros i n k start T Hk;
    [simpl in Hk; lia|].
  destruct k as [|k]; cbn [times_evenly lookup list_lookup].
  - rewrite Nat.add_0_r. reflexivity.
  - change (_ !! k) with (times_evenly (S i) n refs start T !! k).
    rewrite IH by (simpl in Hk; lia).
    replace (S i + k)%nat with (i + S k)%nat by lia. reflexivity.
Qed.

Lemma times_by_distance_lookup (h : store) (rest : list loc) :
  forall prev cur total start T (k : nat),
    (k < length rest)%nat ->
    times_by_distance h prev rest cur total start T !! k
    = Some (start + timedelta_seconds
                      (T * (Mission.path_distance_from h cur
                              (prev :: take (S k) rest) / total))).
Proof.
  induction rest as [|l rest IH]; intros prev cur total start T k Hk;
    [simpl in Hk; lia|].
  destruct k as [|k]; cbn [times_by_distance lookup list_lookup].
  - reflexivity.
  - change (_ !! k) with
      (times_by_distance h l rest
         (cur + Waypoint.distance_to (h !!! prev) (h !!! l))%R total start T
       !! k).
    rewrite IH by (simpl in Hk; lia). reflexivity.
Qed.

Lemma length_times_evenly (refs : list loc) :
  forall i n start T, length (times_evenly i n refs start T) = length refs.
Proof.
  induction refs as [|l refs IH]; intros i n start T; [reflexivity|].
  cbn [times_evenly length]. rewrite IH. reflexivity.
Qed.

Lemma length_times_by_distance (h : store) (rest : list loc) :
  forall prev cur total start T,
    length (times_by_distance h prev rest cur total start T) = length rest.
Proof.
  induction rest as [|l rest IH]; intros prev cur total start T;
    [reflexivity|].
  cbn [times_by_distance length]. rewrite IH. reflexivity.
Qed.

Lemma length_loop_times (h : store) (m : Mission.t) :
  length (loop_times h m) = length (Mission.waypoints m).
Proof.
  unfold loop_times. case_decide.
  - apply length_times_evenly.
  - destruct (Mission.waypoints m); [reflexivity|].
    cbn [length]. rewrite length_times_by_distance. reflexivity.
Qed.

Lemma backfill_times (h : store) (m : Mission.t) (pre : list loc)
    (lastl : loc) :
  NoDup (Mission.waypoints m) ->
  Mission.waypoints m = pre ++ [lastl] ->
  times_are (Mission.read_waypoints (Mission.backfill h m) m)
    (take (length pre) (loop_times h m) ++ [Mission.end_time m]).
Proof.
  intros Hnd Hrefs. unfold times_are, Mission.read_waypoints.
  assert (exists h1,
            Mission.backfill h m = set_time h1 lastl (Mission.end_time m) /\
            Waypoint.time <$> deref h1 (Mission.waypoints m)
            = Some <$> loop_times h m) as (h1 & -> & Ht1).
  { assert (last (Mission.waypoints m) = Some lastl) as Hlast
      by (rewrite Hrefs; apply last_snoc).
    unfold Mission.backfill, loop_times. rewrite Hlast.
    case_decide as Htot.
    - eexists. split; [reflexivity|].
      apply (assign_evenly_spec _ _ _ _ _ _ Hnd).
    - destruct (Mission.waypoints m) as [|first rest] eqn:Hw.
      { destruct pre; discriminate. }
      apply NoDup_cons in Hnd as [Hfirst Hnd].
      eexists. split; [reflexivity|].
      set (total := Mission.path_distance_from h 0 (first :: rest)).
      set (T := total_seconds (Mission.end_time m - Mission.start_time m)).
      destruct (assign_by_distance_spec h rest
                  (set_time h first (Mission.start_time m))
                  first 0%R total (Mission.start_time m) T)
        as [Hframe Ht].
      { intros l. apply set_time_coords. }
      { exact Hnd. }
      unfold deref in *. cbn [fmap list_fmap]. rewrite Ht.
      rewrite Hframe by exact Hfirst. rewrite set_time_eq. reflexivity. }
  rewrite Hrefs in Ht1 |- *. rewrite Hrefs in Hnd.
  apply NoDup_app in Hnd as (_ & Hpre & _).
  destruct (overwrite_last h1 pre lastl (Mission.end_time m) (loop_times h m))
    as (pre_ts & x & Hts & Hl & Ht2).
  { intros Hin. apply (Hpre lastl Hin), list_elem_of_here. }
  { exact Ht1. }
  rewrite Ht2, Hts, <- Hl, take_app_length. reflexivity.
Qed.

(** X7.  When the back-fill runs on distinct waypoint objects, the last
    waypoint gets end_time, and every other waypoint i gets start_time plus
    the mission duration scaled by a fraction and rounded to the
    microsecond: the fraction is the path length up to waypoint i over the
    whole path length, or i / (n - 1) when the whole path length is
    zero. *)
Theorem init_assigns_proportional_times (h : store) (drone_id : string)
    (refs : list loc) (start end_ : Z) (h' : store) (m : Mission.t)
    (i : nat) (l : loc) :
  Mission.__init__ h drone_id refs start end_ = Ok (h', m) ->
  Mission.any_time_missing h refs = true ->
  NoDup refs ->
  refs !! i = Some l ->
  Waypoint.time (h' !!! l) =
  Some (if decide (i = length refs - 1)%nat then end_
        else if decide (Mission.get_path_length h m = 0%R)
        then start + timedelta_seconds
                       (total_seconds (end_ - start)
                        * (INR i / INR (length refs - 1)))
        else start + timedelta_seconds
                       (total_seconds (end_ - start)
                        * (Mission.path_distance_from h 0 (take (S i) refs)
                           / Mission.get_path_length h m))).
Proof.
  intros (_ & Hlen & _ & -> & ->)%init_inv Hany Hnd Hi.
  unfold Mission._assign_waypoint_times_if_needed.
  cbn [Mission.waypoints]. rewrite Hany.
  set (m := Mission.mk drone_id refs start end_).
  destruct (last refs) as [lastl|] eqn:Hlast.
  2:{ apply last_None in Hlast. subst refs. simpl in Hlen. lia. }
  apply last_Some in Hlast as [pre Hrefs].
  pose proof (backfill_times h m pre lastl Hnd Hrefs) as Ht.
  unfold times_are, Mission.read_waypoints, deref in Ht.
  apply (f_equal (fun ts => ts !! i)) in Ht.
  rewrite !list_lookup_fmap in Ht. cbn [Mission.waypoints m] in Ht.
  rewrite Hi in Ht. cbn [fmap option_fmap option_map] in Ht.
  assert (length refs = S (length pre)) as Hn
    by (rewrite Hrefs, length_app; simpl; lia).
  pose proof (lookup_lt_Some _ _ _ Hi) as Hilt.
  assert (length (take (length pre) (loop_times h m)) = length pre) as Htake.
  { rewrite length_take, length_loop_times. cbn [Mission.waypoints m]. lia. }
  case_decide as Hlast.
  - rewrite lookup_app_r in Ht by lia.
    rewrite Htake in Ht. replace (i - length pre)%nat with 0%nat in Ht by lia.
    cbn in Ht. congruence.
  - rewrite lookup_app_l in Ht by lia.
    rewrite lookup_take_lt in Ht by lia.
    unfold loop_times, Mission.get_path_length in *.
    cbn [Mission.waypoints Mission.start_time Mission.end_time m] in *.
    case_decide as Htot.
    + rewrite times_evenly_lookup in Ht by lia.
      rewrite decide_True in Ht by lia. cbn [Nat.add] in Ht.
      cbn [fmap option_fmap option_map] in Ht. congruence.
    + destruct refs as [|first rest]; [discriminate|].
      destruct i as [|i].
      * cbn in Ht. injection Ht as Ht. rewrite Ht. do 2 f_equal.
        cbn [take Mission.path_distance_from].
        unfold Rdiv. rewrite Rmult_0_l, Rmult_0_r.
        rewrite timedelta_seconds_0. lia.
      * cbn [lookup list_lookup] in Ht.
        change (_ !! i) with
          (times_by_distance h first rest 0
             (Mission.path_distance_from h 0 (first :: rest)) start
             (total_seconds (end_ - start)) !! i) in Ht.
        rewrite times_by_distance_lookup in Ht by (simpl in Hilt; lia).
        cbn [fmap option_fmap option_map] in Ht. injection Ht as Ht.
        rewrite Ht. reflexivity.
Qed.

Lemma init_assigns_proportional_times_witness :
  Waypoint.time
    (Mission._assign_waypoint_times_if_needed untimed_store untimed_mission
       !!! 1%positive) =
  Some (if decide (0 = length [1%positive; 2%positive] - 1)%nat
        then 600 * us_per_second
        else if decide (Mission.get_path_length untimed_store
                          untimed_mission = 0%R)
        then 0 + timedelta_seconds
                   (total_seconds (600 * us_per_second - 0)
                    * (INR 0 / INR (length [1%positive; 2%positive] - 1)))
        else 0 + timedelta_seconds
                   (total_seconds (600 * us_per_second - 0)
                    * (Mission.path_distance_from untimed_store 0
                         (take 1 [1%positive; 2%positive])
                       / Mission.get_path_length untimed_store
                           untimed_mission))).
Proof.
  apply (init_assigns_proportional_times untimed_store "DRONE_NO_TIMES"
           [1%positive; 2%positive] 0 (600 * us_per_second)
           (Mission._assign_waypoint_times_if_needed untimed_store
              untimed_mission) untimed_mission 0 1%positive).
  - apply init_accepts;
      [discriminate | simpl; lia | vm_compute; reflexivity].
  - reflexivity.
  - apply NoDup_cons. split; [|apply NoDup_singleton].
    intros H%list_elem_of_singleton. discriminate.
  - reflexivity.
Defined.

(** ** The sampling grid *)

Lemma grid_S (cur step : Z) (n : nat) :
  grid cur step (S n) = cur :: grid (cur + step) step n.
Proof.
  unfold grid. cbn [seq fmap list_fmap]. f_equal; [lia|].
  rewrite <- fmap_S_seq, <- list_fmap_compose.
  apply list_fmap_ext. intros i k _. cbn. lia.
Qed.

Lemma sample_loop_grid (n : nat) :
  forall (fuel : nat) ws idx cur end_ step path,
    timed ws -> (idx < length ws)%nat -> 0 < step ->
    end_ < cur + Z.of_nat n * step ->
    (n <> 0%nat -> cur + (Z.of_nat n - 1) * step <= end_) ->
    (n <= fuel)%nat ->
    exists path',
      sample_loop fuel ws idx cur end_ step path = Ok (path ++ path') /\
      times_are path' (grid cur step n).
Proof.
  induction n as [|n IH];
    intros fuel ws idx cur end_ step path Ht Hidx Hstep Hhi Hlo Hf;
    rewrite sample_loop_eq.
  - rewrite decide_False by lia. exists []. rewrite app_nil_r.
    split; reflexivity.
  - assert (cur <= end_) as Hc.
    { specialize (Hlo ltac:(lia)).
      assert (0 <= (Z.of_nat (S n) - 1) * step) by (apply Z.mul_nonneg_nonneg; lia).
      lia. }
    rewrite decide_True by exact Hc.
    destruct fuel as [|fuel]; [lia|].
    destruct (cursor_step_ok ws idx cur Ht Hidx) as (idx' & -> & Hb).
    bind_step.
    destruct (sample_at_ok ws idx' cur Ht) as (s & -> & Hs); [lia|].
    bind_step.
    assert (Z.of_nat (S n) * step = Z.of_nat n * step + step) as Hsucc
      by lia.
    destruct (IH fuel ws idx' (cur + step) end_ step (path ++ [s]))
      as (path' & -> & Hp'); try assumption; try lia.
    exists (s :: path'). rewrite <- app_assoc. split; [reflexivity|].
    rewrite grid_S. unfold times_are in *. cbn [fmap list_fmap].
    rewrite Hs, Hp'. reflexivity.
Qed.

Lemma grid_last (cur step : Z) (k : nat) :
  last (grid cur step (S k)) = Some (cur + Z.of_nat k * step).
Proof.
  unfold grid. rewrite seq_S, fmap_app. cbn [fmap list_fmap Nat.add].
  apply last_snoc.
Qed.

(** X8.  For an accepted mission and a step that rounds to at least one
    microsecond, the trajectory is stamped start_time, start_time + step,
    start_time + 2 step, ... up to the last such instant not after
    end_time, followed by end_time itself when end_time is not on that
    grid: floor(duration / step) + 1 samples, one more when the step does
    not divide the duration. *)
Theorem interpolate_sample_times (h : store) (m : Mission.t) (step : R)
    (fuel : nat) :
  accepted h m -> (0 < step)%R -> 0 < timedelta_seconds step ->
  (enough_fuel (Mission.start_time m) (Mission.end_time m)
     (timedelta_seconds step) <= fuel)%nat ->
  exists traj,
    interpolate_trajectory fuel h m step = Ok traj /\
    times_are traj
      (grid (Mission.start_time m) (timedelta_seconds step)
         (enough_fuel (Mission.start_time m) (Mission.end_time m)
            (timedelta_seconds step))
       ++ (if decide ((Mission.end_time m - Mission.start_time m)
                      `mod` timedelta_seconds step = 0)
           then [] else [Mission.end_time m])).
Proof.
  intros Ha Hstep Htd Hfuel. pose proof Ha as (_ & _ & Hse & _).
  pose proof (accepted_timed _ _ Ha) as Ht.
  pose proof (accepted_length _ _ Ha) as Hlen.
  set (s := timedelta_seconds step) in *.
  set (start := Mission.start_time m) in *.
  set (end_ := Mission.end_time m) in *.
  set (q := (end_ - start) / s).
  assert (0 <= q) as Hq by (apply Z.div_pos; lia).
  assert (enough_fuel start end_ s = S (Z.to_nat q)) as Hn.
  { unfold enough_fuel. fold q. rewrite Z2Nat.inj_add by lia. simpl. lia. }
  pose proof (Z.div_mod (end_ - start) s ltac:(lia)) as Hdm. fold q in Hdm.
  pose proof (Z.mod_pos_bound (end_ - start) s Htd) as Hmod.
  unfold interpolate_trajectory.
  rewrite decide_False by lra. rewrite decide_False by lia.
  fold s start end_.
  destruct (sample_loop_grid (enough_fuel start end_ s) fuel
              (Mission.read_waypoints h m) 0%nat start end_ s [])
    as (path & -> & Hpath); try assumption; try lia;
    try (intros; rewrite Hn, Nat2Z.inj_succ, Z2Nat.id by lia; lia).
  cbn [app]. bind_step.
  assert (exists lst, last path = Some lst /\
                      Waypoint.time lst = Some (start + q * s))
    as (lst & Hlast & Hlt).
  { unfold times_are in Hpath. apply (f_equal last) in Hpath.
    rewrite !fmap_last, Hn, grid_last, Z2Nat.id in Hpath by lia.
    destruct (last path) as [lst|]; [|discriminate].
    injection Hpath as Hpath. eauto. }
  unfold needs_final. rewrite Hlast, (get_time_Ok _ _ Hlt). bind_step.
  case_decide as Hdiv.
  - rewrite bool_decide_eq_false_2 by lia.
    eexists. split; [reflexivity|]. rewrite app_nil_r. exact Hpath.
  - rewrite bool_decide_eq_true_2 by lia.
    destruct (cursor_step_ok (Mission.read_waypoints h m) 0 end_ Ht
                ltac:(lia)) as (idx & Hidx & Hb).
    rewrite Hidx. bind_step.
    destruct (sample_at_ok (Mission.read_waypoints h m) idx end_ Ht
                ltac:(lia)) as (sf & -> & Hsf).
    bind_step. eexists. split; [reflexivity|].
    unfold times_are in *. rewrite !fmap_app, Hpath.
    cbn [fmap list_fmap]. rewrite Hsf. reflexivity.
Qed.

Lemma interpolate_sample_times_witness :
  exists traj,
    interpolate_trajectory 301 (line_store 0) (line_mission 0) 1 = Ok traj /\
    times_are traj
      (grid 0 (timedelta_seconds 1)
         (enough_fuel 0 (0 + 300 * us_per_second) (timedelta_seconds 1))
       ++ (if decide ((0 + 300 * us_per_second - 0)
                      `mod` timedelta_seconds 1 = 0)
           then [] else [0 + 300 * us_per_second])).
Proof.
  apply (interpolate_sample_times (line_store 0) (line_mission 0) 1 301).
  - apply line_accepted.
  - lra.
  - rewrite timedelta_one_second. reflexivity.
  - rewrite timedelta_one_second. vm_compute. lia.
Defined.

(** ** Where samples and positions lie *)

Lemma coords_lerp (wp1 wp2 : Waypoint.t) (a : R) (tm : Z) :
  coords (lerp wp1 wp2 a tm) = blend (coords wp1) (coords wp2) a.
Proof. reflexivity. Qed.

Lemma coords_stamped (w : Waypoint.t) (tm : Z) :
  coords (stamped w tm) = coords w.
Proof. reflexivity. Qed.

Lemma all_in_lookup P ws (i : nat) (w : Waypoint.t) :
  all_in P ws -> ws !! i = Some w -> P (coords w).
Proof.
  intros H Hi. unfold all_in in H. rewrite Forall_forall in H.
  apply H. eapply list_elem_of_lookup_2, Hi.
Qed.

Lemma total_seconds_fraction (a b : Z) :
  0 <= a <= b -> 0 < b ->
  (0 <= total_seconds a / total_seconds b <= 1)%R.
Proof.
  intros [Ha Hab] Hb. rewrite total_seconds_ratio by lia.
  apply IZR_le in Ha, Hab. apply IZR_lt in Hb.
  split.
  - apply Rmult_le_pos; [exact Ha|]. apply Rlt_le, Rinv_0_lt_compat, Hb.
  - apply (Rmult_le_reg_r (IZR b)); [exact Hb|].
    unfold Rdiv. rewrite Rmult_assoc, Rinv_l by lra. lra.
Qed.

(** *** Samples *)

Lemma sample_at_affine P ws idx tm s :
  affine_set P -> all_in P ws ->
  sample_at ws idx tm = Ok s -> P (coords s).
Proof.
  intros HP Hws. unfold sample_at.
  destruct (ws !! idx) as [wp1|] eqn:H1; [|discriminate].
  case_decide.
  { intros [= <-]. rewrite coords_stamped.
    exact (all_in_lookup P ws idx wp1 Hws H1). }
  destruct (ws !! S idx) as [wp2|] eqn:H2; [|discriminate].
  destruct (Waypoint.get_time wp2); try discriminate. bind_step.
  destruct (Waypoint.get_time wp1); try discriminate. bind_step.
  case_decide; intros [= <-].
  - rewrite coords_stamped. exact (all_in_lookup P ws _ wp2 Hws H2).
  - rewrite coords_lerp.
    apply HP; [exact (all_in_lookup P ws _ wp1 Hws H1)
              | exact (all_in_lookup P ws _ wp2 Hws H2)].
Qed.

Lemma sample_loop_affine P (fuel : nat) :
  forall ws idx cur end_ step path out,
    affine_set P -> all_in P ws -> all_in P path ->
    sample_loop fuel ws idx cur end_ step path = Ok out -> all_in P out.
Proof.
  induction fuel as [|fuel IH];
    intros ws idx cur end_ step path out HP Hws Hpath;
    rewrite sample_loop_eq; case_decide; try discriminate;
    try (intros [= <-]; exact Hpath).
  destruct (advance_cursor _ _ _) as [idx'| |]; try discriminate.
  bind_step.
  destruct (sample_at ws idx' cur) as [s| |] eqn:Hs; try discriminate.
  bind_step. apply IH; try assumption.
  apply Forall_app. split; [exact Hpath|].
  constructor; [|constructor].
  exact (sample_at_affine P ws idx' cur s HP Hws Hs).
Qed.

Lemma static_loop_affine P (fuel : nat) :
  forall wp0 cur end_ step path out,
    P (coords wp0) -> all_in P path ->
    static_loop fuel wp0 cur end_ step path = Ok out -> all_in P out.
Proof.
  induction fuel as [|fuel IH]; intros wp0 cur end_ step path out H0 Hpath;
    cbn [static_loop]; case_decide; try discriminate;
    try (intros [= <-]; exact Hpath).
  apply IH; [exact H0|]. apply Forall_app. split; [exact Hpath|].
  constructor; [exact H0 | constructor].
Qed.

Lemma interpolate_affine (P : R * R * R -> Prop) (fuel : nat)
    (h : store) (m : Mission.t) (step : R) (traj : list Waypoint.t) :
  affine_set P ->
  all_in P (Mission.read_waypoints h m) ->
  interpolate_trajectory fuel h m step = Ok traj ->
  all_in P traj.
Proof.
  intros HP Hws. unfold interpolate_trajectory.
  case_decide; [discriminate|]. case_decide.
  - destruct (Mission.read_waypoints h m) as [|wp0 rest] eqn:Hw.
    { intros [= <-]. constructor. }
    apply Forall_cons in Hws as [Hwp0 _].
    destruct (static_loop _ _ _ _ _ _) as [path| |] eqn:Hp;
      try discriminate. bind_step.
    apply static_loop_affine with (P := P) in Hp;
      [|exact Hwp0 | constructor].
    destruct (needs_final _ _) as [[|]| |]; try discriminate;
      bind_step; intros [= <-]; [|exact Hp].
    apply Forall_app. split; [exact Hp|].
    constructor; [exact Hwp0 | constructor].
  - destruct (sample_loop _ _ _ _ _ _ _) as [path| |] eqn:Hp;
      try discriminate. bind_step.
    apply sample_loop_affine with (P := P) in Hp;
      [|exact HP | exact Hws | constructor].
    destruct (needs_final _ _) as [[|]| |]; try discriminate;
      bind_step; [|intros [= <-]; exact Hp].
    destruct (advance_cursor _ _ _) as [idx| |]; try discriminate.
    bind_step.
    destruct (sample_at _ idx _) as [s| |] eqn:Hs; try discriminate.
    bind_step. intros [= <-].
    apply Forall_app. split; [exact Hp|].
    constructor; [|constructor].
    exact (sample_at_affine P _ idx _ s HP Hws Hs).
Qed.

Lemma coordinate_plane_affine (ax : axis) (c : R) :
  affine_set (fun p => coordinate ax p = c).
Proof.
  intros c1 c2 a H1 H2. unfold blend.
  destruct ax; cbn [coordinate fst snd] in *; rewrite H1, H2; ring.
Qed.

(** X9.  A coordinate that all waypoints of a mission share is the
    coordinate of every sample of its trajectory, for any waypoint times
    and any step: a mission flown at one altitude is sampled at that
    altitude, and a mission whose waypoints coincide is sampled at that
    one place. *)
Theorem samples_keep_shared_coordinate (ax : axis) (c : R) (fuel : nat)
    (h : store) (m : Mission.t) (step : R) (traj : list Waypoint.t) :
  Forall (fun w => coordinate ax (coords w) = c)
    (Mission.read_waypoints h m) ->
  interpolate_trajectory fuel h m step = Ok traj ->
  Forall (fun s => coordinate ax (coords s) = c) traj.
Proof.
  intros Hws Htraj.
  exact (interpolate_affine (fun p => coordinate ax p = c) fuel h m step
           traj (coordinate_plane_affine ax c) Hws Htraj).
Qed.

Lemma samples_keep_shared_coordinate_witness :
  exists traj,
    interpolate_trajectory 301 (line_store 0) (line_mission 0) 1 = Ok traj /\
    Forall (fun s => coordinate Y_axis (coords s) = 0%R) traj.
Proof.
  destruct (interpolate_default_ok (line_store 0) (line_mission 0) 301
              (line_accepted 0)) as (traj & Htraj & _).
  { vm_compute. lia. }
  exists traj. split; [exact Htraj|].
  apply (samples_keep_shared_coordinate Y_axis 0 301 (line_store 0)
           (line_mission 0) 1 traj).
  - rewrite line_waypoints.
    constructor; [reflexivity|]. constructor; [reflexivity | constructor].
  - exact Htraj.
Defined.

(** *** Positions *)

Lemma get_time_inv (w : Waypoint.t) (tm : Z) :
  Waypoint.get_time w = Ok tm -> Waypoint.time w = Some tm.
Proof.
  unfold Waypoint.get_time. destruct (Waypoint.time w); [|discriminate].
  intros [= ->]. reflexivity.
Qed.

Lemma find_segment_inv (ws : list Waypoint.t) (q : Z) (a b : Waypoint.t) :
  find_segment ws q = Ok (Some (a, b)) ->
  a ∈ ws /\ b ∈ ws /\
  exists ta tb, Waypoint.time a = Some ta /\ Waypoint.time b = Some tb /\
                ta <= q <= tb.
Proof.
  induction ws as [|u ws IH]; [discriminate|].
  destruct ws as [|v ws]; [discriminate|].
  rewrite find_segment_cons2.
  assert (find_segment (v :: ws) q = Ok (Some (a, b)) ->
          a ∈ u :: v :: ws /\ b ∈ u :: v :: ws /\
          exists ta tb, Waypoint.time a = Some ta /\
                        Waypoint.time b = Some tb /\ ta <= q <= tb) as Hrec.
  { intros (Ha & Hb & Ht)%IH.
    split; [apply list_elem_of_further, Ha|].
    split; [apply list_elem_of_further, Hb | exact Ht]. }
  destruct (Waypoint.get_time u) as [tu| |] eqn:Hu; try discriminate.
  apply get_time_inv in Hu. bind_step.
  case_decide; [|exact Hrec].
  destruct (Waypoint.get_time v) as [tv| |] eqn:Hv; try discriminate.
  apply get_time_inv in Hv. bind_step.
  case_decide; [|exact Hrec].
  intros [= <- <-]. split; [apply list_elem_of_here|].
  split; [apply list_elem_of_further, list_elem_of_here|].
  exists tu, tv. auto.
Qed.

Lemma position_convex (P : R * R * R -> Prop) (h : store)
    (m : Mission.t) (q : Z) (w : Waypoint.t) :
  convex_set P ->
  all_in P (Mission.read_waypoints h m) ->
  get_position_at_time h m q = Ok (Some w) ->
  P (coords w).
Proof.
  intros HP Hws. unfold get_position_at_time.
  destruct (negb _); [discriminate|].
  destruct (Mission.read_waypoints h m) as [|first rest] eqn:Hw;
    [discriminate|]. cbv beta match.
  assert (P (coords first)) as Hfirst
    by (apply Forall_cons in Hws as [H _]; exact H).
  assert (P (coords (default first (last (first :: rest))))) as Hlast.
  { destruct (last (first :: rest)) as [lst|] eqn:Hl; [|exact Hfirst].
    unfold all_in in Hws. rewrite Forall_forall in Hws.
    apply Hws. eapply last_Some_elem_of, Hl. }
  destruct (find_segment (first :: rest) q) as [seg| |] eqn:Hseg;
    try discriminate. bind_step.
  case_decide; [intros [= <-]; exact Hlast|].
  case_decide; [intros [= <-]; exact Hfirst|].
  destruct seg as [[wp1 wp2]|]; [|intros [= <-]; exact Hlast].
  apply find_segment_inv in Hseg
    as (H1 & H2 & ta & tb & Hta & Htb & Hq).
  unfold all_in in Hws. rewrite Forall_forall in Hws.
  rewrite (get_time_Ok _ _ Htb), (get_time_Ok _ _ Hta). bind_step.
  case_decide as Hd; intros [= <-]; [apply Hws, H1|].
  rewrite coords_lerp. apply HP; [|apply Hws, H1 | apply Hws, H2].
  apply total_seconds_fraction; [lia|].
  destruct (decide (0 < tb - ta)) as [Hpos|Hneg]; [exact Hpos|].
  exfalso. apply Hd. apply total_seconds_le_0. lia.
Qed.

(** X10.  A coordinate that all waypoints of a mission share is the
    coordinate of every position [get_position_at_time] returns: a mission
    flown at one altitude is at that altitude at every queried time. *)
Theorem position_keeps_shared_coordinate (ax : axis) (c : R) (h : store)
    (m : Mission.t) (q : Z) (w : Waypoint.t) :
  Forall (fun u => coordinate ax (coords u) = c)
    (Mission.read_waypoints h m) ->
  get_position_at_time h m q = Ok (Some w) ->
  coordinate ax (coords w) = c.
Proof.
  intros Hws Hw.
  apply (position_convex (fun p => coordinate ax p = c) h m q w);
    [|exact Hws | exact Hw].
  intros c1 c2 a _. apply coordinate_plane_affine.
Qed.

Lemma position_keeps_shared_coordinate_witness :
  coordinate Y_axis
    (coords (Waypoint.mk 50 0 0 (Some (0 + 150 * us_per_second)))) = 0%R.
Proof.
  apply (position_keeps_shared_coordinate Y_axis 0 (line_store 0)
           (line_mission 0) (0 + 150 * us_per_second)).
  - rewrite line_waypoints.
    constructor; [reflexivity|]. constructor; [reflexivity | constructor].
  - apply line_midpoint.
Defined.

(** *** The cursor of the sampling loop *)

Lemma advance_cursor_inv (rest : list Waypoint.t) :
  forall (idx idx' : nat) (tm : Z),
    advance_cursor rest idx tm = Ok idx' ->
    (idx <= idx' <= idx + length rest)%nat /\
    (forall j w, (j < idx' - idx)%nat -> rest !! j = Some w ->
                 exists t, Waypoint.time w = Some t /\ t <= tm) /\
    (forall w, rest !! (idx' - idx)%nat = Some w ->
               exists t, Waypoint.time w = Some t /\ tm < t).
Proof.
  induction rest as [|u rest IH]; intros idx idx' tm; cbn [advance_cursor].
  - intros [= <-]. split; [simpl; lia|]. split; [intros; lia|].
    intros w H. rewrite lookup_nil in H. discriminate.
  - destruct (Waypoint.get_time u) as [tu| |] eqn:Hu; try discriminate.
    apply get_time_inv in Hu. bind_step.
    case_decide as Hle.
    + intros (Hb & Hpast & Hnext)%IH. split; [simpl; lia|].
      replace (idx' - idx)%nat with (S (idx' - S idx)) by lia. split.
      * intros [|j] w Hj Hw; cbn in Hw.
        -- injection Hw as <-. eauto.
        -- apply (Hpast j); [lia | exact Hw].
      * intros w Hw. cbn in Hw. apply Hnext, Hw.
    + intros [= <-]. split; [simpl; lia|]. rewrite Nat.sub_diag.
      split; [intros; lia|]. intros w Hw. cbn in Hw. injection Hw as <-.
      exists tu. split; [exact Hu | lia].
Qed.

Lemma cursor_step_inv (ws : list Waypoint.t) (idx idx' : nat) (tm : Z) :
  advance_cursor (drop (S idx) ws) idx tm = Ok idx' ->
  (forall w, ws !! idx = Some w ->
             exists t, Waypoint.time w = Some t /\ t <= tm) ->
  (forall w, ws !! idx' = Some w ->
             exists t, Waypoint.time w = Some t /\ t <= tm) /\
  (forall w, ws !! S idx' = Some w ->
             exists t, Waypoint.time w = Some t /\ tm < t).
Proof.
  intros (Hb & Hpast & Hnext)%advance_cursor_inv Hidx. split.
  - intros w Hw. destruct (decide (idx' = idx)) as [->|Hne]; [auto|].
    apply (Hpast (idx' - idx - 1)%nat); [lia|].
    rewrite lookup_drop. rewrite <- Hw. f_equal. lia.
  - intros w Hw. apply Hnext. rewrite lookup_drop, <- Hw. f_equal. lia.
Qed.

Lemma timedelta_seconds_nonneg (s : R) :
  (0 <= s)%R -> 0 <= timedelta_seconds s.
Proof.
  intros Hs. rewrite <- timedelta_seconds_0.
  apply timedelta_seconds_mono, Hs.
Qed.

Lemma find_segment_none (ws : list Waypoint.t) (q : Z) :
  timed ws -> find_segment ws q = Ok None ->
  forall first tf lst tl,
    head ws = Some first -> Waypoint.time first = Some tf -> tf <= q ->
    last ws = Some lst -> Waypoint.time lst = Some tl -> tl <= q.
Proof.
  induction ws as [|a ws IH]; intros Ht Hnone first tf lst tl Hhd Htf Hq Hl Htl;
    [discriminate|].
  injection Hhd as <-.
  destruct ws as [|b ws].
  - cbn in Hl. injection Hl as <-. rewrite Htf in Htl. injection Htl as <-.
    exact Hq.
  - apply timed_cons_inv in Ht as [_ Ht].
    pose proof Ht as [[tb Htb] _]%timed_cons_inv.
    rewrite find_segment_cons2 in Hnone.
    rewrite (get_time_Ok _ _ Htf) in Hnone. bind_step.
    cbn [mbind outcome_bind] in Hnone.
    rewrite decide_True in Hnone by exact Hq.
    rewrite (get_time_Ok _ _ Htb) in Hnone.
    cbn [mbind outcome_bind] in Hnone.
    destruct (decide (q <= tb)) as [Hle|Hgt]; [discriminate|].
    rewrite last_cons_cons in Hl.
    apply (IH Ht Hnone b tb lst tl); try assumption; try reflexivity. lia.
Qed.

(** X12.  For an accepted mission, a query time inside the mission window
    and between the times of the first and the last waypoint yields a
    position that carries the query time as its timestamp. *)
Theorem position_carries_query_time (h : store) (m : Mission.t) (q : Z)
    (first lst : Waypoint.t) (tf tl : Z) :
  accepted h m ->
  head (Mission.read_waypoints h m) = Some first ->
  last (Mission.read_waypoints h m) = Some lst ->
  Waypoint.time first = Some tf -> Waypoint.time lst = Some tl ->
  tf <= q <= tl ->
  Mission.start_time m <= q <= Mission.end_time m ->
  exists w,
    get_position_at_time h m q = Ok (Some w) /\ Waypoint.time w = Some q.
Proof.
  intros Ha Hhd Hl Htf Htl Hq Hwin.
  pose proof (accepted_timed _ _ Ha) as Ht.
  unfold get_position_at_time.
  rewrite !bool_decide_eq_true_2 by lia. cbn [andb negb].
  destruct (Mission.read_waypoints h m) as [|first' rest] eqn:Hw;
    [discriminate|].
  injection Hhd as ->. cbv beta match.
  destruct (find_segment_timed _ q Ht) as (r & Hr & Hseg).
  rewrite Hr. bind_step. rewrite Hl.
  change (default first (Some lst)) with lst.
  case_decide as Hlq; [eauto|].
  case_decide as Hfq; [eauto|].
  destruct r as [[wp1 wp2]|].
  - destruct Hseg as (ta & tb & Hta & Htb & Hab).
    rewrite (get_time_Ok _ _ Htb), (get_time_Ok _ _ Hta). bind_step.
    case_decide as Hd.
    + apply total_seconds_le_0 in Hd.
      exists wp1. split; [reflexivity|]. rewrite Hta. f_equal. lia.
    + eexists. split; reflexivity.
  - exfalso. apply Hlq. rewrite Htl. f_equal.
    pose proof (find_segment_none _ q Ht Hr first tf lst tl eq_refl Htf
                  ltac:(lia) Hl Htl). lia.
Qed.

Lemma position_carries_query_time_witness :
  exists w,
    get_position_at_time (line_store 0) (line_mission 0)
      (150 * us_per_second) = Ok (Some w) /\
    Waypoint.time w = Some (150 * us_per_second).
Proof.
  apply (position_carries_query_time (line_store 0) (line_mission 0)
           (150 * us_per_second) (Waypoint.mk 0 0 0 (Some 0))
           (Waypoint.mk 100 0 0 (Some (0 + 300 * us_per_second)))
           0 (0 + 300 * us_per_second)).
  - apply line_accepted.
  - reflexivity.
  - reflexivity.
  - reflexivity.
  - reflexivity.
  - vm_compute. split; discriminate.
  - vm_compute. split; discriminate.
Defined.

(** ** More on the Spatial Scanner *)

Lemma scan_row_filter (p : Waypoint.t) (sim : list Waypoint.t) (buffer : R) :
  is_Some (Waypoint.time p) -> timed sim ->
  forall acc,
    scan_row p sim buffer acc
    = Ok (acc ++ List.filter (candidate_test buffer) (pair p <$> sim)).
Proof.
  intros [tp Htp]. induction sim as [|s sim IH]; intros Ht acc.
  - cbn. rewrite app_nil_r. reflexivity.
  - apply timed_cons_inv in Ht as [[ts Hts] Hsim].
    cbn [scan_row]. rewrite (get_time_Ok _ _ Htp), (get_time_Ok _ _ Hts).
    bind_step. rewrite IH by exact Hsim.
    cbn [fmap list_fmap List.filter].
    unfold candidate_test at 2. cbn [fst snd]. rewrite Htp, Hts.
    destruct (decide (Rabs (total_seconds (tp - ts)) < buffer * 2)%R)
      as [Hgap|Hgap];
      [destruct (decide (calculate_distance p s < buffer)%R) as [Hd|Hd]|].
    + rewrite !bool_decide_eq_true_2 by assumption. cbn [andb].
      rewrite <- app_assoc. reflexivity.
    + rewrite (bool_decide_eq_false_2 (calculate_distance p s < buffer)%R)
        by assumption.
      rewrite andb_false_r. reflexivity.
    + rewrite (bool_decide_eq_false_2 _ Hgap). reflexivity.
Qed.

Lemma scan_filter (prim sim : list Waypoint.t) (buffer : R) :
  timed prim -> timed sim ->
  forall acc,
    scan prim sim buffer acc
    = Ok (acc ++ List.filter (candidate_test buffer) (list_prod prim sim)).
Proof.
  intros Hp Hs. induction prim as [|p prim IH]; intros acc.
  - cbn. rewrite app_nil_r. reflexivity.
  - apply Forall_cons in Hp as [Hp0 Hp]. cbn [scan list_prod].
    rewrite (scan_row_filter p sim buffer Hp0 Hs). bind_step.
    rewrite IH by exact Hp.
    rewrite List.filter_app, <- app_assoc. reflexivity.
Qed.

(** X13.  On timed trajectories and a positive buffer the Scanner returns
    the pairs of the cross product that pass its two tests, in the order of
    the cross product (primary sample by primary sample) and each as often
    as it occurs there; so it returns at most |primary| * |simulated|
    pairs. *)
Theorem scanner_filters_cross_product (ida idb : string)
    (prim sim : list Waypoint.t) (buffer : R) :
  timed prim -> timed sim -> (0 < buffer)%R ->
  check_spatial_proximity ida prim idb sim buffer
  = Ok (List.filter (candidate_test buffer) (list_prod prim sim)) /\
  (length (List.filter (candidate_test buffer) (list_prod prim sim))
   <= length prim * length sim)%nat.
Proof.
  intros Hp Hs Hb. split.
  - unfold check_spatial_proximity. rewrite decide_False by lra.
    apply (scan_filter prim sim buffer Hp Hs []).
  - rewrite <- length_prod. apply List.filter_length_le.
Qed.

Lemma scanner_filters_cross_product_witness :
  check_spatial_proximity "A" [origin_sample] "B"
    [near_sample] 10
  = Ok (List.filter (candidate_test 10)
          (list_prod [origin_sample]
             [near_sample])) /\
  (length (List.filter (candidate_test 10)
             (list_prod [origin_sample]
                [near_sample]))
   <= length [origin_sample]
      * length [near_sample])%nat.
Proof.
  apply (scanner_filters_cross_product "A" "B"
           [origin_sample] [near_sample] 10).
  - repeat constructor. simpl. eauto.
  - repeat constructor. simpl. eauto.
  - lra.
Defined.

Lemma candidate_sym (buffer : R) (a b : Waypoint.t) :
  candidate buffer a b -> candidate buffer b a.
Proof.
  intros [(ta & tb & Hta & Htb & Hgap) Hd]. split.
  - exists tb, ta. split; [exact Htb|]. split; [exact Hta|].
    replace (tb - ta) with (- (ta - tb)) by lia.
    unfold total_seconds in *. rewrite opp_IZR.
    unfold Rdiv in *. rewrite Ropp_mult_distr_l_reverse, Rabs_Ropp.
    exact Hgap.
  - unfold calculate_distance in *.
    replace ((Waypoint.x b - Waypoint.x a) ^ 2
             + (Waypoint.y b - Waypoint.y a) ^ 2
             + (Waypoint.z b - Waypoint.z a) ^ 2)%R
      with ((Waypoint.x a - Waypoint.x b) ^ 2
            + (Waypoint.y a - Waypoint.y b) ^ 2
            + (Waypoint.z a - Waypoint.z b) ^ 2)%R by ring.
    exact Hd.
Qed.

(** X14.  The Scanner treats its two trajectories alike: on timed
    trajectories and a positive buffer, (a, b) is a candidate of the scan
    of the first against the second exactly when (b, a) is a candidate of
    the scan of the second against the first. *)
Theorem scanner_is_symmetric (ida idb : string)
    (prim sim : list Waypoint.t) (buffer : R) :
  timed prim -> timed sim -> (0 < buffer)%R ->
  exists found found',
    check_spatial_proximity ida prim idb sim buffer = Ok found /\
    check_spatial_proximity idb sim ida prim buffer = Ok found' /\
    forall a b, (a, b) ∈ found <-> (b, a) ∈ found'.
Proof.
  intros Hp Hs Hb.
  destruct (check_spatial_proximity_spec ida idb prim sim buffer Hp Hs Hb)
    as (found & Hf & Hiff).
  destruct (check_spatial_proximity_spec idb ida sim prim buffer Hs Hp Hb)
    as (found' & Hf' & Hiff').
  exists found, found'. split; [exact Hf|]. split; [exact Hf'|].
  intros a b. rewrite Hiff, Hiff'. split.
  - intros (Ha & Hb' & Hc). auto using candidate_sym.
  - intros (Ha & Hb' & Hc). auto using candidate_sym.
Qed.

Lemma scanner_is_symmetric_witness :
  exists found found',
    check_spatial_proximity "A" [origin_sample] "B"
      [near_sample] 10 = Ok found /\
    check_spatial_proximity "B" [near_sample] "A"
      [origin_sample] 10 = Ok found' /\
    forall a b, (a, b) ∈ found <-> (b, a) ∈ found'.
Proof.
  apply (scanner_is_symmetric "A" "B" [origin_sample]
           [near_sample] 10).
  - repeat constructor. simpl. eauto.
  - repeat constructor. simpl. eauto.
  - lra.
Defined.

(** X15.  A larger buffer never loses a candidate: on timed trajectories,
    every pair the Scanner reports for a positive buffer it also reports
    for any larger buffer. *)
Theorem scanner_is_monotone_in_buffer (ida idb : string)
    (prim sim : list Waypoint.t) (buffer buffer' : R) :
  timed prim -> timed sim -> (0 < buffer)%R -> (buffer <= buffer')%R ->
  exists found found',
    check_spatial_proximity ida prim idb sim buffer = Ok found /\
    check_spatial_proximity ida prim idb sim buffer' = Ok found' /\
    forall ab, ab ∈ found -> ab ∈ found'.
Proof.
  intros Hp Hs Hb Hle.
  destruct (check_spatial_proximity_spec ida idb prim sim buffer Hp Hs Hb)
    as (found & Hf & Hiff).
  destruct (check_spatial_proximity_spec ida idb prim sim buffer' Hp Hs
              ltac:(lra)) as (found' & Hf' & Hiff').
  exists found, found'. split; [exact Hf|]. split; [exact Hf'|].
  intros [a b]. rewrite Hiff, Hiff'.
  intros (Ha & Hb' & (ta & tb & Hta & Htb & Hgap) & Hd).
  split; [exact Ha|]. split; [exact Hb'|]. split.
  - exists ta, tb. split; [exact Hta|]. split; [exact Htb | lra].
  - lra.
Qed.

Lemma scanner_is_monotone_in_buffer_witness :
  exists found found',
    check_spatial_proximity "A" [origin_sample] "B"
      [near_sample] 10 = Ok found /\
    check_spatial_proximity "A" [origin_sample] "B"
      [near_sample] 20 = Ok found' /\
    forall ab, ab ∈ found -> ab ∈ found'.
Proof.
  apply (scanner_is_monotone_in_buffer "A" "B" [origin_sample]
           [near_sample] 10 20).
  - repeat constructor. simpl. eauto.
  - repeat constructor. simpl. eauto.
  - lra.
  - lra.
Defined.

Lemma get_time_None (w : Waypoint.t) :
  Waypoint.time w = None -> Waypoint.get_time w = Raise TypeError.
Proof. unfold Waypoint.get_time. intros ->. reflexivity. Qed.

Lemma scan_row_untimed_primary (p s : Waypoint.t) (sim : list Waypoint.t)
    (buffer : R) acc :
  Waypoint.time p = None ->
  scan_row p (s :: sim) buffer acc = Raise TypeError.
Proof.
  intros Hp. cbn [scan_row]. rewrite (get_time_None _ Hp). reflexivity.
Qed.

Lemma scan_row_untimed_simulated (p : Waypoint.t) (sim : list Waypoint.t)
    (buffer : R) :
  is_Some (Waypoint.time p) -> ~ timed sim ->
  forall acc, scan_row p sim buffer acc = Raise TypeError.
Proof.
  intros [tp Htp]. induction sim as [|s sim IH]; intros Hs acc.
  - exfalso. apply Hs. constructor.
  - cbn [scan_row]. rewrite (get_time_Ok _ _ Htp). bind_step.
    destruct (Waypoint.time s) as [ts|] eqn:Hts;
      [|rewrite (get_time_None _ Hts); reflexivity].
    rewrite (get_time_Ok _ _ Hts). bind_step.
    apply IH. intros Hsim. apply Hs.
    constructor; [exists ts; exact Hts | exact Hsim].
Qed.

Lemma scan_untimed (prim sim : list Waypoint.t) (buffer : R) :
  prim <> [] -> sim <> [] -> ~ (timed prim /\ timed sim) ->
  forall acc, scan prim sim buffer acc = Raise TypeError.
Proof.
  intros Hp Hs Hnot.
  destruct (decide (timed sim)) as [Hts|Hts].
  - assert (~ timed prim) as Hnp by tauto. clear Hnot Hp.
    induction prim as [|p prim IH]; intros acc.
    + exfalso. apply Hnp. constructor.
    + cbn [scan].
      destruct (Waypoint.time p) as [tp|] eqn:Htp.
      * assert (is_Some (Waypoint.time p)) as Hsome
          by (rewrite Htp; eauto).
        destruct (scan_row_spec p sim buffer Hsome Hts acc)
          as (row & -> & _).
        bind_step. apply IH. intros Hprim. apply Hnp.
        constructor; [exact Hsome | exact Hprim].
      * destruct sim as [|s sim]; [congruence|].
        rewrite scan_row_untimed_primary by exact Htp. reflexivity.
  - destruct prim as [|p prim]; [congruence|]. intros acc. cbn [scan].
    destruct (Waypoint.time p) as [tp|] eqn:Htp.
    + rewrite scan_row_untimed_simulated;
        [reflexivity | rewrite Htp; eauto | exact Hts].
    + destruct sim as [|s sim]; [congruence|].
      rewrite scan_row_untimed_primary by exact Htp. reflexivity.
Qed.

(** X16.  The Scanner rejects a buffer that is not positive with ValueError
    before it looks at the trajectories.  With a positive buffer, an empty
    trajectory on either side gives the empty list whatever the other side
    holds, and two non-empty trajectories of which some sample has no time
    raise TypeError. *)
Theorem scanner_edge_cases (ida idb : string) (prim sim : list Waypoint.t)
    (buffer : R) :
  ((buffer <= 0)%R ->
   check_spatial_proximity ida prim idb sim buffer = Raise ValueError) /\
  ((0 < buffer)%R -> prim = [] \/ sim = [] ->
   check_spatial_proximity ida prim idb sim buffer = Ok []) /\
  ((0 < buffer)%R -> prim <> [] -> sim <> [] ->
   ~ (timed prim /\ timed sim) ->
   check_spatial_proximity ida prim idb sim buffer = Raise TypeError).
Proof.
  unfold check_spatial_proximity. split; [|split].
  - intros Hb. rewrite decide_True by exact Hb. reflexivity.
  - intros Hb Hempty. rewrite decide_False by lra.
    destruct Hempty as [-> | ->]; [reflexivity|].
    induction prim as [|p prim IH]; [reflexivity|]. exact IH.
  - intros Hb Hp Hs Hnot. rewrite decide_False by lra.
    apply scan_untimed; assumption.
Qed.

Lemma scanner_edge_cases_witness :
  check_spatial_proximity "A" [Waypoint.mk 0 0 0 None] "B" [] 10 = Ok [] /\
  check_spatial_proximity "A" [Waypoint.mk 0 0 0 None] "B" [near_sample] 10
  = Raise TypeError.
Proof.
  destruct (scanner_edge_cases "A" "B" [Waypoint.mk 0 0 0 None] [] 10)
    as (_ & Hempty & _).
  destruct (scanner_edge_cases "A" "B" [Waypoint.mk 0 0 0 None]
              [near_sample] 10) as (_ & _ & Huntimed).
  split.
  - apply Hempty; [lra | right; reflexivity].
  - apply Huntimed; [lra | discriminate | discriminate |].
    intros [Ht _]. apply Forall_cons in Ht as [[tm Htm] _]. discriminate.
Defined.

(** ** More on the Temporal Refiner *)

Section refiner_more.
Context {rendering : Rendering}.

Lemma check_loop_sound (fuel : nat) :
  forall h pm sm buffer cur limit c,
    check_loop fuel h pm sm buffer cur limit = Ok (Some c) ->
    exists pp ps,
      cur <= Conflict.time c <= limit /\
      breach h pm sm buffer (Conflict.time c) pp ps /\
      c = conflict_at pm sm (Conflict.time c) pp ps.
Proof.
  induction fuel as [|fuel IH]; intros h pm sm buffer cur limit c;
    rewrite check_loop_eq; case_decide as Hc; try discriminate.
  assert (forall c',
            check_loop fuel h pm sm buffer (cur + 1 * us_per_second) limit
            = Ok (Some c') ->
            exists pp ps,
              cur <= Conflict.time c' <= limit /\
              breach h pm sm buffer (Conflict.time c') pp ps /\
              c' = conflict_at pm sm (Conflict.time c') pp ps) as Hrec.
  { intros c' (pp & ps & Hb & Hbr & Hc')%IH. exists pp, ps.
    split; [unfold us_per_second in *; lia | auto]. }
  destruct (get_position_at_time h pm cur) as [rp| |] eqn:Hp;
    try discriminate.
  destruct (get_position_at_time h sm cur) as [rs| |] eqn:Hs;
    try discriminate.
  bind_step. destruct rp as [pp|]; [destruct rs as [ps|]|]; try apply Hrec.
  case_decide as Hd; [|apply Hrec].
  unfold Conflict.__init__. case_decide; [discriminate|]. bind_step.
  intros [= <-]. exists pp, ps. cbn [Conflict.time].
  split; [lia|]. split; [split; auto | reflexivity].
Qed.

Lemma refine_sound fuel h pm sm ca cb buffer window c :
  check_temporal_overlap_at_location fuel h pm sm ca cb buffer window
  = Ok (Some c) ->
  exists tp pp ps,
    Waypoint.time ca = Some tp /\
    tp - window <= Conflict.time c <= tp + window /\
    Mission.start_time pm <= Conflict.time c <= Mission.end_time pm /\
    Mission.start_time sm <= Conflict.time c <= Mission.end_time sm /\
    breach h pm sm buffer (Conflict.time c) pp ps /\
    c = conflict_at pm sm (Conflict.time c) pp ps.
Proof.
  unfold check_temporal_overlap_at_location.
  repeat case_decide; try discriminate.
  destruct (Waypoint.get_time ca) as [tp| |] eqn:Htp; try discriminate.
  apply get_time_inv in Htp. bind_step.
  intros (pp & ps & Hb & Hbr & Hc)%check_loop_sound.
  exists tp, pp, ps. split; [exact Htp|].
  repeat split; try assumption; try lia; apply Hbr.
Qed.

(** X17.  A Conflict the Refiner returns is a real one: its time lies
    within the window around the candidate's time and within both
    missions' active windows, both missions have a position at that time
    and the two are closer than the buffer, and the reported location has
    the coordinates ((xa + xb) / 2, (ya + yb) / 2, (za + zb) / 2) of the
    two positions and is stamped with the conflict time. *)
Theorem refiner_conflict_is_real (fuel : nat) (h : store)
    (pm sm : Mission.t) (ca cb : Waypoint.t) (buffer : R) (window : Z)
    (c : Conflict.t) :
  check_temporal_overlap_at_location fuel h pm sm ca cb buffer window
  = Ok (Some c) ->
  exists tp pp ps,
    Waypoint.time ca = Some tp /\
    tp - window <= Conflict.time c <= tp + window /\
    Mission.start_time pm <= Conflict.time c <= Mission.end_time pm /\
    Mission.start_time sm <= Conflict.time c <= Mission.end_time sm /\
    get_position_at_time h pm (Conflict.time c) = Ok (Some pp) /\
    get_position_at_time h sm (Conflict.time c) = Ok (Some ps) /\
    (calculate_distance pp ps < buffer)%R /\
    Waypoint.x (Conflict.location c)
    = ((Waypoint.x pp + Waypoint.x ps) / 2)%R /\
    Waypoint.y (Conflict.location c)
    = ((Waypoint.y pp + Waypoint.y ps) / 2)%R /\
    Waypoint.z (Conflict.location c)
    = ((Waypoint.z pp + Waypoint.z ps) / 2)%R /\
    Waypoint.time (Conflict.location c) = Some (Conflict.time c).
Proof.
  intros (tp & pp & ps & Htp & Hw & Hpw & Hsw & (Hp & Hs & Hd) & Hc)%refine_sound.
  exists tp, pp, ps. repeat (split; [assumption|]).
  rewrite Hc at 1 2 3 4. cbn [conflict_at Conflict.location Conflict.time].
  repeat split; reflexivity.
Qed.

(** X18.  The Refiner validates before it searches: a buffer that is not
    positive or a negative window raises ValueError, and with valid values
    a primary candidate without a time raises TypeError.  The simulated
    candidate point is never consulted: the result is the same for any
    such point. *)
Theorem refiner_validation (fuel : nat) (h : store) (pm sm : Mission.t)
    (ca cb : Waypoint.t) (buffer : R) (window : Z) :
  ((buffer <= 0)%R \/ window < 0 ->
   check_temporal_overlap_at_location fuel h pm sm ca cb buffer window
   = Raise ValueError) /\
  ((0 < buffer)%R -> 0 <= window -> Waypoint.time ca = None ->
   check_temporal_overlap_at_location fuel h pm sm ca cb buffer window
   = Raise TypeError) /\
  (forall cb',
     check_temporal_overlap_at_location fuel h pm sm ca cb' buffer window
     = check_temporal_overlap_at_location fuel h pm sm ca cb buffer window).
Proof.
  unfold check_temporal_overlap_at_location. split; [|split].
  - intros [Hb|Hw].
    + rewrite decide_True by exact Hb. reflexivity.
    + case_decide; [reflexivity|]. rewrite decide_True; [reflexivity|].
      unfold total_seconds, us_per_second, Rdiv.
      apply IZR_lt in Hw.
      assert (IZR window * / 1000000 < 0 * / 1000000)%R
        by (apply Rmult_lt_compat_r; lra).
      lra.
  - intros Hb Hw Hca. rewrite decide_False by lra.
    rewrite decide_False.
    + rewrite (get_time_None _ Hca). reflexivity.
    + pose proof (total_seconds_nonneg window Hw). lra.
  - reflexivity.
Qed.

End refiner_more.

Lemma refiner_validation_witness :
  check_temporal_overlap_at_location (rendering := silent_rendering) 0
    (line_store 0) (line_mission 0) (line_mission 0) origin_sample
    near_sample 0 default_threshold = Raise ValueError /\
  check_temporal_overlap_at_location (rendering := silent_rendering) 0
    (line_store 0) (line_mission 0) (line_mission 0)
    (Waypoint.mk 0 0 0 None) near_sample 10 default_threshold
  = Raise TypeError.
Proof.
  split.
  - apply (proj1 (refiner_validation (rendering := silent_rendering) 0
                    (line_store 0) (line_mission 0) (line_mission 0)
                    origin_sample near_sample 0 default_threshold)).
    left. lra.
  - apply (proj1 (proj2 (refiner_validation (rendering := silent_rendering)
                           0 (line_store 0) (line_mission 0)
                           (line_mission 0) (Waypoint.mk 0 0 0 None)
                           near_sample 10 default_threshold))).
    + lra.
    + vm_compute. discriminate.
    + reflexivity.
Defined.

Lemma line_self_conflict :
  check_temporal_overlap_at_location (rendering := silent_rendering) 11
    (line_store 0) (line_mission 0) (line_mission 0) origin_sample
    origin_sample 10 default_threshold
  = Ok (Some (conflict_at (rendering := silent_rendering) (line_mission 0)
                (line_mission 0) 0 origin_sample origin_sample)).
Proof.
  unfold check_temporal_overlap_at_location.
  rewrite decide_False by lra.
  rewrite decide_False
    by (assert (0 <= default_threshold) as Hw
          by (vm_compute; discriminate);
        pose proof (total_seconds_nonneg default_threshold Hw); lra).
  change (Waypoint.get_time origin_sample) with (Ok (A := datetime) 0).
  bind_step. rewrite check_loop_eq.
  rewrite decide_True by (vm_compute; discriminate).
  change (Z.max (Z.max (0 - default_threshold)
                   (Mission.start_time (line_mission 0)))
            (Mission.start_time (line_mission 0)))
    with (Mission.start_time (line_mission 0)).
  rewrite (position_at_start (line_store 0) (line_mission 0) origin_sample
             [Waypoint.mk 100 0 0 (Some (0 + 300 * us_per_second))]
             (Waypoint.mk 100 0 0 (Some (0 + 300 * us_per_second))));
    try reflexivity.
  2:{ repeat constructor; eexists; reflexivity. }
  bind_step.
  rewrite decide_True.
  - reflexivity.
  - replace (calculate_distance origin_sample origin_sample) with 0%R;
      [lra|].
    symmetry. rewrite calculate_distance_distance_to.
    apply distance_to_zero_iff. reflexivity.
Qed.

Lemma refiner_conflict_is_real_witness :
  exists c tp pp ps,
    check_temporal_overlap_at_location (rendering := silent_rendering) 11
      (line_store 0) (line_mission 0) (line_mission 0) origin_sample
      origin_sample 10 default_threshold = Ok (Some c) /\
    Waypoint.time origin_sample = Some tp /\
    tp - default_threshold <= Conflict.time c <= tp + default_threshold /\
    Mission.start_time (line_mission 0) <= Conflict.time c
    <= Mission.end_time (line_mission 0) /\
    Mission.start_time (line_mission 0) <= Conflict.time c
    <= Mission.end_time (line_mission 0) /\
    get_position_at_time (line_store 0) (line_mission 0) (Conflict.time c)
    = Ok (Some pp) /\
    get_position_at_time (line_store 0) (line_mission 0) (Conflict.time c)
    = Ok (Some ps) /\
    (calculate_distance pp ps < 10)%R /\
    Waypoint.x (Conflict.location c)
    = ((Waypoint.x pp + Waypoint.x ps) / 2)%R /\
    Waypoint.y (Conflict.location c)
    = ((Waypoint.y pp + Waypoint.y ps) / 2)%R /\
    Waypoint.z (Conflict.location c)
    = ((Waypoint.z pp + Waypoint.z ps) / 2)%R /\
    Waypoint.time (Conflict.location c) = Some (Conflict.time c).
Proof.
  destruct (refiner_conflict_is_real (rendering := silent_rendering) 11
              (line_store 0) (line_mission 0) (line_mission 0)
              origin_sample origin_sample 10 default_threshold _
              line_self_conflict) as (tp & pp & ps & H).
  eexists _, tp, pp, ps. split; [exact line_self_conflict | exact H].
Defined.

(** ** More on the Orchestrator *)

Lemma distance_ge_coordinate (ax : axis) (a b : Waypoint.t) :
  (coordinate ax (coords b) - coordinate ax (coords a)
   <= calculate_distance a b)%R.
Proof.
  unfold calculate_distance.
  set (dx := (Waypoint.x a - Waypoint.x b)%R).
  set (dy := (Waypoint.y a - Waypoint.y b)%R).
  set (dz := (Waypoint.z a - Waypoint.z b)%R).
  assert (forall d s : R, (0 <= s)%R -> (d ^ 2 <= s)%R -> (- d <= sqrt s)%R)
    as Hkey.
  { intros d s Hs Hd.
    destruct (Rle_dec 0 (- d)) as [Hpos|Hneg].
    - apply Rsqr_incr_0_var; [|apply sqrt_pos].
      rewrite Rsqr_sqrt by exact Hs. unfold Rsqr. lra.
    - pose proof (sqrt_pos s). lra. }
  pose proof (pow2_ge_0 dx). pose proof (pow2_ge_0 dy).
  pose proof (pow2_ge_0 dz).
  destruct ax; unfold coords; cbn [coordinate fst snd].
  - replace (Waypoint.x b - Waypoint.x a)%R with (- dx)%R
      by (unfold dx; lra).
    apply Hkey; lra.
  - replace (Waypoint.y b - Waypoint.y a)%R with (- dy)%R
      by (unfold dy; lra).
    apply Hkey; lra.
  - replace (Waypoint.z b - Waypoint.z a)%R with (- dz)%R
      by (unfold dz; lra).
    apply Hkey; lra.
Qed.

Section orchestrator_more.
Context {rendering : Rendering}.

Lemma refine_all_sound fuel h pm sm buffer (Q : Conflict.t -> Prop) :
  (forall c, real_conflict h pm sm buffer c -> Q c) ->
  forall overlaps acc out,
    refine_all fuel h pm sm buffer overlaps acc = Ok out ->
    Forall Q acc -> Forall Q out.
Proof.
  intros HQ. induction overlaps as [|[ca cb] overlaps IH]; intros acc out.
  - intros [= <-]. auto.
  - cbn [refine_all].
    destruct (check_temporal_overlap_at_location fuel h pm sm ca cb buffer
                default_threshold) as [r| |] eqn:Hr; try discriminate.
    bind_step. intros Hout Hacc. apply (IH _ _ Hout).
    destruct r as [c|]; [|exact Hacc].
    apply Forall_app. split; [exact Hacc|]. constructor; [|constructor].
    apply HQ.
    apply refine_sound in Hr
      as (tp & pp & ps & _ & _ & Hpw & Hsw & Hbr & Hc).
    split; [exact Hpw|]. split; [exact Hsw|]. eauto.
Qed.

Lemma verify_loop_sound fuel h sys pm traj (Q : Conflict.t -> Prop) :
  forall ms,
    (forall sm c, sm ∈ ms ->
       real_conflict h pm sm (safety_buffer sys) c -> Q c) ->
    forall acc out,
      verify_loop fuel h sys pm traj ms acc = Ok out ->
      Forall Q acc -> Forall Q out.
Proof.
  induction ms as [|sm ms IH]; intros HQ acc out.
  - intros [= <-]. auto.
  - cbn [verify_loop].
    destruct (_pre_interpolated_simulated_trajectories sys
                !! Mission.drone_id sm) as [straj|]; [|discriminate].
    destruct (check_spatial_proximity _ traj _ straj (safety_buffer sys))
      as [found| |]; try discriminate. bind_step.
    destruct (refine_all fuel h pm sm (safety_buffer sys) found acc)
      as [det| |] eqn:Hdet; try discriminate. bind_step.
    intros Hout Hacc. apply (IH ltac:(intros sm' c Hin; apply HQ; right; exact Hin) _ _ Hout).
    apply (refine_all_sound fuel h pm sm (safety_buffer sys) Q
             ltac:(intros c; apply HQ; left) found acc det Hdet Hacc).
Qed.

Lemma verify_mission_sound fuel h sys pm v (Q : Conflict.t -> Prop) :
  (forall sm c, sm ∈ simulated_missions sys ->
     real_conflict h pm sm (safety_buffer sys) c -> Q c) ->
  verify_mission fuel h sys pm = Ok v ->
  Forall Q (conflict_details v).
Proof.
  intros HQ. unfold verify_mission.
  destruct (interpolate_trajectory fuel h pm 1) as [traj| |];
    try discriminate. bind_step.
  destruct (verify_loop fuel h sys pm traj (simulated_missions sys) [])
    as [det| |] eqn:Hdet; try discriminate. bind_step.
  pose proof (verify_loop_sound fuel h sys pm traj Q _ HQ [] det Hdet
                (Forall_nil_2 Q)) as Hall.
  destruct det; intros [= <-]; cbn [conflict_details]; [constructor|].
  exact Hall.
Qed.

Lemma kept_apart_no_conflict h pm sm buffer c :
  kept_apart h pm sm buffer -> ~ real_conflict h pm sm buffer c.
Proof.
  intros Hk (Hpw & Hsw & pp & ps & (Hp & Hs & Hd) & _).
  destruct Hk as [Hk|[Hk|(ax & c1 & c2 & H1 & H2 & Hk)]]; [lia..|].
  assert (convex_set (fun p => coordinate ax p = c1)) as Hc1
    by (intros u v a _; apply coordinate_plane_affine).
  assert (convex_set (fun p => coordinate ax p = c2)) as Hc2
    by (intros u v a _; apply coordinate_plane_affine).
  pose proof (position_convex _ _ _ _ _ Hc1 H1 Hp) as Hpp.
  pose proof (position_convex _ _ _ _ _ Hc2 H2 Hs) as Hps.
  cbv beta in Hpp, Hps.
  pose proof (distance_ge_coordinate ax pp ps).
  pose proof (distance_ge_coordinate ax ps pp).
  assert (calculate_distance ps pp = calculate_distance pp ps) as Hsym.
  { unfold calculate_distance. f_equal. ring. }
  rewrite Hsym, Hpp, Hps in *.
  unfold Rabs in Hk. destruct (Rcase_abs (c1 - c2)); lra.
Qed.

Lemma system_verify_returns (h0 h : store) (missions : list Mission.t)
    (buffer : R) (primary : Mission.t) (fuel : nat) :
  Forall (accepted h0) missions -> Forall (accepted h) missions ->
  accepted h primary -> (0 < buffer)%R ->
  (fuel_for (primary :: missions) <= fuel)%nat ->
  exists sys v,
    DeconflictionSystem_init fuel h0 missions buffer = Ok sys /\
    simulated_missions sys = missions /\ safety_buffer sys = buffer /\
    verify_mission fuel h sys primary = Ok v.
Proof.
  intros Hms0 Hms Hp Hb Hf. cbn [fuel_for foldr] in Hf.
  fold (fuel_for missions) in Hf.
  unfold DeconflictionSystem_init. rewrite decide_False by lra.
  destruct (pre_interpolate_ok h0 fuel missions Hms0 ltac:(lia) ∅)
    as (cache & -> & Hc & _ & Hall).
  { apply map_Forall_empty. }
  bind_step. eexists.
  assert (exists v,
            verify_mission fuel h (mkSystem missions buffer cache) primary
            = Ok v) as (v & Hv).
  { unfold verify_mission.
    destruct (interpolate_default_ok h primary fuel Hp ltac:(lia))
      as (traj & -> & Ht).
    bind_step. cbn [simulated_missions].
    destruct (verify_loop_ok h (mkSystem missions buffer cache) primary traj
                fuel missions Hp Ht Hb) with (acc := @nil Conflict.t)
      as (out & -> & Hout).
    - pose proof (fuel_for_base missions). lia.
    - exact Hms.
    - unfold cache_covers. cbn [_pre_interpolated_simulated_trajectories].
      eapply Forall_impl; [exact Hall|]. intros m [traj' Hm].
      exists traj'. split; [exact Hm|]. eapply Hc, Hm.
    - bind_step. destruct out; eexists; reflexivity. }
  exists v. repeat split; try reflexivity. exact Hv.
Qed.

(** X19.  Every Conflict in a verdict of [verify_mission] is a real one:
    it belongs to one of the system's reference missions, its time lies in
    the active windows of that mission and of the primary one, both have a
    position at that time, the two positions are closer than the system's
    buffer, and the Conflict is the one the Refiner builds from them. *)
Theorem verdict_conflicts_are_real (fuel : nat) (h : store)
    (sys : DeconflictionSystem) (pm : Mission.t) (v : verdict) :
  verify_mission fuel h sys pm = Ok v ->
  Forall (fun c =>
            exists sm pp ps,
              sm ∈ simulated_missions sys /\
              Mission.start_time pm <= Conflict.time c
              <= Mission.end_time pm /\
              Mission.start_time sm <= Conflict.time c
              <= Mission.end_time sm /\
              get_position_at_time h pm (Conflict.time c) = Ok (Some pp) /\
              get_position_at_time h sm (Conflict.time c) = Ok (Some ps) /\
              (calculate_distance pp ps < safety_buffer sys)%R /\
              c = conflict_at pm sm (Conflict.time c) pp ps)
         (conflict_details v).
Proof.
  apply verify_mission_sound.
  intros sm c Hin (Hpw & Hsw & pp & ps & (Hp & Hs & Hd) & Hc).
  exists sm, pp, ps. repeat (split; [assumption|]). exact Hc.
Qed.

(** X20.  No false alarm for missions that are kept apart: when every
    reference mission either is never active at the same time as the
    primary mission or is flown at a fixed level of some coordinate (for
    instance a fixed altitude) that is at least the buffer away from the
    fixed level of the primary mission, building the system and verifying
    return the verdict "clear" with no conflicts. *)
Theorem kept_apart_missions_are_clear (h0 h : store)
    (missions : list Mission.t) (buffer : R) (primary : Mission.t)
    (fuel : nat) :
  Forall (accepted h0) missions -> Forall (accepted h) missions ->
  accepted h primary -> (0 < buffer)%R ->
  (fuel_for (primary :: missions) <= fuel)%nat ->
  Forall (fun sm => kept_apart h primary sm buffer) missions ->
  exists sys,
    DeconflictionSystem_init fuel h0 missions buffer = Ok sys /\
    verify_mission fuel h sys primary = Ok (mkVerdict "clear" []).
Proof.
  intros Hms0 Hms Hp Hb Hf Hk.
  destruct (system_verify_returns h0 h missions buffer primary fuel
              Hms0 Hms Hp Hb Hf) as (sys & v & Hsys & Hm & Hbuf & Hv).
  exists sys. split; [exact Hsys|]. rewrite Hv. f_equal.
  assert (Forall (fun _ => False) (conflict_details v)) as Hnone.
  { apply (verify_mission_sound fuel h sys primary v); [|exact Hv].
    intros sm c Hin Hreal. rewrite Hm in Hin. rewrite Hbuf in Hreal.
    rewrite Forall_forall in Hk.
    exact (kept_apart_no_conflict _ _ _ _ _ (Hk sm Hin) Hreal). }
  destruct (verdict_status _ _ _ _ _ Hv) as [_ Hclear].
  destruct v as [st det]. cbn [conflict_details status] in *.
  destruct det as [|c det].
  - f_equal. apply Hclear. reflexivity.
  - apply Forall_cons in Hnone as [[] _].
Qed.

End orchestrator_more.

Lemma low_accepted : accepted level_store low_mission.
Proof.
  apply (init_accepted level_store "LOW" [1%positive; 2%positive] 0
           (300 * us_per_second) level_store).
  reflexivity.
Qed.

Lemma high_accepted : accepted level_store high_mission.
Proof.
  apply (init_accepted level_store "HIGH" [3%positive; 4%positive] 0
           (300 * us_per_second) level_store).
  reflexivity.
Qed.

Lemma verdict_conflicts_are_real_witness :
  exists sys v,
    DeconflictionSystem_init (fuel_for [low_mission; low_mission])
      level_store [low_mission] 10 = Ok sys /\
    verify_mission (rendering := silent_rendering)
      (fuel_for [low_mission; low_mission]) level_store sys low_mission
    = Ok v /\
    Forall (fun c =>
              exists sm pp ps,
                sm ∈ simulated_missions sys /\
                Mission.start_time low_mission <= Conflict.time c
                <= Mission.end_time low_mission /\
                Mission.start_time sm <= Conflict.time c
                <= Mission.end_time sm /\
                get_position_at_time level_store low_mission
                  (Conflict.time c) = Ok (Some pp) /\
                get_position_at_time level_store sm (Conflict.time c)
                = Ok (Some ps) /\
                (calculate_distance pp ps < safety_buffer sys)%R /\
                c = conflict_at (rendering := silent_rendering) low_mission
                      sm (Conflict.time c) pp ps)
           (conflict_details v).
Proof.
  destruct (system_verify_returns (rendering := silent_rendering)
              level_store level_store [low_mission] 10 low_mission
              (fuel_for [low_mission; low_mission]))
    as (sys & v & Hsys & _ & _ & Hv).
  - constructor; [apply low_accepted | constructor].
  - constructor; [apply low_accepted | constructor].
  - apply low_accepted.
  - lra.
  - apply Nat.le_refl.
  - exists sys, v. split; [exact Hsys|]. split; [exact Hv|].
    exact (verdict_conflicts_are_real (rendering := silent_rendering)
             _ level_store sys low_mission v Hv).
Defined.

Lemma kept_apart_missions_are_clear_witness :
  exists sys,
    DeconflictionSystem_init (fuel_for [low_mission; high_mission])
      level_store [high_mission] 10 = Ok sys /\
    verify_mission (rendering := silent_rendering)
      (fuel_for [low_mission; high_mission]) level_store sys low_mission
    = Ok (mkVerdict "clear" []).
Proof.
  apply (kept_apart_missions_are_clear (rendering := silent_rendering)
           level_store level_store [high_mission] 10 low_mission
           (fuel_for [low_mission; high_mission])).
  - constructor; [apply high_accepted | constructor].
  - constructor; [apply high_accepted | constructor].
  - apply low_accepted.
  - lra.
  - apply Nat.le_refl.
  - constructor; [|constructor]. right. right.
    exists Z_axis, 0%R, 50%R.
    split; [|split].
    + constructor; [reflexivity|].
      constructor; [reflexivity | constructor].
    + constructor; [reflexivity|].
      constructor; [reflexivity | constructor].
    + unfold Rabs. destruct (Rcase_abs (0 - 50)); lra.
Defined.

(** ** The trajectory cache *)

Lemma last_with_id_cons (id : string) (m : Mission.t) (ms : list Mission.t) :
  last_with_id id (m :: ms) =
  match last_with_id id ms with
  | Some m' => Some m'
  | None => if decide (Mission.drone_id m = id) then Some m else None
  end.
Proof.
  unfold last_with_id. rewrite filter_cons.
  destruct (decide (Mission.drone_id m = id));
    [|destruct (last _); reflexivity].
  destruct (filter _ ms) as [|m' l]; [reflexivity|].
  rewrite last_cons. destruct (last (m' :: l)) eqn:Hl; [reflexivity|].
  apply last_None in Hl. discriminate.
Qed.

Lemma pre_interpolate_lookup (fuel : nat) (h : store) (ms : list Mission.t) :
  forall cache cache',
    pre_interpolate fuel h ms cache = Ok cache' ->
    forall id,
      match last_with_id id ms with
      | Some m => exists traj,
          interpolate_trajectory fuel h m 1 = Ok traj /\
          cache' !! id = Some traj
      | None => cache' !! id = cache !! id
      end.
Proof.
  induction ms as [|m ms IH]; intros cache cache'.
  - intros [= <-] id. reflexivity.
  - cbn [pre_interpolate].
    destruct (interpolate_trajectory fuel h m 1) as [traj| |] eqn:Ht;
      try discriminate. bind_step.
    intros Hrest id. specialize (IH _ _ Hrest id).
    rewrite last_with_id_cons.
    destruct (last_with_id id ms) as [m'|]; [exact IH|].
    rewrite IH. case_decide as Hid.
    + exists traj. split; [exact Ht|]. subst id. apply lookup_insert_eq.
    + apply lookup_insert_ne. exact Hid.
Qed.

(** X21.  A system that [DeconflictionSystem.__init__] returns has a
    positive buffer and keeps the mission list as given; its cache has an
    entry exactly for the drone ids of the missions, and the entry of an id
    is the one-second trajectory of the last mission that carries it, so an
    earlier mission with the same id is checked against the later one's
    trajectory. *)
Theorem init_caches_last_trajectory_per_id (fuel : nat) (h : store)
    (missions : list Mission.t) (buffer : R) (sys : DeconflictionSystem) :
  DeconflictionSystem_init fuel h missions buffer = Ok sys ->
  (0 < buffer)%R /\
  simulated_missions sys = missions /\
  safety_buffer sys = buffer /\
  forall id,
    match last_with_id id missions with
    | Some m => exists traj,
        interpolate_trajectory fuel h m 1 = Ok traj /\
        _pre_interpolated_simulated_trajectories sys !! id = Some traj
    | None => _pre_interpolated_simulated_trajectories sys !! id = None
    end.
Proof.
  unfold DeconflictionSystem_init. case_decide as Hb; [discriminate|].
  destruct (pre_interpolate fuel h missions ∅) as [cache| |] eqn:Hc;
    try discriminate. bind_step. intros [= <-].
  split; [lra|]. split; [reflexivity|]. split; [reflexivity|].
  intros id. cbn [_pre_interpolated_simulated_trajectories].
  pose proof (pre_interpolate_lookup fuel h missions ∅ cache Hc id) as H.
  destruct (last_with_id id missions); [exact H|].
  rewrite H. apply lookup_empty.
Qed.

Lemma init_caches_last_trajectory_per_id_witness :
  exists sys,
    DeconflictionSystem_init (fuel_for [low_mission; high_mission])
      level_store [low_mission; high_mission] 10 = Ok sys /\
    (0 < 10)%R /\
    simulated_missions sys = [low_mission; high_mission] /\
    safety_buffer sys = 10%R /\
    forall id,
      match last_with_id id [low_mission; high_mission] with
      | Some m => exists traj,
          interpolate_trajectory (fuel_for [low_mission; high_mission])
            level_store m 1 = Ok traj /\
          _pre_interpolated_simulated_trajectories sys !! id = Some traj
      | None => _pre_interpolated_simulated_trajectories sys !! id = None
      end.
Proof.
  destruct (system_verify_returns (rendering := silent_rendering)
              level_store level_store [low_mission; high_mission] 10
              low_mission (fuel_for [low_mission; high_mission]))
    as (sys & v & Hsys & _ & _ & _).
  - constructor; [apply low_accepted|].
    constructor; [apply high_accepted | constructor].
  - constructor; [apply low_accepted|].
    constructor; [apply high_accepted | constructor].
  - apply low_accepted.
  - lra.
  - cbn [fuel_for foldr]. lia.
  - exists sys. split; [exact Hsys|].
    exact (init_caches_last_trajectory_per_id _ _ _ _ _ Hsys).
Defined.

(** ** Swapping the two missions of the Refiner *)

Lemma sorted_unique_swap (a b : string) :
  Conflict.sorted_unique [a; b] = Conflict.sorted_unique [b; a].
Proof.
  unfold Conflict.sorted_unique. do 2 f_equal.
  apply set_eq. set_solver.
Qed.

Section refiner_swap.
Context {rendering : Rendering}.

Lemma check_loop_swap (h : store) (pm sm : Mission.t) (buffer : R)
    (limit : Z) (fuel : nat) :
  accepted h pm -> accepted h sm ->
  forall cur,
    same_finding (check_loop fuel h pm sm buffer cur limit)
                 (check_loop fuel h sm pm buffer cur limit).
Proof.
  intros Hp Hs. induction fuel as [|fuel IH]; intros cur;
    rewrite (check_loop_eq _ h pm sm buffer cur),
      (check_loop_eq _ h sm pm buffer cur);
    case_decide; try exact I.
  destruct (position_total h pm cur) as [rp ->];
    auto using accepted_timed, accepted_nonempty.
  destruct (position_total h sm cur) as [rs ->];
    auto using accepted_timed, accepted_nonempty.
  bind_step. destruct rp as [pp|], rs as [ps|]; try apply IH.
  replace (calculate_distance ps pp) with (calculate_distance pp ps)
    by (unfold calculate_distance; f_equal; ring).
  case_decide; [|apply IH].
  unfold Conflict.__init__.
  rewrite !decide_False by apply describe_nonempty.
  cbn [mbind outcome_bind same_finding Conflict.time Conflict.location
       Conflict.conflicting_drone_ids].
  split; [reflexivity|]. split; [|apply sorted_unique_swap].
  unfold midpoint. f_equal; lra.
Qed.

(** X22.  The Refiner reads the first candidate point through its time
    only and treats the two missions alike: for two missions accepted by
    the constructor and two candidate points that carry the same time, the
    call with the missions swapped and the candidates swapped gives the
    same finding as the original call: both raise the same exception, or
    both find nothing, or both return a Conflict with the same time, the
    same location and the same list of drone ids. *)
Theorem refiner_swap_gives_same_finding (fuel : nat) (h : store)
    (pm sm : Mission.t) (ca cb : Waypoint.t) (buffer : R) (window : Z) :
  accepted h pm -> accepted h sm ->
  Waypoint.time ca = Waypoint.time cb ->
  same_finding
    (check_temporal_overlap_at_location fuel h pm sm ca cb buffer window)
    (check_temporal_overlap_at_location fuel h sm pm cb ca buffer window).
Proof.
  intros Hp Hs Htime. unfold check_temporal_overlap_at_location.
  case_decide; [reflexivity|]. case_decide; [reflexivity|].
  replace (Waypoint.get_time cb) with (Waypoint.get_time ca)
    by (unfold Waypoint.get_time; rewrite Htime; reflexivity).
  destruct (Waypoint.get_time ca) as [tp|e|]; [|reflexivity|exact I].
  bind_step.
  replace (Z.max (Z.max (tp - window) (Mission.start_time sm))
             (Mission.start_time pm))
    with (Z.max (Z.max (tp - window) (Mission.start_time pm))
            (Mission.start_time sm)) by lia.
  replace (Z.min (Z.min (tp + window) (Mission.end_time sm))
             (Mission.end_time pm))
    with (Z.min (Z.min (tp + window) (Mission.end_time pm))
            (Mission.end_time sm)) by lia.
  apply check_loop_swap; assumption.
Qed.

End refiner_swap.

Lemma refiner_swap_gives_same_finding_witness :
  same_finding
    (check_temporal_overlap_at_location (rendering := silent_rendering) 11
       level_store low_mission high_mission origin_sample near_sample 10
       default_threshold)
    (check_temporal_overlap_at_location (rendering := silent_rendering) 11
       level_store high_mission low_mission near_sample origin_sample 10
       default_threshold).
Proof.
  apply (refiner_swap_gives_same_finding (rendering := silent_rendering) 11
           level_store low_mission high_mission origin_sample near_sample
           10 default_threshold).
  - apply low_accepted.
  - apply high_accepted.
  - reflexivity.
Defined.

(** ** Samples and position queries agree *)

Lemma StronglySorted_lookup_lt (ts : list Z) (i j : nat) (x y : Z) :
  StronglySorted Z.lt ts -> ts !! i = Some x -> ts !! j = Some y ->
  (i < j)%nat -> x < y.
Proof.
  intros Hs. revert i j. induction Hs as [|z l Hs IH Hall];
    intros i j Hi Hj Hij; [rewrite lookup_nil in Hi; discriminate|].
  destruct j as [|j]; [lia|]. cbn in Hj. destruct i as [|i]; cbn in Hi.
  - injection Hi as <-. rewrite Forall_forall in Hall.
    apply Hall. eapply list_elem_of_lookup_2, Hj.
  - apply (IH i j); [assumption.. | lia].
Qed.

Lemma increasing_lookup (ws : list Waypoint.t) (i : nat) (a : Waypoint.t) :
  increasing ws -> ws !! i = Some a ->
  exists ta, Waypoint.time a = Some ta /\
    forall j b tb, ws !! j = Some b -> Waypoint.time b = Some tb ->
      ((i < j)%nat -> ta < tb) /\ ((i <= j)%nat -> ta <= tb).
Proof.
  intros (ts & Hts & Hs) Ha. unfold times_are in Hts.
  assert (forall k c, ws !! k = Some c ->
            exists tc, ts !! k = Some tc /\ Waypoint.time c = Some tc) as Hk.
  { intros k c Hc.
    pose proof (f_equal (fun l => l !! k) Hts) as He. cbv beta in He.
    rewrite !list_lookup_fmap, Hc in He. cbn in He.
    destruct (ts !! k) as [tc|]; [|discriminate].
    injection He as He. eauto. }
  destruct (Hk i a Ha) as (ta & Hi & Hta). exists ta. split; [exact Hta|].
  intros j b tb Hb Htb. destruct (Hk j b Hb) as (tb' & Hj & Htb').
  rewrite Htb in Htb'. injection Htb' as <-.
  assert ((i < j)%nat -> ta < tb) as Hlt
    by (apply (StronglySorted_lookup_lt ts i j); assumption).
  split; [exact Hlt|]. intros Hle.
  destruct (decide (i = j)) as [->|Hne].
  - rewrite Hi in Hj. injection Hj as <-. lia.
  - apply Z.lt_le_incl, Hlt. lia.
Qed.

Lemma increasing_timed (ws : list Waypoint.t) : increasing ws -> timed ws.
Proof.
  intros Hinc. apply Forall_lookup. intros i a Ha.
  destruct (increasing_lookup ws i a Hinc Ha) as (ta & Hta & _). eauto.
Qed.

Lemma find_segment_index (ws : list Waypoint.t) (q : Z) (a b : Waypoint.t) :
  find_segment ws q = Ok (Some (a, b)) ->
  exists i ta tb,
    ws !! i = Some a /\ ws !! S i = Some b /\
    Waypoint.time a = Some ta /\ Waypoint.time b = Some tb /\
    ta <= q <= tb.
Proof.
  induction ws as [|u ws IH]; [discriminate|].
  destruct ws as [|v ws]; [discriminate|].
  rewrite find_segment_cons2.
  assert (find_segment (v :: ws) q = Ok (Some (a, b)) ->
          exists i ta tb,
            (u :: v :: ws) !! i = Some a /\
            (u :: v :: ws) !! S i = Some b /\
            Waypoint.time a = Some ta /\ Waypoint.time b = Some tb /\
            ta <= q <= tb) as Hrec.
  { intros (i & ta & tb & Hi & Hi' & Ht)%IH. exists (S i), ta, tb.
    split; [exact Hi|]. split; [exact Hi' | exact Ht]. }
  destruct (Waypoint.get_time u) as [tu| |] eqn:Hu; try discriminate.
  apply get_time_inv in Hu. bind_step.
  case_decide; [|exact Hrec].
  destruct (Waypoint.get_time v) as [tv| |] eqn:Hv; try discriminate.
  apply get_time_inv in Hv. bind_step.
  case_decide; [|exact Hrec].
  intros [= <- <-]. exists 0%nat, tu, tv.
  split; [reflexivity|]. split; [reflexivity|]. auto.
Qed.

Lemma find_segment_none_index (ws : list Waypoint.t) (q : Z) :
  find_segment ws q = Ok None ->
  forall i a b ta tb,
    ws !! i = Some a -> ws !! S i = Some b ->
    Waypoint.time a = Some ta -> Waypoint.time b = Some tb ->
    ~ ta <= q <= tb.
Proof.
  induction ws as [|u ws IH]; intros Hnone i a b ta tb Ha Hb Hta Htb Hq;
    [rewrite lookup_nil in Ha; discriminate|].
  destruct ws as [|v ws]; [cbn in Hb; try rewrite lookup_nil in Hb; discriminate|].
  rewrite find_segment_cons2 in Hnone.
  destruct i as [|i].
  - cbn in Ha, Hb. injection Ha as <-. injection Hb as <-.
    rewrite (get_time_Ok _ _ Hta) in Hnone.
    cbn [mbind outcome_bind] in Hnone.
    rewrite decide_True in Hnone by lia.
    rewrite (get_time_Ok _ _ Htb) in Hnone.
    cbn [mbind outcome_bind] in Hnone.
    rewrite decide_True in Hnone by lia. discriminate.
  - apply (IH) with (i := i) (a := a) (b := b) (ta := ta) (tb := tb);
      try assumption.
    destruct (Waypoint.get_time u) as [tu| |]; try discriminate.
    cbn [mbind outcome_bind] in Hnone.
    destruct (decide (tu <= q)); [|exact Hnone].
    destruct (Waypoint.get_time v) as [tv| |]; try discriminate.
    cbn [mbind outcome_bind] in Hnone.
    destruct (decide (q <= tv)); [discriminate | exact Hnone].
Qed.

Lemma blend_0 (c1 c2 : R * R * R) : blend c1 c2 0 = c1.
Proof.
  destruct c1 as [[x1 y1] z1]. unfold blend. cbn [fst snd].
  f_equal; [f_equal|]; lra.
Qed.

Lemma total_seconds_0 : total_seconds 0 = 0%R.
Proof. unfold total_seconds, Rdiv. apply Rmult_0_l. Qed.

Lemma total_seconds_pos (d : Z) : 0 < d -> (0 < total_seconds d)%R.
Proof.
  intros Hd. destruct (Rle_dec (total_seconds d) 0) as [Hle|Hgt]; [|lra].
  apply total_seconds_le_0 in Hle. lia.
Qed.

Lemma sample_is_position (h : store) (m : Mission.t) (idx : nat) (tm : Z)
    (s : Waypoint.t) :
  increasing (Mission.read_waypoints h m) ->
  Mission.start_time m <= tm <= Mission.end_time m ->
  (forall w, Mission.read_waypoints h m !! idx = Some w ->
             exists t, Waypoint.time w = Some t /\ t <= tm) ->
  (forall w, Mission.read_waypoints h m !! S idx = Some w ->
             exists t, Waypoint.time w = Some t /\ tm < t) ->
  sample_at (Mission.read_waypoints h m) idx tm = Ok s ->
  ~ inner_waypoint_time (Mission.read_waypoints h m) tm ->
  exists w, get_position_at_time h m tm = Ok (Some w) /\
            coords w = coords s.
Proof.
  intros Hinc Hwin Hcur Hnext Hs Hinner.
  unfold get_position_at_time.
  rewrite !bool_decide_eq_true_2 by lia. cbn [andb negb].
  remember (Mission.read_waypoints h m) as ws eqn:Hws. clear Hws.
  pose proof (increasing_timed ws Hinc) as Htimed.
  unfold sample_at in Hs.
  destruct (ws !! idx) as [wp1|] eqn:H1; [|discriminate].
  destruct (Hcur wp1 eq_refl) as (t1 & Ht1 & Hle1). clear Hcur.
  destruct (increasing_lookup ws idx wp1 Hinc H1) as (t1' & Ht1' & Hord1).
  rewrite Ht1 in Ht1'. injection Ht1' as <-.
  destruct (find_segment_timed ws tm Htimed) as (r & Hr & _).
  destruct ws as [|first rest] eqn:Hws;
    [rewrite lookup_nil in H1; discriminate|].
  rewrite <- Hws in *. rewrite Hr. cbv beta match. bind_step.
  assert (ws !! 0%nat = Some first) as H0 by (rewrite Hws; reflexivity).
  destruct (last ws) as [lst|] eqn:Hl;
    [|apply last_None in Hl; rewrite Hws in Hl; discriminate].
  change (default first (Some lst)) with lst.
  pose proof Hl as Hll. rewrite last_lookup in Hll.
  assert (idx <= pred (length ws))%nat as Hidx
    by (apply lookup_lt_Some in H1; lia).
  destruct (increasing_lookup ws 0 first Hinc H0) as (t0 & Ht0 & Hord0).
  destruct (increasing_lookup ws _ lst Hinc Hll) as (tl & Htl & _).
  case_decide as Hlast.
  - (* the cursor rests on the last waypoint *)
    injection Hs as <-. rewrite coords_stamped.
    assert (wp1 = lst) as ->.
    { subst idx. replace (length ws - 1)%nat with (pred (length ws)) in H1
        by lia. congruence. }
    assert (tl = t1) as -> by congruence.
    case_decide as Hq; [eauto|].
    case_decide as Hf.
    + exists first. split; [reflexivity|].
      assert (pred (length ws) = 0)%nat as Hz.
      { destruct (pred (length ws)) eqn:Hp; [reflexivity|].
        pose proof (proj1 (Hord0 _ lst t1 Hll Ht1) ltac:(lia)).
        rewrite Ht0 in Hf. injection Hf as ->. lia. }
      rewrite Hz in Hll. congruence.
    + destruct r as [[a b]|]; [|eauto].
      exfalso. apply find_segment_index in Hr
        as (i & ta & tb & Hi & Hi' & Hta & Htb & Hq1 & Hq2).
      destruct (increasing_lookup ws (S i) b Hinc Hi') as (tb' & Htb' & Hb).
      rewrite Htb in Htb'. injection Htb' as <-.
      apply lookup_lt_Some in Hi' as Hlen.
      pose proof (proj2 (Hb _ lst t1 Hll Ht1) ltac:(lia)).
      apply Hq. rewrite Ht1. f_equal. lia.
  - (* the cursor rests on an inner waypoint *)
    destruct (ws !! S idx) as [wp2|] eqn:H2; [|discriminate].
    destruct (Hnext wp2 eq_refl) as (t2 & Ht2 & Hlt2). clear Hnext.
    rewrite (get_time_Ok _ _ Ht2), (get_time_Ok _ _ Ht1) in Hs.
    cbn [mbind outcome_bind] in Hs.
    rewrite decide_False in Hs
      by (pose proof (total_seconds_pos (t2 - t1) ltac:(lia)); lra).
    injection Hs as <-. rewrite coords_lerp.
    apply lookup_lt_Some in H2 as Hlen2.
    case_decide as Hq.
    { exfalso. rewrite Htl in Hq. injection Hq as ->.
      destruct (increasing_lookup ws (S idx) wp2 Hinc H2)
        as (t2' & Ht2' & Hord2).
      rewrite Ht2 in Ht2'. injection Ht2' as <-.
      pose proof (proj2 (Hord2 _ lst tm Hll Htl) ltac:(lia)). lia. }
    case_decide as Hf.
    { exists first. split; [reflexivity|].
      rewrite Ht0 in Hf. injection Hf as ->.
      assert (idx = 0)%nat as ->.
      { destruct idx as [|k]; [reflexivity|].
        pose proof (proj1 (Hord0 _ wp1 t1 H1 Ht1) ltac:(lia)). lia. }
      assert (wp1 = first) as -> by congruence.
      assert (t1 = tm) as -> by congruence.
      rewrite Z.sub_diag, total_seconds_0.
      unfold Rdiv. rewrite Rmult_0_l. symmetry. apply blend_0. }
    destruct r as [[a b]|].
    2:{ exfalso.
        apply (find_segment_none_index ws tm Hr idx wp1 wp2 t1 t2);
          try assumption. lia. }
    apply find_segment_index in Hr
      as (i & ta & tb & Hi & Hi' & Hta & Htb & Hq1 & Hq2).
    rewrite (get_time_Ok _ _ Htb), (get_time_Ok _ _ Hta). bind_step.
    destruct (increasing_lookup ws i a Hinc Hi) as (ta' & Hta' & Horda).
    rewrite Hta in Hta'. injection Hta' as <-.
    destruct (increasing_lookup ws (S i) b Hinc Hi') as (tb' & Htb' & Hordb).
    rewrite Htb in Htb'. injection Htb' as <-.
    pose proof (proj1 (Horda _ b tb Hi' Htb) ltac:(lia)) as Hab.
    rewrite decide_False
      by (pose proof (total_seconds_pos (tb - ta) ltac:(lia)); lra).
    eexists. split; [reflexivity|]. rewrite coords_lerp.
    assert (i <= idx)%nat as Hi1.
    { destruct (decide (i <= idx)%nat) as [|Hgt]; [assumption|].
      destruct (increasing_lookup ws (S idx) wp2 Hinc H2)
        as (t2' & Ht2' & Hord2).
      rewrite Ht2 in Ht2'. injection Ht2' as <-.
      pose proof (proj2 (Hord2 _ a ta Hi Hta) ltac:(lia)). lia. }
    assert (idx <= S i)%nat as Hi2.
    { destruct (decide (idx <= S i)%nat) as [|Hgt]; [assumption|].
      pose proof (proj1 (Hordb _ wp1 t1 H1 Ht1) ltac:(lia)). lia. }
    destruct (decide (i = idx)) as [->|Hne].
    + replace a with wp1 by congruence. replace b with wp2 by congruence.
      replace ta with t1 by congruence. replace tb with t2 by congruence.
      reflexivity.
    + (* the query would use the segment that ends at the cursor's
         waypoint: the instant is the time of an inner waypoint *)
      exfalso. apply Hinner.
      assert (idx = S i) as -> by lia.
      assert (b = wp1) as -> by congruence.
      assert (tb = t1) as -> by congruence.
      exists (S i), wp1. split; [lia|]. split; [exact H1|].
      rewrite Ht1. f_equal. lia.
Qed.

Lemma sample_on_waypoint (ws : list Waypoint.t) (idx : nat) (tm : Z)
    (s w : Waypoint.t) :
  increasing ws ->
  (forall u, ws !! idx = Some u ->
             exists t, Waypoint.time u = Some t /\ t <= tm) ->
  (forall u, ws !! S idx = Some u ->
             exists t, Waypoint.time u = Some t /\ tm < t) ->
  sample_at ws idx tm = Ok s ->
  w ∈ ws -> Waypoint.time w = Some tm -> coords s = coords w.
Proof.
  intros Hinc Hcur Hnext Hs Hin Hw.
  apply list_elem_of_lookup in Hin as [i Hi].
  unfold sample_at in Hs.
  destruct (ws !! idx) as [wp1|] eqn:H1; [|discriminate].
  destruct (Hcur wp1 eq_refl) as (t1 & Ht1 & Hle1).
  destruct (increasing_lookup ws i w Hinc Hi) as (tw & Htw & Hordw).
  rewrite Hw in Htw. injection Htw as <-.
  destruct (increasing_lookup ws idx wp1 Hinc H1) as (t1' & Ht1' & Hord1).
  rewrite Ht1 in Ht1'. injection Ht1' as <-.
  assert (idx <= i)%nat as Hlo.
  { destruct (decide (idx <= i)%nat) as [|Hgt]; [assumption|].
    pose proof (proj1 (Hordw _ wp1 t1 H1 Ht1) ltac:(lia)). lia. }
  assert (i = idx) as ->.
  { destruct (decide (i = idx)) as [|Hne]; [assumption|]. exfalso.
    assert (S idx < length ws)%nat as Hlen
      by (apply lookup_lt_Some in Hi; lia).
    destruct (lookup_lt_is_Some_2 ws (S idx) Hlen) as [wp2 H2].
    destruct (Hnext wp2 H2) as (t2 & Ht2 & Hlt2).
    destruct (increasing_lookup ws (S idx) wp2 Hinc H2)
      as (t2' & Ht2' & Hord2).
    rewrite Ht2 in Ht2'. injection Ht2' as <-.
    pose proof (proj2 (Hord2 _ w tm Hi Hw) ltac:(lia)). lia. }
  assert (wp1 = w) as -> by congruence.
  assert (t1 = tm) as -> by congruence.
  case_decide; [injection Hs as <-; apply coords_stamped|].
  destruct (ws !! S idx) as [wp2|] eqn:H2; [|discriminate].
  destruct (Hnext wp2 eq_refl) as (t2 & Ht2 & Hlt2).
  rewrite (get_time_Ok _ _ Ht2), (get_time_Ok _ _ Hw) in Hs.
  cbn [mbind outcome_bind] in Hs.
  rewrite decide_False in Hs
    by (pose proof (total_seconds_pos (t2 - tm) ltac:(lia)); lra).
  injection Hs as <-. rewrite coords_lerp.
  rewrite Z.sub_diag, total_seconds_0.
  unfold Rdiv. rewrite Rmult_0_l. apply blend_0.
Qed.

Lemma sample_at_time (ws : list Waypoint.t) (idx : nat) (tm : Z)
    (s : Waypoint.t) :
  sample_at ws idx tm = Ok s -> Waypoint.time s = Some tm.
Proof.
  unfold sample_at. destruct (ws !! idx); [|discriminate].
  case_decide; [intros [= <-]; reflexivity|].
  destruct (ws !! S idx) as [wp2|]; [|discriminate].
  destruct (Waypoint.get_time wp2); try discriminate.
  destruct (Waypoint.get_time _); try discriminate.
  cbn [mbind outcome_bind].
  case_decide; intros [= <-]; reflexivity.
Qed.

Lemma sample_loop_agree (h : store) (m : Mission.t) (step : Z)
    (fuel : nat) :
  increasing (Mission.read_waypoints h m) -> 0 <= step ->
  forall idx cur path out,
    Mission.start_time m <= cur ->
    (forall w, Mission.read_waypoints h m !! idx = Some w ->
               exists t, Waypoint.time w = Some t /\ t <= cur) ->
    Forall (sample_matches_query h m) path ->
    sample_loop fuel (Mission.read_waypoints h m) idx cur
      (Mission.end_time m) step path = Ok out ->
    Forall (sample_matches_query h m) out.
Proof.
  intros Hinc Hstep.
  induction fuel as [|fuel IH]; intros idx cur path out Hcur Hidx Hpath;
    rewrite sample_loop_eq; case_decide; try discriminate;
    try (intros [= <-]; exact Hpath).
  destruct (advance_cursor _ _ _) as [idx'| |] eqn:Hadv; try discriminate.
  bind_step.
  destruct (cursor_step_inv _ idx idx' cur Hadv Hidx) as [Hc Hn].
  destruct (sample_at _ idx' cur) as [s| |] eqn:Hs; try discriminate.
  bind_step. apply IH.
  - lia.
  - intros w Hw. destruct (Hc w Hw) as (t & Ht & Hle).
    exists t. split; [exact Ht | lia].
  - apply Forall_app. split; [exact Hpath|].
    constructor; [|constructor].
    exists cur. split; [exact (sample_at_time _ _ _ _ Hs)|]. split.
    + intros w. exact (sample_on_waypoint _ idx' cur s w Hinc Hc Hn Hs).
    + exact (sample_is_position h m idx' cur s Hinc ltac:(lia) Hc Hn Hs).
Qed.

(** X23.  The trajectory and the position query agree away from the inner
    waypoints: for a mission with at least two waypoints whose times
    strictly increase, the first of them no later than start_time, and
    start_time no later than end_time, every sample of the interpolated
    trajectory carries a time; a sample taken at the time of a waypoint has
    that waypoint's coordinates; and unless the sample's time is the time
    of a waypoint other than the first and the last, [get_position_at_time]
    at that time returns a waypoint with the sample's coordinates. *)
Theorem samples_agree_with_position_query (fuel : nat) (h : store)
    (m : Mission.t) (step : R) (traj : list Waypoint.t)
    (first : Waypoint.t) (t0 : Z) :
  increasing (Mission.read_waypoints h m) ->
  (2 <= length (Mission.read_waypoints h m))%nat ->
  head (Mission.read_waypoints h m) = Some first ->
  Waypoint.time first = Some t0 -> t0 <= Mission.start_time m ->
  Mission.start_time m <= Mission.end_time m ->
  interpolate_trajectory fuel h m step = Ok traj ->
  Forall (fun s =>
            exists tm,
              Waypoint.time s = Some tm /\
              (forall w, w ∈ Mission.read_waypoints h m ->
                         Waypoint.time w = Some tm ->
                         coords s = coords w) /\
              (~ inner_waypoint_time (Mission.read_waypoints h m) tm ->
               exists w, get_position_at_time h m tm = Ok (Some w) /\
                         coords w = coords s)) traj.
Proof.
  intros Hinc Hlen Hhd Ht0 Hle Hse. unfold interpolate_trajectory.
  case_decide as Hstep; [discriminate|].
  rewrite decide_False by lia.
  assert (forall tm, t0 <= tm ->
            forall w, Mission.read_waypoints h m !! 0%nat = Some w ->
                      exists t, Waypoint.time w = Some t /\ t <= tm) as H0.
  { intros tm Htm w Hw. rewrite <- head_lookup, Hhd in Hw.
    injection Hw as <-. eauto. }
  destruct (sample_loop _ _ _ _ _ _ _) as [path| |] eqn:Hp;
    try discriminate. bind_step.
  apply (sample_loop_agree h m) in Hp; try assumption.
  2:{ apply timedelta_seconds_nonneg. lra. }
  2:{ lia. }
  2:{ apply H0. exact Hle. }
  2:{ constructor. }
  destruct (needs_final _ _) as [[|]| |]; try discriminate;
    bind_step; [|intros [= <-]; exact Hp].
  destruct (advance_cursor _ _ _) as [idx| |] eqn:Hadv; try discriminate.
  bind_step.
  destruct (cursor_step_inv _ 0%nat idx (Mission.end_time m) Hadv
              (H0 (Mission.end_time m) ltac:(lia))) as [Hcur Hnext].
  destruct (sample_at _ idx _) as [s| |] eqn:Hs; try discriminate.
  bind_step. intros [= <-].
  apply Forall_app. split; [exact Hp|].
  constructor; [|constructor].
  exists (Mission.end_time m).
  split; [exact (sample_at_time _ _ _ _ Hs)|]. split.
  - intros w. exact (sample_on_waypoint _ idx _ s w Hinc Hcur Hnext Hs).
  - exact (sample_is_position h m idx (Mission.end_time m) s Hinc
             ltac:(lia) Hcur Hnext Hs).
Qed.

Lemma samples_agree_with_position_query_witness :
  exists traj,
    interpolate_trajectory 301 (line_store 0) (line_mission 0) 1 = Ok traj /\
    Forall (fun s =>
              exists tm,
                Waypoint.time s = Some tm /\
                (forall w,
                   w ∈ Mission.read_waypoints (line_store 0)
                         (line_mission 0) ->
                   Waypoint.time w = Some tm -> coords s = coords w) /\
                (~ inner_waypoint_time
                     (Mission.read_waypoints (line_store 0)
                        (line_mission 0)) tm ->
                 exists w,
                   get_position_at_time (line_store 0) (line_mission 0) tm
                   = Ok (Some w) /\
                   coords w = coords s)) traj.
Proof.
  destruct (interpolate_default_ok (line_store 0) (line_mission 0) 301
              (line_accepted 0)) as (traj & Htraj & _).
  { vm_compute. lia. }
  exists traj. split; [exact Htraj|].
  apply (samples_agree_with_position_query 301 (line_store 0)
           (line_mission 0) 1 traj (Waypoint.mk 0 0 0 (Some 0)) 0).
  - exists [0; 0 + 300 * us_per_second]. split; [reflexivity|].
    constructor.
    + constructor; constructor.
    + constructor; [|constructor]. unfold us_per_second. lia.
  - rewrite line_waypoints. simpl. lia.
  - reflexivity.
  - reflexivity.
  - simpl. lia.
  - vm_compute. discriminate.
  - exact Htraj.
Defined.
